(** * Wave Function Collapse core: the image learner and the constraint solver

    A shallow embedding of [ImageLearner] and [ConstraintSolver] and the
    properties of the specification that concern them, followed by the
    handlers of the sketchpad page and further properties of all three.

    Conventions of the embedding.
    - A JS number that the code uses as a tile id, a weight, an index or a
      loop bound is a [Z]; array positions that the code only ever produces
      from a loop counter are [nat].
    - Reading an array out of range gives [undefined] in JS: an [option].
      Reading a property of [undefined] throws a [TypeError]; every function
      that can do so returns a [result].
    - The fields of [this] become explicit state.
    - [Math.random()] and its products are Numbers: they are rounded as
      binary64 arithmetic rounds them ([Double]). *)

From stdpp Require Import gmap strings list pretty.
From Stdlib Require Import ZArith NArith QArith Qround Qabs Qpower Sorted Lia Lqa.

Local Open Scope Z_scope.

(** ** Exceptions *)

(** The three ways the code can throw: a property read on [undefined], the
    [throw] at the end of [observe], and the [throw] of [getShannonEntropy]. *)
Inductive exn : Type :=
  | TypeError
  | NoPatternChosen
  | Contradiction.

Inductive result (A : Type) : Type :=
  | Ok (a : A)
  | Throw (e : exn).

Arguments Ok {A} a.
Arguments Throw {A} e.

#[global] Instance result_ret : MRet result := λ A a, Ok a.
#[global] Instance result_bind : MBind result := λ A B k r,
  match r with
  | Ok a => k a
  | Throw e => Throw e
  end.

(** [o.prop] where [o] may be [undefined]. *)
Definition defined {A} (o : option A) : result A :=
  match o with
  | Some a => Ok a
  | None => Throw TypeError
  end.

(** [for (const a of l) s = f(a, s)], stopping at the first exception. *)
Fixpoint foldM {A S} (f : A → S → result S) (l : list A) (s : S) : result S :=
  match l with
  | [] => Ok s
  | a :: l' => s' ← f a s; foldM f l' s'
  end.

(** [a[i]] for a JS number [i]. *)
Definition at_index {A} (l : list A) (i : Z) : option A :=
  if decide (i < 0) then None else l !! Z.to_nat i.

(** ** Bitmask *)

Module Bitmask.

(** Modelled from the spec: the class [Bitmask] (bitmask.js) is not part of
    the sources at hand. Section 4.1 describes it as a bitset of pattern
    indices with set, clear-all, enumerate-set-bits in ascending order,
    is-empty, clone, equals, AND and OR-into, and requires that only these
    semantics matter, whatever the storage. A mask is the natural number
    whose binary digits are its bits; the capacity given to the constructor
    does not show in any of the listed operations, and every index the
    learner and the solver set is below the capacity they asked for. *)
Definition t : Type := N.

(** Modelled from the spec: construct-empty(P). *)
Definition new (size : nat) : t := 0%N.

(** Modelled from the spec: set(i). *)
Definition setBit (m : t) (i : nat) : t := N.setbit m (N.of_nat i).

(** Modelled from the spec: test(i). *)
Definition test (m : t) (i : nat) : bool := N.testbit m (N.of_nat i).

(** Modelled from the spec: clear-all. *)
Definition clear (m : t) : t := 0%N.

(** Modelled from the spec: is-empty. *)
Definition isEmpty (m : t) : bool := N.eqb m 0.

(** Modelled from the spec: clone. *)
Definition createCopy (m : t) : t := m.

(** Modelled from the spec: equals(other). *)
Definition EQUALS (a b : t) : bool := N.eqb a b.

(** Modelled from the spec: AND(a, b), a new mask. *)
Definition AND (a b : t) : t := N.land a b.

(** Modelled from the spec: OR-into(other); the result is the new value of
    the receiver. *)
Definition combineWith (self other : t) : t := N.lor self other.

(** Modelled from the spec: enumerate-set-bits, the indices in ascending
    order. *)
Definition toArray (m : t) : list nat :=
  List.filter (test m) (seq 0 (N.to_nat (N.size m))).

End Bitmask.

(** ** Queue *)

Module Queue.

(** Modelled from the spec: the class [Queue] (queue.js) is not part of the
    sources at hand. Section 4.2 describes a FIFO with enqueue, dequeue
    (removes and returns the front) and length, without deduplication: a
    list with its front first. *)
Abbreviation t A := (list A).

(** Modelled from the spec: enqueue, at the back. *)
Definition enqueue {A} (q : t A) (a : A) : t A := q ++ [a].

(** Modelled from the spec: dequeue; the front and the queue behind it. *)
Definition dequeue {A} (q : t A) : option (A * t A) :=
  match q with
  | [] => None
  | a :: q' => Some (a, q')
  end.

End Queue.

(** ** Directions *)

(** Modelled from the spec: [DIRECTIONS] (directions.js) is not part of the
    sources at hand. Section 4.3 fixes the order up, down, left, right with
    offsets (-1,0), (1,0), (0,-1), (0,1), which is also the order of the
    comments in [getAdjacencies] and of its [oppositeDirIndex]. *)
Definition DIRECTIONS : list (Z * Z) := [(-1, 0); (1, 0); (0, -1); (0, 1)].

(** ** Numbers *)

(** A JS Number is a binary64 floating-point number: 53 significant bits,
    the last place never finer than [2^-1074]. The values are kept as
    rationals. The solver multiplies a number below 1 by an integer, so
    nothing overflows and infinities are left out. *)
Module Double.

Definition pow2 (e : Z) : Q := (2 ^ e)%Q.

(** The floor of the binary logarithm of [q], for [q > 0]. *)
Definition exponent (q : Q) : Z :=
  let e := Z.log2 (Qnum q) - Z.log2 (Z.pos (Qden q)) in
  if Qle_bool (pow2 e) q then e else e - 1.

(** The exponent of the unit in the last place of the doubles next to
    [q]. *)
Definition lastPlace (q : Q) : Z := Z.max (exponent (Qabs q) - 52) (-1074).

(** The integer nearest to [t]; of two at the same distance, the even
    one. *)
Definition nearestEven (t : Q) : Z :=
  let f := Qfloor t in
  match (t - inject_Z f ?= 1 # 2)%Q with
  | Lt => f
  | Gt => f + 1
  | Eq => if Z.even f then f else f + 1
  end.

(** [q] rounded to a double, to nearest and ties to even: the Number an
    arithmetic operation returns when its exact result is [q]. *)
Definition round (q : Q) : Q :=
  let e := lastPlace q in
  (inject_Z (nearestEven (q / pow2 e)) * pow2 e)%Q.

(** [q] cut down to a double: [q] itself when it is one. *)
Definition below (q : Q) : Q :=
  let e := lastPlace q in
  (inject_Z (Qfloor (q / pow2 e)) * pow2 e)%Q.

(** [a * b] on Numbers. *)
Definition mul (a b : Q) : Q := round (a * b).

(** [q] is the value of a double. *)
Definition isDouble (q : Q) : Prop :=
  ∃ m e : Z, Z.abs m < 2 ^ 53 ∧ -1074 ≤ e ∧ (q == inject_Z m * pow2 e)%Q.

End Double.

(** ** The image learner *)

Module ImageLearner.

(** A tile read from an image; [None] is [undefined] (a read past the end
    of a row). *)
Abbreviation tile := (option Z).
Abbreviation image := (list (list Z)).
Abbreviation pattern := (list (list tile)).
Abbreviation adjacency := (list (list Bitmask.t)).

Record t : Type := mk {
  patterns : list pattern;
  weights : list Z;
  adjacencies : adjacency
}.

(** [getPattern(image, N, y, x)]. *)
Definition getPattern (img : image) (N y x : Z) : result pattern :=
  foldM (λ ny pat,
           row ← defined (at_index img (y + ny));
           Ok (pat ++ [(λ nx, at_index row (x + nx)) <$> seqZ 0 N]))
        (seqZ 0 N) [].

(** [Array.prototype.toString]: the elements joined by commas, [undefined]
    as the empty string, nested arrays by their own [toString]. *)
Definition tile_toString (v : tile) : string :=
  match v with
  | Some z => pretty z
  | None => ""
  end.

Definition row_toString (row : list tile) : string :=
  String.concat "," (tile_toString <$> row).

Definition toString (p : pattern) : string :=
  String.concat "," (row_toString <$> p).

(** The locals and fields [getPatternsAndWeights] updates. *)
Record scan : Type := mkScan {
  scan_patterns : list pattern;
  scan_weights : list Z;
  uniquePatterns : gmap string nat
}.

(** The body of the two inner loops. *)
Definition scanWindow (img : image) (N y x : Z) (s : scan) : result scan :=
  p ← getPattern img N y x;
  let p_str := toString p in
  match uniquePatterns s !! p_str with
  | Some i =>
      Ok (mkScan (scan_patterns s) (alter Z.succ i (scan_weights s))
                 (uniquePatterns s))
  | None =>
      let ps := scan_patterns s ++ [p] in
      Ok (mkScan ps (scan_weights s ++ [1])
                 (<[p_str := (length ps - 1)%nat]> (uniquePatterns s)))
  end.

Definition scanRow (img : image) (N y : Z) (s : scan) : result scan :=
  row0 ← defined (img !! 0%nat);
  foldM (scanWindow img N y) (seqZ 0 (Z.of_nat (length row0) - N + 1)) s.

Definition scanImage (N : Z) (img : image) (s : scan) : result scan :=
  foldM (scanRow img N) (seqZ 0 (Z.of_nat (length img) - N + 1)) s.

Definition getPatternsAndWeights (images : list image) (N : Z)
  : result scan :=
  foldM (scanImage N) images (mkScan [] [] ∅).

(** The two maps of [isAdjacent]; a key that is absent gives [undefined]. *)
Definition start (d : Z) : option Z :=
  if decide (d = -1) then Some 1
  else if decide (d = 1) then Some 0
  else if decide (d = 0) then Some 0
  else None.

Definition end_ (d : Z) : option Z :=
  if decide (d = -1) then Some 0
  else if decide (d = 1) then Some (-1)
  else if decide (d = 0) then Some 0
  else None.

(** The comparison of the two inner loops of [isAdjacent] over the cells
    [(y, x)] in the order the loops visit them, leaving at the first
    mismatch. An entry that is [undefined] and a read past the end of a
    row are the same value. *)
Fixpoint overlapMatches (p1 p2 : pattern) (dy dx : Z) (cells : list (Z * Z))
  : result bool :=
  match cells with
  | [] => Ok true
  | (y, x) :: rest =>
      r1 ← defined (at_index p1 y);
      let tile1ID := mjoin (at_index r1 x) in
      r2 ← defined (at_index p2 (y + dy));
      let tile2ID := mjoin (at_index r2 (x + dx)) in
      if decide (tile1ID = tile2ID) then overlapMatches p1 p2 dy dx rest
      else Ok false
  end.

(** The half-open range [lo, hi) of a counting loop. *)
Definition range (lo hi : Z) : list Z := seqZ lo (hi - lo).

(** [isAdjacent(p1, p2, dir)]. When a map lookup gives [undefined] the loop
    bounds are [undefined] or [NaN], every loop test is false and the
    function returns [true]. *)
Definition isAdjacent (p1 p2 : pattern) (dir : Z * Z) : result bool :=
  let '(dy, dx) := dir in
  row0 ← defined (p1 !! 0%nat);
  match start dy, start dx, end_ dy, end_ dx with
  | Some startY, Some startX, Some eY, Some eX =>
      let endY := Z.of_nat (length p1) + eY in
      let endX := Z.of_nat (length row0) + eX in
      overlapMatches p1 p2 dy dx
        (y ← range startY endY; x ← range startX endX; [(y, x)])
  | _, _, _, _ => Ok true
  end.

Definition oppositeDirIndex (k : nat) : option nat :=
  match k with
  | 0%nat => Some 1%nat
  | 1%nat => Some 0%nat
  | 2%nat => Some 3%nat
  | 3%nat => Some 2%nat
  | _ => None
  end.

(** [adjacencies[i][k].setBit(j)]. *)
Definition setBitAt (adj : adjacency) (i k j : nat) : result adjacency :=
  row ← defined (adj !! i);
  m ← defined (row !! k);
  Ok (<[i := <[k := Bitmask.setBit m j]> row]> adj).

(** The body of the innermost loop of [getAdjacencies]. *)
Definition checkPair (ps : list pattern) (i j k : nat) (adj : adjacency)
  : result adjacency :=
  p1 ← defined (ps !! i);
  p2 ← defined (ps !! j);
  dir ← defined (DIRECTIONS !! k);
  a ← isAdjacent p1 p2 dir;
  if (a : bool) then
    match oppositeDirIndex k with
    | Some o =>
        adj' ← setBitAt adj i k j;
        setBitAt adj' j o i
    | None =>
        _ ← setBitAt adj i k j;
        Throw TypeError
    end
  else Ok adj.

Definition emptyAdjacencies (P : nat) : adjacency :=
  replicate P (replicate 4 (Bitmask.new P)).

(** The pairs [(i, j)] with [i < j < P] in the order of the two outer
    loops. *)
Definition pairs (P : nat) : list (nat * nat) :=
  i ← seq 0 P; j ← seq (S i) (P - S i); [(i, j)].

Definition getAdjacencies (ps : list pattern) : result adjacency :=
  let P := length ps in
  foldM (λ (ij : nat * nat) adj,
           foldM (checkPair ps ij.1 ij.2) (seq 0 (length DIRECTIONS)) adj)
        (pairs P) (emptyAdjacencies P).

(** [learn(images, N, profile)]. The profiler only wraps the methods to
    time them and is left out. *)
Definition learn (images : list image) (N : Z) : result t :=
  s ← getPatternsAndWeights images N;
  adj ← getAdjacencies (scan_patterns s);
  Ok (mk (scan_patterns s) (scan_weights s) adj).

End ImageLearner.

(** ** The constraint solver *)

Module ConstraintSolver.

Abbreviation wave := (list (list Bitmask.t)).
Abbreviation adjacency := (list (list Bitmask.t)).
Abbreviation position := (Z * Z)%type.

(** Modelled from the spec: the type [SetTileInstruction] is not part of
    the sources at hand. Section 3 describes a pre-set instruction as a
    triple (x, y, mask). *)
Abbreviation SetTileInstruction := (Z * Z * Bitmask.t)%type.

(** What [getShannonEntropy] computes is a floating-point number. Only its
    order and its strict equality are used; [Finite] carries the value. *)
Inductive number : Type :=
  | Finite (q : Q)
  | PosInfinity
  | NegInfinity
  | NaN.

(** [a < b] on numbers. *)
Definition number_lt (a b : number) : bool :=
  match a, b with
  | Finite p, Finite q => negb (Qle_bool q p)
  | Finite _, PosInfinity => true
  | NegInfinity, Finite _ => true
  | NegInfinity, PosInfinity => true
  | _, _ => false
  end.

(** [a === b] on numbers. *)
Definition number_eq (a b : number) : bool :=
  match a, b with
  | Finite p, Finite q => Qeq_bool p q
  | PosInfinity, PosInfinity => true
  | NegInfinity, NegInfinity => true
  | _, _ => false
  end.

(** The fields and the sources of randomness the methods touch:
    [this.waveMatrix], and how many times [Math.random] was called. *)
Record state : Type := mkState {
  waveMatrix : wave;
  draws : nat
}.

(** What a call of [solve] leaves behind: the value it returns, the final
    state, and the local [numAttempts] (the number the progress log
    prints). *)
Record outcome : Type := mkOutcome {
  returned : bool;
  final : state;
  attempts : Z
}.

(** [this.waveMatrix[y][x]] used as an object. *)
Definition cellAt (w : wave) (y x : Z) : result Bitmask.t :=
  row ← defined (at_index w y);
  defined (at_index row x).

(** [this.waveMatrix[y][x] = m] for a cell that exists. *)
Definition setCell (w : wave) (y x : Z) (m : Bitmask.t) : wave :=
  alter (λ row, <[Z.to_nat x := m]> row) (Z.to_nat y) w.

(** [initializeWaveMatrix(numPatterns, width, height)]. *)
Definition initializeWaveMatrix (numPatterns : nat) (width height : Z)
  : wave :=
  let allPatternsPossible :=
    foldl Bitmask.setBit (Bitmask.new numPatterns) (seq 0 numPatterns) in
  replicate (Z.to_nat height)
    (replicate (Z.to_nat width) (Bitmask.createCopy allPatternsPossible)).

(** A sum of weights; [None] is [NaN], which a weight that is [undefined]
    produces and every later addition keeps. *)
Definition addWeight (acc w : option Z) : option Z :=
  a ← acc; b ← w; Some (a + b).

(** [cursor >= random]; false when either side is [NaN]. *)
Definition cursor_ge (cursor : option Z) (rnd : option Q) : bool :=
  match cursor, rnd with
  | Some c, Some r => Qle_bool r (inject_Z c)
  | _, _ => false
  end.

(** The second loop of [observe] over the two parallel arrays: the pattern
    at the first position where the cursor has reached the draw. *)
Fixpoint choose (rnd : option Q) (cursor : option Z)
    (possiblePatterns : list nat) (possiblePatternWeights : list (option Z))
  : option nat :=
  match possiblePatterns, possiblePatternWeights with
  | p :: ps, w :: ws =>
      let cursor' := addWeight cursor w in
      if cursor_ge cursor' rnd then Some p else choose rnd cursor' ps ws
  | _, _ => None
  end.

(** The inner [for ... of] loop of [propagate]: the union of the masks
    [adjacencies[i][k]] over the possible patterns [i] of the first
    cell. *)
Definition unionOfAdjacent (adjacencies : adjacency) (k : nat)
    (cell1 : list nat) : result Bitmask.t :=
  foldM (λ i acc,
           row ← defined (adjacencies !! i);
           m ← defined (row !! k);
           Ok (Bitmask.combineWith acc m))
        cell1 (Bitmask.new (length adjacencies)).

(** The visit of one direction [k] from the cell [(y1, x1)] whose possible
    patterns are [cell1]: the body of the [for] loop of [propagate]. The
    flag says whether a contradiction was created. Every failing read
    throws the same [TypeError], so the model reads the neighbour before it
    builds the union. *)
Definition relax (adjacencies : adjacency) (y1 x1 : Z) (cell1 : list nat)
    (k : nat) (w : wave) (queue : Queue.t position)
  : result (bool * wave * Queue.t position) :=
  dir ← defined (DIRECTIONS !! k);
  let dy := - dir.1 in
  let dx := - dir.2 in
  let y2 := y1 + dy in
  let x2 := x1 + dx in
  if decide (y2 < 0 ∨ y2 > Z.of_nat (length w) - 1) then Ok (false, w, queue)
  else
    row0 ← defined (w !! 0%nat);
    if decide (x2 < 0 ∨ x2 > Z.of_nat (length row0) - 1)
    then Ok (false, w, queue)
    else
      cell2 ← cellAt w y2 x2;
      possibleAdjacent ← unionOfAdjacent adjacencies k cell1;
      let cell2_New := Bitmask.AND cell2 possibleAdjacent in
      if Bitmask.isEmpty cell2_New then Ok (true, w, queue)
      else if negb (Bitmask.EQUALS cell2 cell2_New)
      then Ok (false, setCell w y2 x2 cell2_New,
               Queue.enqueue queue (y2, x2))
      else Ok (false, w, queue).

(** The [for] loop of [propagate], left at the first contradiction. *)
Fixpoint visit (adjacencies : adjacency) (y1 x1 : Z) (cell1 : list nat)
    (ks : list nat) (w : wave) (queue : Queue.t position)
  : result (bool * wave * Queue.t position) :=
  match ks with
  | [] => Ok (false, w, queue)
  | k :: ks' =>
      '(contradictionCreated, w', queue') ←
        relax adjacencies y1 x1 cell1 k w queue;
      if (contradictionCreated : bool) then Ok (true, w', queue')
      else visit adjacencies y1 x1 cell1 ks' w' queue'
  end.

(** One turn of the [while] loop of [propagate] on the cell at the front
    of the queue; [rest] is the queue behind it. *)
Definition dequeueAndVisit (adjacencies : adjacency) (w : wave)
    (front : position) (rest : Queue.t position)
  : result (bool * wave * Queue.t position) :=
  cell1 ← cellAt w front.1 front.2;
  visit adjacencies front.1 front.2 (Bitmask.toArray cell1)
        (seq 0 (length DIRECTIONS)) w rest.

(** The [while] loop of [propagate]: it runs while the queue has a front.
    The loop has no bound in the source: [fuel] counts its turns and [None]
    means the fuel ran out. *)
Fixpoint propagateLoop (fuel : nat) (adjacencies : adjacency) (w : wave)
    (queue : Queue.t position) : option (result (bool * wave)) :=
  match fuel with
  | O => None
  | S fuel' =>
      match Queue.dequeue queue with
      | None => Some (Ok (false, w))
      | Some (front, rest) =>
          match dequeueAndVisit adjacencies w front rest with
          | Throw e => Some (Throw e)
          | Ok (true, w', _) => Some (Ok (true, w'))
          | Ok (false, w', queue') =>
              propagateLoop fuel' adjacencies w' queue'
          end
      end
  end.

(** [propagate(y, x, adjacencies)]. *)
Definition propagate (fuel : nat) (y x : Z) (adjacencies : adjacency)
    (w : wave) : option (result (bool * wave)) :=
  propagateLoop fuel adjacencies w (Queue.enqueue [] (y, x)).

Section Solver.

(** [random n] is the number behind the [n]-th call of [Math.random]. *)
Variable random : nat → Q.

(** [entropyOf ws] is the floating-point value of
    [Math.log(sumOfWeights) - sumOfWeightLogWeights/sumOfWeights] for
    the weights [ws] of the possible patterns, in the order of
    [toArray]. *)
Variable entropyOf : list (option Z) → number.

(** The Number that the [d]-th call of [Math.random] returns: [random d]
    when it is a double, else the double below it, so that the streams of
    the model are the streams of doubles. *)
Definition mathRandom (d : nat) : Q := Double.below (random d).

(** [Math.random() * n] for the [d]-th draw and an integer [n]. *)
Definition randomTimes (d : nat) (n : Z) : Q :=
  Double.mul (mathRandom d) (inject_Z n).

(** [Math.floor(Math.random() * n)], the [d]-th draw. *)
Definition randomBelow (d : nat) (n : Z) : Z :=
  Qfloor (randomTimes d n).

(** [observe(y, x, weights)]. *)
Definition observe (y x : Z) (weights : list Z) (st : state)
  : result state :=
  cell ← cellAt (waveMatrix st) y x;
  let possiblePatterns := Bitmask.toArray cell in
  let possiblePatternWeights := (λ i, weights !! i) <$> possiblePatterns in
  let totalWeight := foldl addWeight (Some 0) possiblePatternWeights in
  let rnd := randomTimes (draws st) <$> totalWeight in
  match choose rnd (Some 0) possiblePatterns possiblePatternWeights with
  | Some p =>
      Ok (mkState
            (setCell (waveMatrix st) y x
                     (Bitmask.setBit (Bitmask.clear cell) p))
            (S (draws st)))
  | None => Throw NoPatternChosen
  end.

(** [getShannonEntropy(bitmask, weights)]. *)
Definition getShannonEntropy (bitmask : Bitmask.t) (weights : list Z)
  : result number :=
  let possiblePatterns := Bitmask.toArray bitmask in
  if decide (length possiblePatterns = 0%nat) then Throw Contradiction
  else if decide (length possiblePatterns = 1%nat) then Ok (Finite 0)
  else Ok (entropyOf ((λ i, weights !! i) <$> possiblePatterns)).

(** The body of the two loops of
    [getLeastEntropyUnsolvedCellPosition]. *)
Definition compareEntropy (w : wave) (weights : list Z) (pos : position)
    (acc : number * list position) : result (number * list position) :=
  let '(leastEntropy, leastEntropyCellPositions) := acc in
  cell ← cellAt w pos.1 pos.2;
  entropy ← getShannonEntropy cell weights;
  if number_lt entropy leastEntropy && number_lt (Finite 0) entropy
  then Ok (entropy, [pos])
  else if number_eq entropy leastEntropy
  then Ok (leastEntropy, leastEntropyCellPositions ++ [pos])
  else Ok acc.

(** The positions the two loops visit, row by row. *)
Definition scanOrder (w : wave) : list position :=
  match w with
  | [] => []
  | row0 :: _ =>
      y ← seq 0 (length w); x ← seq 0 (length row0);
      [(Z.of_nat y, Z.of_nat x)]
  end.

(** [getLeastEntropyUnsolvedCellPosition(weights)]. *)
Definition getLeastEntropyUnsolvedCellPosition (weights : list Z)
    (st : state) : result (position * state) :=
  '(_, leastEntropyCellPositions) ←
    foldM (compareEntropy (waveMatrix st) weights)
          (scanOrder (waveMatrix st)) (PosInfinity, []);
  let len := length leastEntropyCellPositions in
  if decide (0 < len)%nat then
    pos ← defined (at_index leastEntropyCellPositions
                            (randomBelow (draws st) (Z.of_nat len)));
    Ok (pos, mkState (waveMatrix st) (S (draws st)))
  else Ok ((-1, -1), st).

(** The [while] loop of [solve]; [fuel] counts its turns and [pfuel] is
    the fuel of every call of [propagate]. *)
Fixpoint solveLoop (fuel pfuel : nat) (numPatterns : nat)
    (weights : list Z) (adjacencies : adjacency)
    (width height maxAttempts : Z)
    (st : state) (y x numAttempts : Z) : option (result outcome) :=
  match fuel with
  | O => None
  | S fuel' =>
      if decide (numAttempts ≤ maxAttempts) then
        match observe y x weights st with
        | Throw e => Some (Throw e)
        | Ok st1 =>
            match propagate pfuel y x adjacencies (waveMatrix st1) with
            | None => None
            | Some (Throw e) => Some (Throw e)
            | Some (Ok (true, _)) =>
                let w := initializeWaveMatrix numPatterns width height in
                let y' := randomBelow (draws st1) height in
                let x' := randomBelow (S (draws st1)) width in
                solveLoop fuel' pfuel numPatterns weights adjacencies
                          width height maxAttempts
                          (mkState w (S (S (draws st1))))
                          y' x' (numAttempts + 1)
            | Some (Ok (false, w)) =>
                match getLeastEntropyUnsolvedCellPosition weights
                        (mkState w (draws st1)) with
                | Throw e => Some (Throw e)
                | Ok ((y', x'), st2) =>
                    if decide (y' = -1 ∧ x' = -1)
                    then Some (Ok (mkOutcome true st2 numAttempts))
                    else solveLoop fuel' pfuel numPatterns weights
                                   adjacencies width height maxAttempts
                                   st2 y' x' numAttempts
                end
            end
        end
      else Some (Ok (mkOutcome false st numAttempts))
  end.

(** [solve(patterns, weights, adjacencies, setTiles, width, height,
    maxAttempts, logProgress, profile)]. The body never reads
    [setTiles]. Logging and profiling do not change the state and are
    left out. *)
Definition solve (fuel : nat) {pattern : Type} (patterns : list pattern)
    (weights : list Z) (adjacencies : adjacency)
    (setTiles : list SetTileInstruction)
    (width height maxAttempts : Z) (draws0 : nat)
  : option (result outcome) :=
  let w := initializeWaveMatrix (length patterns) width height in
  let numAttempts := 1 in
  let y := randomBelow draws0 height in
  let x := randomBelow (S draws0) width in
  solveLoop fuel fuel (length patterns) weights adjacencies
            width height maxAttempts
            (mkState w (S (S draws0))) y x numAttempts.

End Solver.

End ConstraintSolver.

(** ** The sketchpad *)

Module Sketchpad.

(** A point of a stroke: [{ x, y }]. *)
Abbreviation point := (Q * Q)%type.

(** The routines that sketchpad.js imports from lineCleanup.js and
    shapeDetection.js: the sketchpad is modelled for whatever they compute.
    [getShape] answers the points of the shape it recognises, or [None] for
    an answer that is not truthy. *)
Class Cleanup : Type := {
  getShape : list point → option (list point);
  ramerDouglasPeucker : list point → Z → list point;
  chaikinSmooth : list point → Z → list point
}.

(** [hue]: the number 0 of the initial mouse object, or the colour of a
    structure. *)
Inductive hue : Type :=
  | Hue0
  | Colour (c : string).

(** The objects [workingLine] is bound to. *)
Record line : Type := mkLine {
  points : list point;
  thickness : Z;
  line_hue : hue;
  structure : option string
}.

(** A [LineDisplayble] of displayables.js, as sketchpad.js uses it: it
    keeps the line it was made from (the sketchpad reads it back as
    [displayable.line]) and carries the sketchpad's own flag [normalized],
    which is not set on a new object. The line is an object that
    [workingLine] may still be bound to: [line_ref] is its place in the
    store of lines. *)
Record displayable : Type := mkDisplayable {
  line_ref : nat;
  normalized : bool
}.

(** [mouseObject.mouse]: a [MouseDisplayable] keeps the object it was made
    from, which the listeners read back as [mouseObject.mouse]. *)
Record mouse : Type := mkMouse {
  mouse_x : Q;
  mouse_y : Q;
  mouse_hue : hue;
  active : bool
}.

(** The variables of the module, and the store of the line objects. *)
Record state : Type := mkSketch {
  mouseObject : mouse;
  workingLine : nat;
  lines : list line;
  displayList : list displayable;
  redoDisplayList : list displayable;
  activeButton : option string;
  normalizing : bool
}.

(** What a handler does to the rest of the page: the events it dispatches
    (on the canvas: [drawing-changed], [tool-moved], whose listeners
    repaint; on the window: the others, with their [detail]), its own
    [clearRect], and its [console.log]. *)
Inductive effect : Type :=
  | ClearRect
  | DrawingChanged
  | ToolMoved
  | ClearSketch
  | UndoSketch (detail : nat)
  | RedoSketch (detail : nat)
  | Generate (sketch : list displayable)
  | ConsoleLog (sketch : list displayable).

Definition lineThickness : Z := 5.

(** [structures]: the colour and the region type of each structure. *)
Definition structures : list (string * (string * string)) :=
  [ ("House", ("#f54242", "box"));
    ("Forest", ("#009632", "box"));
    ("Fence", ("#f5c842", "trace"));
    ("Path", ("#8000ff", "trace")) ].

(** The state when the module has run its top-level statements up to the
    click on the house button: the working line is a line that is in no
    list. [checked] is the state of the normalize toggle. *)
Definition initial (checked : bool) : state :=
  mkSketch (mkMouse 0 0 Hue0 false) 0 [mkLine [] lineThickness Hue0 None]
           [] [] None checked.

(** [Array.prototype.pop]. *)
Definition pop {A} (l : list A) : option (list A * A) :=
  match reverse l with
  | [] => None
  | a :: l' => Some (reverse l', a)
  end.

(** The listener of [mousedown]. *)
Definition mousedown (x y : Q) (st : state) : state * list effect :=
  let m := mkMouse x y (mouse_hue (mouseObject st)) true in
  let l := mkLine [(mouse_x m, mouse_y m)] lineThickness (mouse_hue m)
                  (activeButton st) in
  let ref := length (lines st) in
  (mkSketch m ref (lines st ++ [l])
            (displayList st ++ [mkDisplayable ref false])
            (redoDisplayList st) (activeButton st) (normalizing st),
   [DrawingChanged; ToolMoved]).

(** [workingLine.points.push(p)]. *)
Definition pushPoint (p : point) (ref : nat) (ls : list line) : list line :=
  alter (λ l, mkLine (points l ++ [p]) (thickness l) (line_hue l)
                     (structure l)) ref ls.

(** The listener of [mousemove]. *)
Definition mousemove (x y : Q) (st : state) : state * list effect :=
  let m := mkMouse x y (mouse_hue (mouseObject st))
                   (active (mouseObject st)) in
  if active m then
    (mkSketch m (workingLine st)
              (pushPoint (mouse_x m, mouse_y m) (workingLine st) (lines st))
              (displayList st) (redoDisplayList st) (activeButton st)
              (normalizing st),
     [DrawingChanged; ToolMoved])
  else
    (mkSketch m (workingLine st) (lines st) (displayList st)
              (redoDisplayList st) (activeButton st) (normalizing st),
     [ToolMoved]).

(** The body of the loop of [normalizeStrokes] for one displayable. Every
    object of [displayList] is a [LineDisplayble]. *)
Definition normalizeStroke `{Cleanup} (d : displayable) (ls : list line)
  : displayable * list line :=
  if normalized d then (d, ls)
  else
    (mkDisplayable (line_ref d) true,
     alter (λ l,
              let pts :=
                match getShape (points l) with
                | Some shapePoints => shapePoints
                | None =>
                    let simplified := ramerDouglasPeucker (points l) 10 in
                    chaikinSmooth simplified 4
                end in
              mkLine pts (thickness l) (line_hue l) (structure l))
           (line_ref d) ls).

(** The loop of [normalizeStrokes] over [displayList]. *)
Fixpoint normalizeAll `{Cleanup} (ds : list displayable) (ls : list line)
  : list displayable * list line :=
  match ds with
  | [] => ([], ls)
  | d :: ds' =>
      let '(d', ls') := normalizeStroke d ls in
      let '(ds'', ls'') := normalizeAll ds' ls' in
      (d' :: ds'', ls'')
  end.

(** [normalizeStrokes()]. *)
Definition normalizeStrokes `{Cleanup} (st : state) : state * list effect :=
  let '(ds, ls) := normalizeAll (displayList st) (lines st) in
  (mkSketch (mouseObject st) (workingLine st) ls ds (redoDisplayList st)
            (activeButton st) (normalizing st),
   [DrawingChanged]).

(** The listener of [mouseup]; [checked] is what the normalize toggle
    shows. *)
Definition mouseup `{Cleanup} (x y : Q) (checked : bool) (st : state)
  : state * list effect :=
  let m := mkMouse x y (mouse_hue (mouseObject st)) false in
  let st1 := mkSketch m (workingLine st) (lines st) (displayList st)
                      (redoDisplayList st) (activeButton st) checked in
  let '(st2, es) := if checked then normalizeStrokes st1 else (st1, []) in
  (st2, es ++ [DrawingChanged; ToolMoved]).

(** [clearButton.onclick]. *)
Definition clear (st : state) : state * list effect :=
  (mkSketch (mouseObject st) (workingLine st) (lines st) [] []
            (activeButton st) (normalizing st),
   [ClearRect; ClearSketch]).

(** [undoButton.onclick]. *)
Definition undo (st : state) : state * list effect :=
  match pop (displayList st) with
  | Some (rest, toRedo) =>
      (mkSketch (mouseObject st) (workingLine st) (lines st) rest
                (redoDisplayList st ++ [toRedo]) (activeButton st)
                (normalizing st),
       [UndoSketch (length rest); DrawingChanged])
  | None => (st, [])
  end.

(** [redoButton.onclick]. *)
Definition redo (st : state) : state * list effect :=
  match pop (redoDisplayList st) with
  | Some (rest, toDisplay) =>
      let ds := displayList st ++ [toDisplay] in
      (mkSketch (mouseObject st) (workingLine st) (lines st) ds rest
                (activeButton st) (normalizing st),
       [RedoSketch (length ds); DrawingChanged])
  | None => (st, [])
  end.

(** The [onclick] of the button of the structure [type], on a page that
    has a button for each structure; a name that is not in [structures] has
    no button. The border colour of the button is not part of the state. *)
Definition structureButton (type : string) (st : state)
  : state * list effect :=
  match list_find (λ s, s.1 = type) structures with
  | Some (_, (_, (color, _))) =>
      let m := mouseObject st in
      (mkSketch (mkMouse (mouse_x m) (mouse_y m) (Colour color) (active m))
                (workingLine st) (lines st) (displayList st)
                (redoDisplayList st) (Some type) (normalizing st),
       [])
  | None => (st, [])
  end.

(** The state once the module is loaded: its last top-level statement
    that changes a variable is the click on the house button. *)
Definition loaded (checked : bool) : state :=
  (structureButton "House" (initial checked)).1.

(** [generateButton.onclick]. *)
Definition generate (st : state) : state * list effect :=
  (st, [ConsoleLog (displayList st); Generate (displayList st)]).

(** [normalizeToggle.onclick]. *)
Definition normalizeToggle `{Cleanup} (checked : bool) (st : state)
  : state * list effect :=
  let st1 := mkSketch (mouseObject st) (workingLine st) (lines st)
                      (displayList st) (redoDisplayList st)
                      (activeButton st) checked in
  if checked then normalizeStrokes st1 else (st1, []).

(** What the page sends to the sketchpad. *)
Inductive event : Type :=
  | MouseDown (x y : Q)
  | MouseMove (x y : Q)
  | MouseUp (x y : Q) (checked : bool)
  | ClearClick
  | UndoClick
  | RedoClick
  | StructureClick (type : string)
  | GenerateClick
  | NormalizeToggleClick (checked : bool).

Definition handle `{Cleanup} (ev : event) (st : state)
  : state * list effect :=
  match ev with
  | MouseDown x y => mousedown x y st
  | MouseMove x y => mousemove x y st
  | MouseUp x y checked => mouseup x y checked st
  | ClearClick => clear st
  | UndoClick => undo st
  | RedoClick => redo st
  | StructureClick type => structureButton type st
  | GenerateClick => generate st
  | NormalizeToggleClick checked => normalizeToggle checked st
  end.

(** The events one after the other; the effects in their order. *)
Fixpoint run `{Cleanup} (evs : list event) (st : state)
  : state * list effect :=
  match evs with
  | [] => (st, [])
  | ev :: evs' =>
      let '(st1, es1) := handle ev st in
      let '(st2, es2) := run evs' st1 in
      (st2, es1 ++ es2)
  end.

End Sketchpad.

(** * Predicates and data of the statements *)

(** ** The learner *)

Module LearnerSpec.
Import ImageLearner.

Definition sumZ (l : list Z) : Z := foldr Z.add 0 l.

Definition height (img : image) : Z := Z.of_nat (length img).

(** The width the learner uses: the length of the first row. *)
Definition width (img : image) : Z :=
  match img with
  | [] => 0
  | row0 :: _ => Z.of_nat (length row0)
  end.

(** The number of [N]x[N] windows the two loops of
    [getPatternsAndWeights] visit in one image. *)
Definition windows (N : Z) (img : image) : Z :=
  Z.max 0 (height img - N + 1) * Z.max 0 (width img - N + 1).

(** A pattern of [N] rows of [N] tiles. *)
Definition shape (N : Z) (p : pattern) : Prop :=
  length p = Z.to_nat N ∧ Forall (λ row, length row = Z.to_nat N) p.

(** Bit [j] of [A[i][k]]; [false] where the table has no such mask. *)
Definition bitOf (adj : adjacency) (i k j : nat) : bool :=
  match adj !! i with
  | Some row =>
      match row !! k with
      | Some m => Bitmask.test m j
      | None => false
      end
  | None => false
  end.

(** One row of four masks per pattern. *)
Definition adj_shape (P : nat) (adj : adjacency) : Prop :=
  length adj = P ∧ Forall (λ row, length row = 4%nat) adj.

(** What the scan keeps true: the two tables have one entry per pattern,
    the map only holds positions of the tables, every pattern is [N]x[N],
    and the weights add up to the number [c] of windows seen so far. *)
Definition scan_inv (N : Z) (s : scan) (c : Z) : Prop :=
  length (scan_patterns s) = length (scan_weights s)
  ∧ map_Forall (λ _ i, (i < length (scan_weights s))%nat) (uniquePatterns s)
  ∧ Forall (shape N) (scan_patterns s)
  ∧ sumZ (scan_weights s) = c.

(** The scan once [N < 1]: every window is the empty pattern. *)
Definition degenerate (s : scan) : Prop :=
  ∃ w, s = mkScan [[]] [w] (<["" := 0%nat]> ∅).

(** The images and patterns of the scenarios. *)
Definition stripes : image := [[0; 1; 0; 1]; [0; 1; 0; 1]; [0; 1; 0; 1]].
Definition uniform : image := [[0; 0]; [0; 0]].

Definition stripe01 : pattern := [[Some 0; Some 1]; [Some 0; Some 1]].
Definition stripe10 : pattern := [[Some 1; Some 0]; [Some 1; Some 0]].
Definition zeros : pattern := [[Some 0; Some 0]; [Some 0; Some 0]].

End LearnerSpec.

(** ** The solver *)

Module SolverSpec.
Import ConstraintSolver LearnerSpec.

(** [a] holds no pattern that [b] does not hold. *)
Definition submask (a b : Bitmask.t) : Prop :=
  ∀ i, Bitmask.test a i = true → Bitmask.test b i = true.

(** No cell of the wave is a contradiction. *)
Definition allNonempty (w : wave) : Prop :=
  Forall (Forall (λ m : Bitmask.t, m ≠ 0%N)) w.

(** [w'] has the shape of [w] and every cell of [w'] is a submask of the
    cell of [w] at the same place. *)
Definition subwave (w' w : wave) : Prop := Forall2 (Forall2 submask) w' w.

(** The masks of a wave added up as numbers: what the loops decrease. *)
Definition rowSum (row : list Bitmask.t) : Z := sumZ (Z.of_N <$> row).
Definition waveSum (w : wave) : Z := sumZ (rowSum <$> w).

(** The bounds test of [propagate]. *)
Definition inBounds (w : wave) (y x : Z) : Prop :=
  0 ≤ y ≤ Z.of_nat (length w) - 1
  ∧ ∃ row0, w !! 0%nat = Some row0 ∧ 0 ≤ x ≤ Z.of_nat (length row0) - 1.

(** The cell that direction [k] constrains from [(y1, x1)]. *)
Definition neighbour (y1 x1 : Z) (k : nat) : option position :=
  dir ← DIRECTIONS !! k; Some (y1 + - dir.1, x1 + - dir.2).

(** What a step of propagation keeps: the wave only shrinks, no cell
    becomes empty, and twice the sum of the masks plus the length of the
    queue does not grow. *)
Definition step_ok (w : wave) (q : list position) (w' : wave)
    (q' : list position) : Prop :=
  subwave w' w
  ∧ (allNonempty w → allNonempty w')
  ∧ 2 * waveSum w' + Z.of_nat (length q')
    ≤ 2 * waveSum w + Z.of_nat (length q).

(** Whether the solver is about to observe a cell that is already
    collapsed (or is no cell at all): 0 when the cell at [(y, x)] has two
    patterns or more, else 1. *)
Definition collapsed (w : wave) (y x : Z) : Z :=
  match cellAt w y x with
  | Ok cell =>
      if decide (2 ≤ length (Bitmask.toArray cell))%nat then 0 else 1
  | Throw _ => 1
  end.

(** What the scan of [getLeastEntropyUnsolvedCellPosition] keeps: the
    least entropy so far is above 0 and every listed position is a cell
    with two patterns or more. *)
Definition entropy_scan_inv (w : wave) (acc : number * list position) : Prop :=
  number_lt (Finite 0) acc.1 = true
  ∧ Forall (λ pos : position,
              ∃ cell, cellAt w pos.1 pos.2 = Ok cell
                      ∧ (2 ≤ length (Bitmask.toArray cell))%nat) acc.2.

(** The sum of the masks of a fresh wave. *)
Definition freshSum (numPatterns : nat) (width height : Z) : Z :=
  waveSum (initializeWaveMatrix numPatterns width height).

(** What every turn of the loop of [solve] decreases: the attempts that
    are left, each worth more than a whole wave, then the sum of the
    masks, then whether the cell to observe is already collapsed. *)
Definition potential (numPatterns : nat) (width height maxAttempts : Z)
    (st : state) (y x numAttempts : Z) : Z :=
  Z.max 0 (maxAttempts + 1 - numAttempts)
  * (freshSum numPatterns width height + 2)
  + waveSum (waveMatrix st)
  + collapsed (waveMatrix st) y x.

(** The sum of the weights of the patterns [ps]. *)
Definition total (weights : list Z) (ps : list nat) : Z :=
  sumZ ((λ p, default 0 (weights !! p)) <$> ps).

(** The running sum after the pattern at position [i] of [ps]. *)
Definition runningSum (weights : list Z) (ps : list nat) (i : nat) : Z :=
  total weights (take (S i) ps).

(** Propagation with a free order: any cell of the work list may be taken
    next, it is visited as [propagate] visits it, and the cells the visit
    enqueues may be put anywhere in the work list. A run ends when the
    work list is empty; a visit that creates a contradiction ends no
    run. *)
Inductive sweep (adj : adjacency) : wave → list position → wave → Prop :=
  | sweep_done w : sweep adj w [] w
  | sweep_step w q front rest w' q' q'' wf :
      q ≡ₚ front :: rest →
      dequeueAndVisit adj w front rest = Ok (false, w', q') →
      q' ≡ₚ q'' →
      sweep adj w' q'' wf →
      sweep adj w q wf.

(** The cell [c] constrains its neighbours in [F]: every neighbour in
    bounds holds only patterns that some pattern of [c] allows. *)
Definition stable (adj : adjacency) (F : wave) (c : position) : Prop :=
  ∃ cell1,
    cellAt F c.1 c.2 = Ok cell1
    ∧ ∀ k y2 x2,
        k ∈ seq 0 (length DIRECTIONS) →
        neighbour c.1 c.2 k = Some (y2, x2) →
        inBounds F y2 x2 →
        ∃ cell2 M,
          cellAt F y2 x2 = Ok cell2
          ∧ unionOfAdjacent adj k (Bitmask.toArray cell1) = Ok M
          ∧ submask cell2 M.

(** A wave of the solver: the grid of the fresh wave, every cell a
    submask of the full mask and none empty. *)
Definition good (numPatterns : nat) (width height : Z) (w : wave) : Prop :=
  subwave w (initializeWaveMatrix numPatterns width height) ∧ allNonempty w.

End SolverSpec.

(** ** Propagation in any order *)

Module OrderSpec.
Import ConstraintSolver LearnerSpec SolverSpec.

(** [n] turns of propagation with a free order, none of which creates a
    contradiction, from the wave [w] with the work list [q] to the wave
    [w'] with the work list [q']: at every turn any cell of the work list
    may be taken, and the work list may be put in any order. *)
Inductive turns (adj : adjacency)
  : nat → wave → list position → wave → list position → Prop :=
  | turns_O w q q' : q ≡ₚ q' → turns adj 0 w q w q'
  | turns_S n w q front rest w1 q1 w' q' :
      q ≡ₚ front :: rest →
      dequeueAndVisit adj w front rest = Ok (false, w1, q1) →
      turns adj n w1 q1 w' q' →
      turns adj (S n) w q w' q'.

(** The wave [F] is what a run from the wave [w] with the work list [q]
    can still reach: it is below [w] without an empty mask, and the cells
    of the work list and the cells in which it differs from [w] constrain
    their neighbours in it. *)
Definition reachable (adj : adjacency) (F w : wave) (q : list position)
  : Prop :=
  subwave F w
  ∧ allNonempty F
  ∧ (∀ p, p ∈ q → stable adj F p)
  ∧ ∀ y x cw cF,
      cellAt w y x = Ok cw → cellAt F y x = Ok cF → cF ≠ cw →
      stable adj F (y, x).

(** A wave of the solver with a work list of cells of the wave. *)
Definition valid (numPatterns : nat) (width height : Z) (w : wave)
    (q : list position) : Prop :=
  good numPatterns width height w
  ∧ ∀ p, p ∈ q → ∃ c, cellAt w p.1 p.2 = Ok c.

End OrderSpec.

(** ** Further predicates of the statements *)

Module WindowSpec.
Import ImageLearner LearnerSpec.

(** The tile of an image at row [y], column [x]; [None] outside. *)
Definition pixelAt (img : image) (y x : Z) : tile :=
  row ← at_index img y; at_index row x.

(** The tile of a pattern at row [y], column [x]; [None] outside. *)
Definition tileAt (p : pattern) (y x : Z) : tile :=
  row ← at_index p y; mjoin (at_index row x).

(** The windows that the loops of [getPatternsAndWeights] read in one
    image, in the order of the loops. *)
Definition windowsOf (N : Z) (img : image) : list pattern :=
  y ← seqZ 0 (height img - N + 1);
  x ← seqZ 0 (width img - N + 1);
  match getPattern img N y x with
  | Ok p => [p]
  | Throw _ => []
  end.

Definition allWindows (images : list image) (N : Z) : list pattern :=
  img ← images; windowsOf N img.

(** How many of the windows [ws] are the pattern [p]. *)
Definition occurrences (p : pattern) (ws : list pattern) : Z :=
  Z.of_nat (length (filter (p =.) ws)).

(** The separator of [Array.prototype.toString]. *)
Definition comma : Ascii.ascii := Ascii.ascii_of_nat 44.

(** No comma in a string. *)
Fixpoint commaFree (s : string) : bool :=
  match s with
  | EmptyString => true
  | String a s' => negb (Ascii.eqb a comma) && commaFree s'
  end.

(** What the scan keeps true of the windows [seen] so far: the patterns are
    the windows seen, each once, the map sends the key of each pattern to
    its position, and each weight counts the windows equal to its
    pattern. *)
Definition scan_counts (N : Z) (s : scan) (seen : list pattern) : Prop :=
  length (scan_patterns s) = length (scan_weights s)
  ∧ Forall (shape N) (scan_patterns s)
  ∧ (∀ key i, uniquePatterns s !! key = Some i ↔
       ∃ p, scan_patterns s !! i = Some p ∧ toString p = key)
  ∧ NoDup (scan_patterns s)
  ∧ (∀ p, p ∈ scan_patterns s ↔ p ∈ seen)
  ∧ (∀ i p, scan_patterns s !! i = Some p →
       scan_weights s !! i = Some (occurrences p seen)).

End WindowSpec.

Module AdjacencySpec.
Import ImageLearner LearnerSpec WindowSpec.

(** The cells [(y, x)] of an [N]x[N] pattern whose shift by [dir] is again a
    cell of an [N]x[N] pattern. *)
Definition overlap (N : Z) (dir : Z * Z) (y x : Z) : Prop :=
  (0 ≤ y < N ∧ 0 ≤ x < N) ∧ 0 ≤ y + dir.1 < N ∧ 0 ≤ x + dir.2 < N.

(** The two patterns hold the same tiles where [p1] and [p2] shifted by
    [dir] lie over each other. *)
Definition agree (N : Z) (p1 p2 : pattern) (dir : Z * Z) : Prop :=
  ∀ y x, overlap N dir y x → tileAt p1 y x = tileAt p2 (y + dir.1) (x + dir.2).

(** [isAdjacent] answers [true] for the patterns [i] and [j] in direction
    [k]. *)
Definition compatible (ps : list pattern) (i j k : nat) : Prop :=
  ∃ p1 p2 dir,
    ps !! i = Some p1 ∧ ps !! j = Some p2 ∧ DIRECTIONS !! k = Some dir
    ∧ isAdjacent p1 p2 dir = Ok true.

(** What the loops of [getAdjacencies] keep true of the triples [done]
    they have been through: the bits that are set are those of the
    compatible triples, in both directions. *)
Definition table_inv (ps : list pattern) (a : adjacency)
    (done : list (nat * nat * nat)) : Prop :=
  ∀ i' k' j',
    bitOf a i' k' j' = true ↔
    ∃ i j k, (i, j, k) ∈ done ∧ compatible ps i j k
             ∧ ((i', k', j') = (i, k, j)
                ∨ ∃ o, oppositeDirIndex k = Some o ∧ (i', k', j') = (j, o, i)).

End AdjacencySpec.

Module OutputSpec.
Import ConstraintSolver LearnerSpec SolverSpec.

(** The mask [initializeWaveMatrix] gives every cell: all [P] patterns. *)
Definition fullMask (P : nat) : Bitmask.t :=
  foldl Bitmask.setBit (Bitmask.new P) (seq 0 P).

(** Every cell that no longer holds all patterns constrains its
    neighbours. *)
Definition settled (adj : adjacency) (P : nat) (w : wave) : Prop :=
  ∀ y x c, cellAt w y x = Ok c → c ≠ fullMask P → stable adj w (y, x).

(** The entropy [getLeastEntropyUnsolvedCellPosition] computes for the cell
    at [pos]. *)
Definition entropyAt (entropyOf : list (option Z) → number) (w : wave)
    (weights : list Z) (pos : position) : result number :=
  cell ← cellAt w pos.1 pos.2;
  getShannonEntropy entropyOf cell weights.

(** [0 < e] on numbers. *)
Definition positive (e : number) : Prop := number_lt (Finite 0) e = true.

(** The entropies of the call: for the weights of the call and every
    mask of two or more of its [P] patterns, the number that
    [getShannonEntropy] computes is above 0, as the real number it
    approximates is. *)
Definition entropy_positive (entropyOf : list (option Z) → number)
    (weights : list Z) (P : nat) : Prop :=
  ∀ c : Bitmask.t,
    submask c (fullMask P) → (2 ≤ length (Bitmask.toArray c))%nat →
    positive (entropyOf ((λ i, weights !! i) <$> Bitmask.toArray c)).

(** Whether the entropy of the cell at [pos] is the number [least]. *)
Definition tiesWith (entropyOf : list (option Z) → number) (w : wave)
    (weights : list Z) (least : number) (pos : position) : bool :=
  match entropyAt entropyOf w weights pos with
  | Ok e => number_eq e least
  | Throw _ => false
  end.

(** What the scan of [getLeastEntropyUnsolvedCellPosition] keeps true of
    the cells [seen] so far: the least entropy is above 0, it is still
    [Infinity] as long as no cell is listed, the listed cells are the cells
    seen whose entropy equals the least, in the order of the scan, every
    cell seen has an entropy, and none has an entropy above 0 and below the
    least. *)
Definition least_inv (entropyOf : list (option Z) → number) (w : wave)
    (weights : list Z) (acc : number * list position)
    (seen : list position) : Prop :=
  positive acc.1
  ∧ (acc.2 = [] → acc.1 = PosInfinity)
  ∧ acc.2 = List.filter (tiesWith entropyOf w weights acc.1) seen
  ∧ ∀ pos, pos ∈ seen →
      ∃ e, entropyAt entropyOf w weights pos = Ok e
           ∧ (positive e → number_lt e acc.1 = false).

End OutputSpec.

(** ** The sketchpad *)

Module SketchpadSpec.
Import Sketchpad.

(** The strokes in the order they would be drawn if every undone stroke
    were redone: the display list, then the redo list from its top. *)
Definition timeline (st : state) : list displayable :=
  displayList st ++ reverse (redoDisplayList st).

(** The line objects of the strokes of both lists. *)
Definition strokeRefs (st : state) : list nat :=
  line_ref <$> (displayList st ++ redoDisplayList st).

(** What the handlers keep true: [workingLine] and every stroke refer to a
    line of the store, and no two strokes refer to the same line. *)
Definition wellFormed (st : state) : Prop :=
  (workingLine st < length (lines st))%nat
  ∧ Forall (λ r, (r < length (lines st))%nat) (strokeRefs st)
  ∧ NoDup (strokeRefs st).

(** The mouse moved through the points [pts]. *)
Definition moves (pts : list point) : list event :=
  (λ p, MouseMove p.1 p.2) <$> pts.

End SketchpadSpec.

(** * Properties of the learner *)

Lemma bind_Ok {A B} (a : A) (k : A → result B) : Ok a ≫= k = k a.
Proof. done. Qed.

Lemma bind_Throw {A B} (e : exn) (k : A → result B) : Throw e ≫= k = Throw e.
Proof. done. Qed.

Section FoldM.
Context {A S : Type}.
Implicit Types (f : A → S → result S) (l : list A) (s : S).

Lemma foldM_app f l1 l2 s :
  foldM f (l1 ++ l2) s = (s' ← foldM f l1 s; foldM f l2 s').
Proof.
  revert s. induction l1 as [|a l1 IH]; intros s; simpl; [done|].
  destruct (f a s) as [s1|e]; simpl; [apply IH|done].
Qed.

(** Partial correctness: an invariant every successful step keeps holds at
    the end of a successful loop. *)
Lemma foldM_inv (I : S → Prop) f l s s' :
  (∀ a s1 s2, a ∈ l → I s1 → f a s1 = Ok s2 → I s2) →
  I s → foldM f l s = Ok s' → I s'.
Proof.
  revert s. induction l as [|a l IH]; intros s Hstep Hs Hrun; simpl in Hrun.
  - by simplify_eq.
  - destruct (f a s) as [s1|e] eqn:Hf; simpl in Hrun; [|done].
    apply (IH s1); [|by eapply Hstep; [left|..]|done].
    intros a' t1 t2 Ha'. apply Hstep. by right.
Qed.

(** Total correctness with a counter: when every step succeeds, keeps the
    invariant and adds its cost, so does the loop. *)
Lemma foldM_total (I : S → Z → Prop) (cost : A → Z) f l :
  (∀ a s c, a ∈ l → I s c → ∃ s', f a s = Ok s' ∧ I s' (c + cost a)) →
  ∀ s c, I s c →
    ∃ s', foldM f l s = Ok s' ∧ I s' (c + foldr Z.add 0 (cost <$> l)).
Proof.
  induction l as [|a l IH]; intros Hstep s c Hs; simpl.
  - exists s. by rewrite Z.add_0_r.
  - destruct (Hstep a s c) as (s1 & -> & Hs1); [by left|done|]. simpl.
    destruct (IH (λ a' t d Ha', Hstep a' t d (list_elem_of_further _ _ _ Ha'))
                s1 (c + cost a) Hs1) as (s2 & -> & Hs2).
    exists s2. split; [done|]. by rewrite Z.add_assoc.
Qed.
End FoldM.

Module LearnerFacts.
Import ImageLearner LearnerSpec.

Lemma sumZ_app l1 l2 : sumZ (l1 ++ l2) = sumZ l1 + sumZ l2.
Proof. induction l1 as [|a l1 IH]; simpl; [done|]. rewrite IH. lia. Qed.

Lemma sumZ_alter_succ (l : list Z) (i : nat) :
  (i < length l)%nat → sumZ (alter Z.succ i l) = sumZ l + 1.
Proof.
  revert i. induction l as [|a l IH]; intros [|i] Hi; simpl in Hi; try lia.
  - unfold sumZ. simpl. lia.
  - specialize (IH i ltac:(lia)). unfold sumZ in *. simpl.
    change (list_alter Z.succ i l) with (alter Z.succ i l). lia.
Qed.

Lemma sumZ_const {A} (m : Z) (l : list A) :
  sumZ ((λ _, m) <$> l) = m * Z.of_nat (length l).
Proof.
  induction l as [|a l IH]; [simpl; lia|].
  rewrite fmap_cons. unfold sumZ in *. rewrite foldr_cons, IH.
  rewrite length_cons. lia.
Qed.

(** *** [getPattern] *)

Lemma at_index_Some {A} (l : list A) (i : Z) :
  0 ≤ i < Z.of_nat (length l) → ∃ a, at_index l i = Some a.
Proof.
  intros Hi. unfold at_index. case_decide; [lia|].
  apply lookup_lt_is_Some. lia.
Qed.

Lemma getPattern_rows (img : image) (N y x : Z) (rows : list Z) acc :
  (∀ ny, ny ∈ rows → 0 ≤ y + ny < height img) →
  ∃ p, foldM (λ ny pat,
                row ← defined (at_index img (y + ny));
                Ok (pat ++ [(λ nx, at_index row (x + nx)) <$> seqZ 0 N]))
             rows acc = Ok (acc ++ p)
       ∧ length p = length rows
       ∧ Forall (λ row, length row = Z.to_nat N) p.
Proof.
  revert acc. induction rows as [|ny rows IH]; intros acc Hin; simpl.
  - exists []. by rewrite app_nil_r.
  - destruct (at_index_Some img (y + ny)) as [row ->].
    { apply Hin. by left. }
    simpl.
    destruct (IH (acc ++ [(λ nx, at_index row (x + nx)) <$> seqZ 0 N]))
      as (p & -> & Hlen & Hrows).
    { intros ny' Hny'. apply Hin. by right. }
    eexists (_ :: p). rewrite <- app_assoc. split; [done|]. split.
    + simpl. by rewrite Hlen.
    + constructor; [|done]. by rewrite length_fmap, length_seqZ.
Qed.

Lemma getPattern_ok (img : image) (N y x : Z) :
  0 ≤ y → y + N ≤ height img ∨ N ≤ 0 →
  ∃ p, getPattern img N y x = Ok p ∧ shape N p.
Proof.
  intros Hy HN. unfold getPattern.
  destruct (getPattern_rows img N y x (seqZ 0 N) []) as (p & Hp & Hlen & Hrows).
  { intros ny Hny%elem_of_seqZ. lia. }
  exists p. split; [done|]. split; [|done].
  etrans; [apply Hlen|]. apply length_seqZ.
Qed.

(** *** [getPatternsAndWeights] *)

Lemma scanWindow_ok (img : image) (N y x : Z) (s : scan) (c : Z) :
  0 ≤ y → y + N ≤ height img ∨ N ≤ 0 →
  scan_inv N s c →
  ∃ s', scanWindow img N y x s = Ok s' ∧ scan_inv N s' (c + 1).
Proof.
  intros Hy HN (Hlen & Hmap & Hshape & Hsum). unfold scanWindow.
  destruct (getPattern_ok img N y x) as (p & -> & Hp); [done..|]. simpl.
  destruct (uniquePatterns s !! toString p) as [i|] eqn:Hi.
  - eexists. split; [done|]. repeat split; simpl.
    + by rewrite length_alter.
    + intros key j Hj. rewrite length_alter. by eapply Hmap.
    + done.
    + rewrite sumZ_alter_succ; [lia|]. by eapply Hmap.
  - eexists. split; [done|]. repeat split; simpl.
    + rewrite !length_app. simpl. lia.
    + intros key j. rewrite lookup_insert. case_decide.
      * intros [= <-]. rewrite !length_app. simpl. lia.
      * intros Hj. specialize (Hmap key j Hj). simpl in Hmap.
        rewrite length_app. lia.
    + apply Forall_app. split; [done|]. by constructor.
    + rewrite sumZ_app. simpl. lia.
Qed.

Lemma scanRow_ok (img : image) (N y : Z) (s : scan) (c : Z) :
  0 ≤ y → y + N ≤ height img ∨ N ≤ 0 → img ≠ [] →
  scan_inv N s c →
  ∃ s', scanRow img N y s = Ok s'
        ∧ scan_inv N s' (c + Z.max 0 (width img - N + 1)).
Proof.
  intros Hy HN Himg Hs. unfold scanRow.
  destruct img as [|row0 img']; [done|]. simpl.
  destruct (foldM_total (scan_inv N) (λ _, 1) (scanWindow (row0 :: img') N y)
              (seqZ 0 (Z.of_nat (length row0) - N + 1))) with (s := s) (c := c)
    as (s' & -> & Hs'); [|done|].
  { intros x t d _ Ht. by apply scanWindow_ok. }
  exists s'. split; [done|].
  fold (sumZ ((λ _, 1) <$> seqZ 0 (Z.of_nat (length row0) - N + 1))) in Hs'.
  rewrite sumZ_const, length_seqZ, Z.mul_1_l in Hs'.
  unfold width.
  by replace (Z.max 0 (Z.of_nat (length row0) - N + 1))
    with (Z.of_nat (Z.to_nat (Z.of_nat (length row0) - N + 1))) by lia.
Qed.

Lemma scanImage_ok (N : Z) (img : image) (s : scan) (c : Z) :
  1 ≤ N ∨ img ≠ [] →
  scan_inv N s c →
  ∃ s', scanImage N img s = Ok s' ∧ scan_inv N s' (c + windows N img).
Proof.
  intros HN Hs. unfold scanImage.
  destruct (foldM_total (scan_inv N) (λ _, Z.max 0 (width img - N + 1))
              (scanRow img N) (seqZ 0 (Z.of_nat (length img) - N + 1)))
    with (s := s) (c := c) as (s' & -> & Hs'); [|done|].
  { intros y t d Hy%elem_of_seqZ Ht.
    apply scanRow_ok; unfold height; [lia|lia| |done].
    destruct img; [|done]. destruct HN; [simpl in Hy; lia|done]. }
  exists s'. split; [done|].
  replace (windows N img) with
    (sumZ ((λ _ : Z, Z.max 0 (width img - N + 1))
             <$> seqZ 0 (Z.of_nat (length img) - N + 1))); [done|].
  rewrite sumZ_const, length_seqZ. unfold windows, height. lia.
Qed.

Lemma getPatternsAndWeights_ok (images : list image) (N : Z) :
  (∀ img, img ∈ images → 1 ≤ N ∨ img ≠ []) →
  ∃ s, getPatternsAndWeights images N = Ok s
       ∧ scan_inv N s (sumZ (windows N <$> images)).
Proof.
  intros HN. unfold getPatternsAndWeights.
  destruct (foldM_total (scan_inv N) (windows N) (scanImage N) images)
    with (s := mkScan [] [] ∅) (c := 0) as (s & -> & Hs).
  - intros img t d Himg Ht. apply scanImage_ok; auto.
  - repeat split; simpl; [apply map_Forall_empty|constructor].
  - by exists s.
Qed.

(** *** [isAdjacent] *)

Lemma overlapMatches_total (p1 p2 : pattern) (dy dx : Z) cells :
  (∀ y x, (y, x) ∈ cells →
     0 ≤ y < Z.of_nat (length p1) ∧ 0 ≤ y + dy < Z.of_nat (length p2)) →
  ∃ b, overlapMatches p1 p2 dy dx cells = Ok b.
Proof.
  induction cells as [|[y x] cells IH]; intros Hin; simpl; [by eexists|].
  destruct (Hin y x) as [H1 H2]; [apply list_elem_of_here|].
  destruct (at_index_Some p1 y H1) as [r1 ->].
  destruct (at_index_Some p2 (y + dy) H2) as [r2 ->]. simpl.
  case_decide; [|by eexists].
  apply IH. intros y' x' Hyx. apply (Hin y' x').
  by apply list_elem_of_further.
Qed.

Lemma isAdjacent_total (N : Z) (p1 p2 : pattern) (dir : Z * Z) :
  1 ≤ N → shape N p1 → shape N p2 → dir ∈ DIRECTIONS →
  ∃ b, isAdjacent p1 p2 dir = Ok b.
Proof.
  intros HN [Hl1 _] [Hl2 _] Hdir. unfold isAdjacent.
  destruct p1 as [|row0 p1']; [simpl in Hl1; lia|].
  destruct dir as [dy dx].
  assert (Hcases : (dy, dx) = (-1, 0) ∨ (dy, dx) = (1, 0)
                   ∨ (dy, dx) = (0, -1) ∨ (dy, dx) = (0, 1)).
  { unfold DIRECTIONS in Hdir. rewrite !elem_of_cons, elem_of_nil in Hdir.
    tauto. }
  clear Hdir.
  destruct Hcases as [?|[?|[?|?]]]; simplify_eq; simpl;
    apply overlapMatches_total; intros y x Hyx;
    apply list_elem_of_bind in Hyx as (y' & Hx & Hy);
    apply list_elem_of_bind in Hx as (x' & Heq & Hx);
    apply list_elem_of_singleton in Heq; simplify_eq;
    unfold range in *; apply elem_of_seqZ in Hy;
    rewrite Hl2; simpl length in *; lia.
Qed.

(** *** [getAdjacencies] *)

Lemma oppositeDirIndex_lt (k o : nat) :
  oppositeDirIndex k = Some o → (k < 4)%nat ∧ (o < 4)%nat.
Proof.
  destruct k as [|[|[|[|k]]]]; simpl; intros [= <-]; lia.
Qed.

Lemma oppositeDirIndex_involutive (k o : nat) :
  oppositeDirIndex k = Some o → oppositeDirIndex o = Some k.
Proof.
  destruct k as [|[|[|[|k]]]]; simpl; by intros [= <-].
Qed.

Lemma oppositeDirIndex_total (k : nat) :
  (k < 4)%nat → ∃ o, oppositeDirIndex k = Some o.
Proof.
  destruct k as [|[|[|[|k]]]]; simpl; intros Hk;
    first [by eexists|lia].
Qed.

Lemma elem_of_pairs (P i j : nat) :
  (i, j) ∈ pairs P → (i < j < P)%nat.
Proof.
  unfold pairs. intros (i' & Hj & Hi)%list_elem_of_bind.
  apply list_elem_of_bind in Hj as (j' & Heq & Hj).
  apply list_elem_of_singleton in Heq. simplify_eq.
  apply elem_of_seq in Hi, Hj. lia.
Qed.

Lemma emptyAdjacencies_shape (P : nat) : adj_shape P (emptyAdjacencies P).
Proof.
  unfold emptyAdjacencies. split; [by rewrite length_replicate|].
  apply Forall_forall. intros row Hrow%elem_of_replicate_inv. by subst.
Qed.

Lemma setBitAt_total (P : nat) (adj : adjacency) (i k j : nat) :
  adj_shape P adj → (i < P)%nat → (k < 4)%nat →
  ∃ adj', setBitAt adj i k j = Ok adj'.
Proof.
  intros [Hlen Hrows] Hi Hk. unfold setBitAt.
  destruct (lookup_lt_is_Some_2 adj i) as [row Hrow]; [lia|].
  rewrite Hrow. simpl.
  destruct (lookup_lt_is_Some_2 row k) as [m Hm].
  { rewrite Forall_forall in Hrows. rewrite (Hrows row); [done|].
    by eapply list_elem_of_lookup_2. }
  rewrite Hm. simpl. by eexists.
Qed.

Lemma setBitAt_shape (P : nat) (adj adj' : adjacency) (i k j : nat) :
  setBitAt adj i k j = Ok adj' → adj_shape P adj → adj_shape P adj'.
Proof.
  unfold setBitAt. intros Hset [Hlen Hrows].
  destruct (adj !! i) as [row|] eqn:Hrow; simpl in Hset; [|done].
  destruct (row !! k) as [m|] eqn:Hm; simpl in Hset; [|done].
  simplify_eq. split; [by rewrite length_insert|].
  apply Forall_insert; [done|]. rewrite length_insert.
  rewrite Forall_forall in Hrows. apply Hrows.
  by eapply list_elem_of_lookup_2.
Qed.

Lemma test_setBit (m : Bitmask.t) (j j' : nat) :
  Bitmask.test (Bitmask.setBit m j) j'
  = bool_decide (j' = j) || Bitmask.test m j'.
Proof.
  unfold Bitmask.test, Bitmask.setBit. rewrite N.setbit_eqb.
  f_equal. case_bool_decide; [subst; apply N.eqb_refl|].
  apply N.eqb_neq. lia.
Qed.

Lemma bitOf_setBitAt (adj adj' : adjacency) (i k j i' k' j' : nat) :
  setBitAt adj i k j = Ok adj' →
  bitOf adj' i' k' j'
  = bool_decide (i' = i ∧ k' = k ∧ j' = j) || bitOf adj i' k' j'.
Proof.
  unfold setBitAt. intros Hset.
  destruct (adj !! i) as [row|] eqn:Hrow; simpl in Hset; [|done].
  destruct (row !! k) as [m|] eqn:Hm; simpl in Hset; [|done].
  simplify_eq. unfold bitOf.
  destruct (decide (i' = i)) as [->|Hi].
  - rewrite list_lookup_insert_eq by by eapply lookup_lt_Some.
    rewrite Hrow.
    destruct (decide (k' = k)) as [->|Hk].
    + rewrite list_lookup_insert_eq by by eapply lookup_lt_Some.
      rewrite Hm, test_setBit.
      f_equal. apply bool_decide_ext. tauto.
    + rewrite list_lookup_insert_ne by done.
      rewrite bool_decide_eq_false_2 by tauto. done.
  - rewrite list_lookup_insert_ne by done.
    rewrite bool_decide_eq_false_2 by tauto. done.
Qed.

(** What one run of the innermost loop body does to the table. *)
Lemma checkPair_cases ps (i j k : nat) (adj adj' : adjacency) :
  checkPair ps i j k adj = Ok adj' →
  adj' = adj
  ∨ ∃ o adj1, oppositeDirIndex k = Some o
              ∧ setBitAt adj i k j = Ok adj1
              ∧ setBitAt adj1 j o i = Ok adj'.
Proof.
  unfold checkPair. intros H.
  destruct (ps !! i) as [p1|]; simpl in H; [|done].
  destruct (ps !! j) as [p2|]; simpl in H; [|done].
  destruct (DIRECTIONS !! k) as [dir|]; simpl in H; [|done].
  destruct (isAdjacent p1 p2 dir) as [[|]|]; simpl in H; [| |done].
  - right. destruct (oppositeDirIndex k) as [o|].
    + destruct (setBitAt adj i k j) as [adj1|] eqn:H1; simpl in H; [|done].
      by exists o, adj1.
    + by destruct (setBitAt adj i k j).
  - left. by simplify_eq.
Qed.

(** An invariant of the table that the two [setBit] calls of a compatible
    pair keep holds of the table [getAdjacencies] returns. *)
Lemma getAdjacencies_inv (I : adjacency → Prop) ps adj :
  I (emptyAdjacencies (length ps)) →
  (∀ a a1 a2 i j k o,
     (i < j < length ps)%nat → oppositeDirIndex k = Some o → I a →
     setBitAt a i k j = Ok a1 → setBitAt a1 j o i = Ok a2 → I a2) →
  getAdjacencies ps = Ok adj → I adj.
Proof.
  intros Hinit Hstep. unfold getAdjacencies.
  apply foldM_inv; [|done].
  intros [i j] a1 a2 Hij%elem_of_pairs Ha1. cbn [fst snd].
  apply foldM_inv; [|done].
  intros k b1 b2 _ Hb1 [->|(o & b & Ho & Hs1 & Hs2)]%checkPair_cases; [done|].
  by eapply Hstep.
Qed.

Lemma getAdjacencies_shape ps adj :
  getAdjacencies ps = Ok adj → adj_shape (length ps) adj.
Proof.
  apply getAdjacencies_inv; [apply emptyAdjacencies_shape|].
  intros a a1 a2 i j k o _ _ Ha H1 H2.
  eapply setBitAt_shape; [exact H2|]. by eapply setBitAt_shape.
Qed.

Lemma bitOf_empty (P i k j : nat) : bitOf (emptyAdjacencies P) i k j = false.
Proof.
  unfold bitOf, emptyAdjacencies.
  destruct (replicate P _ !! i) as [row|] eqn:Hrow; [|done].
  apply lookup_replicate in Hrow as [-> _].
  destruct (replicate 4 _ !! k) as [m|] eqn:Hm; [|done].
  apply lookup_replicate in Hm as [-> _].
  unfold Bitmask.test, Bitmask.new. apply N.bits_0.
Qed.

(** Symmetry of the table, for every direction and its opposite. *)
Lemma getAdjacencies_symmetric ps adj :
  getAdjacencies ps = Ok adj →
  ∀ i j k o, oppositeDirIndex k = Some o →
    bitOf adj i k j = bitOf adj j o i.
Proof.
  apply (getAdjacencies_inv (λ a, ∀ i j k o, oppositeDirIndex k = Some o →
                                    bitOf a i k j = bitOf a j o i)).
  - intros i j k o _. by rewrite !bitOf_empty.
  - intros a a1 a2 i j k o _ Ho Ha H1 H2 i' j' k' o' Ho'.
    rewrite !(bitOf_setBitAt _ _ _ _ _ _ _ _ H2).
    rewrite !(bitOf_setBitAt _ _ _ _ _ _ _ _ H1).
    rewrite (Ha i' j' k' o' Ho').
    pose proof (oppositeDirIndex_involutive _ _ Ho).
    pose proof (oppositeDirIndex_involutive _ _ Ho').
    rewrite (bool_decide_ext (i' = j ∧ k' = o ∧ j' = i)
                             (j' = i ∧ o' = k ∧ i' = j))
      by (split; intros (? & ? & ?); subst; repeat split; congruence).
    rewrite (bool_decide_ext (i' = i ∧ k' = k ∧ j' = j)
                             (j' = j ∧ o' = o ∧ i' = i))
      by (split; intros (? & ? & ?); subst; repeat split; congruence).
    by destruct (bool_decide _), (bool_decide _), (bitOf a j' o' i').
Qed.

(** No pattern is ever recorded as adjacent to itself: the pairs the loops
    visit have [i < j]. *)
Lemma getAdjacencies_irreflexive ps adj :
  getAdjacencies ps = Ok adj → ∀ i k, bitOf adj i k i = false.
Proof.
  apply (getAdjacencies_inv (λ a, ∀ i k, bitOf a i k i = false)).
  - intros i k. apply bitOf_empty.
  - intros a a1 a2 i j k o Hij _ Ha H1 H2 i' k'.
    rewrite (bitOf_setBitAt _ _ _ _ _ _ _ _ H2).
    rewrite (bitOf_setBitAt _ _ _ _ _ _ _ _ H1), Ha.
    rewrite !bool_decide_eq_false_2 by lia. done.
Qed.

Lemma getAdjacencies_total (N : Z) ps :
  1 ≤ N → Forall (shape N) ps → ∃ adj, getAdjacencies ps = Ok adj.
Proof.
  intros HN Hps. unfold getAdjacencies.
  destruct (foldM_total (λ a _, adj_shape (length ps) a) (λ _, 0)
              (λ (ij : nat * nat) a,
                 foldM (checkPair ps ij.1 ij.2) (seq 0 (length DIRECTIONS)) a)
              (pairs (length ps)))
    with (s := emptyAdjacencies (length ps)) (c := 0) as (adj & -> & _).
  all: swap 1 3. 1: by eexists. 1: apply emptyAdjacencies_shape.
  intros [i j] a c Hij%elem_of_pairs Ha. cbn [fst snd].
  apply (foldM_total (λ a _, adj_shape (length ps) a) (λ _, 0))
    with (c := 0); [|done].
  clear a c Ha. intros k a c Hk%elem_of_seq Ha. simpl in Hk.
  unfold checkPair.
  destruct (lookup_lt_is_Some_2 ps i) as [p1 Hp1]; [lia|].
  destruct (lookup_lt_is_Some_2 ps j) as [p2 Hp2]; [lia|].
  destruct (lookup_lt_is_Some_2 DIRECTIONS k) as [dir Hdir]; [simpl; lia|].
  rewrite Hp1, Hp2, Hdir. simpl.
  rewrite Forall_forall in Hps.
  destruct (isAdjacent_total N p1 p2 dir) as [b ->]; [done|..].
  { apply Hps. by eapply list_elem_of_lookup_2. }
  { apply Hps. by eapply list_elem_of_lookup_2. }
  { by eapply list_elem_of_lookup_2. }
  simpl. destruct b; [|by exists a].
  destruct (oppositeDirIndex_total k) as [o Ho]; [lia|]. rewrite Ho.
  apply oppositeDirIndex_lt in Ho as [_ Ho].
  destruct (setBitAt_total (length ps) a i k j) as [a1 H1]; [done|lia|lia|].
  rewrite H1. simpl.
  destruct (setBitAt_total (length ps) a1 j o i) as [a2 H2];
    [by eapply setBitAt_shape|lia|lia|].
  exists a2. split; [done|].
  eapply setBitAt_shape; [exact H2|]. by eapply setBitAt_shape.
Qed.

End LearnerFacts.

Import ImageLearner LearnerSpec LearnerFacts.

(** ** The learner on the scenarios of the specification *)

(** C1, at the input of scenario S1. [learn] on the single image
    [[0,0],[0,0]] with N = 2 finds the one pattern with weight 1, and that
    pattern overlaps itself in all four directions ([isAdjacent] answers
    [true]), but all four masks [A[0][d]] are empty: the loops of
    [getAdjacencies] only visit pairs [i < j], so the pattern is never tested
    against itself and bit 0 is never set. *)
Theorem learn_uniform_no_self_adjacency :
  learn [uniform] 2 = Ok (mk [zeros] [1] [[0; 0; 0; 0]%N])
  ∧ (∀ dir, dir ∈ DIRECTIONS → isAdjacent zeros zeros dir = Ok true)
  ∧ (∀ k, bitOf [[0; 0; 0; 0]%N] 0 k 0 = false).
Proof.
  split; [by vm_compute|]. split.
  - intros dir Hdir. unfold DIRECTIONS in Hdir.
    rewrite !elem_of_cons, elem_of_nil in Hdir.
    destruct Hdir as [->|[->|[->|[->|[]]]]]; by vm_compute.
  - intros [|[|[|[|k]]]]; by vm_compute.
Qed.

(** No learned model records a pattern as adjacent to itself, in any
    direction. *)
Lemma learn_never_self_adjacent (images : list image) (N : Z) (m : t) :
  learn images N = Ok m → ∀ i k, bitOf (adjacencies m) i k i = false.
Proof.
  unfold learn. intros H.
  destruct (getPatternsAndWeights images N) as [s|]; simpl in H; [|done].
  destruct (getAdjacencies (scan_patterns s)) as [adj|] eqn:Hadj;
    simpl in H; [|done].
  simplify_eq. simpl. by eapply getAdjacencies_irreflexive.
Qed.

(** C3, as the code has it: [learn] on the stripes image with N = 2 finds
    the two patterns [[0,1],[0,1]] and [[1,0],[1,0]] in that order, with
    weights [4, 2]: the six windows are scanned row by row and the first
    pattern occurs at x = 0 and x = 2 of both rows. *)
Theorem learn_stripes :
  learn [stripes] 2
  = Ok (mk [stripe01; stripe10] [4; 2] [[0; 0; 2; 2]%N; [0; 0; 1; 1]%N]).
Proof. by vm_compute. Qed.

(** C3 as stated fails: the weights are not [3, 2]. *)
Lemma learn_stripes_weights_not_3_2 :
  ¬ ∃ m, learn [stripes] 2 = Ok m
         ∧ patterns m = [stripe01; stripe10] ∧ weights m = [3; 2].
Proof.
  intros (m & Hm & _ & Hw). vm_compute in Hm.
  by simplify_eq.
Qed.

(** ** Weights *)

Lemma learn_total (images : list image) (N : Z) :
  1 ≤ N →
  ∃ m, learn images N = Ok m
       ∧ sumZ (weights m) = sumZ (windows N <$> images)
       ∧ Forall (shape N) (patterns m)
       ∧ length (weights m) = length (patterns m).
Proof.
  intros HN. unfold learn.
  destruct (getPatternsAndWeights_ok images N)
    as (s & -> & Hlen & _ & Hshape & Hsum); [by left|]. simpl.
  destruct (getAdjacencies_total N (scan_patterns s)) as [adj ->]; [done..|].
  simpl. by eexists.
Qed.

(** C4. For [N >= 1] and images of at least [N] rows whose first row has at
    least [N] tiles, [learn] returns a model whose weights add up to the
    number of windows, the sum over the images of
    [(H - N + 1) * (W - N + 1)]. *)
Theorem weight_conservation (images : list image) (N : Z) :
  1 ≤ N →
  Forall (λ img, N ≤ height img ∧ N ≤ width img) images →
  ∃ m, learn images N = Ok m
       ∧ sumZ (weights m)
         = sumZ ((λ img, (height img - N + 1) * (width img - N + 1))
                   <$> images).
Proof.
  intros HN Hvalid.
  destruct (learn_total images N HN) as (m & Hm & Hsum & _).
  exists m. split; [done|]. rewrite Hsum. f_equal.
  apply Forall_fmap_ext. eapply Forall_impl; [exact Hvalid|].
  intros img [Hh Hw]. unfold windows. lia.
Qed.

Lemma weight_conservation_witness :
  ∃ m, learn [stripes] 2 = Ok m
       ∧ sumZ (weights m)
         = sumZ ((λ img, (height img - 2 + 1) * (width img - 2 + 1))
                   <$> [stripes]).
Proof.
  apply (weight_conservation [stripes] 2); [lia|].
  repeat constructor; vm_compute; discriminate.
Defined.

(** ** Symmetry of the adjacency table *)

(** C6. In every learned model the table has one row of four masks per
    pattern, bit [j] of [A[i][up]] equals bit [i] of [A[j][down]], and bit
    [j] of [A[i][left]] equals bit [i] of [A[j][right]]. *)
Theorem adjacency_symmetry (images : list image) (N : Z) (m : t) :
  learn images N = Ok m →
  adj_shape (length (patterns m)) (adjacencies m)
  ∧ ∀ i j,
      bitOf (adjacencies m) i 0 j = bitOf (adjacencies m) j 1 i
      ∧ bitOf (adjacencies m) i 2 j = bitOf (adjacencies m) j 3 i.
Proof.
  unfold learn. intros H.
  destruct (getPatternsAndWeights images N) as [s|]; simpl in H; [|done].
  destruct (getAdjacencies (scan_patterns s)) as [adj|] eqn:Hadj;
    simpl in H; [|done].
  simplify_eq. simpl. split; [by apply getAdjacencies_shape|].
  intros i j. split; by eapply getAdjacencies_symmetric.
Qed.

Lemma adjacency_symmetry_witness :
  let m := mk [stripe01; stripe10] [4; 2] [[0; 0; 2; 2]%N; [0; 0; 1; 1]%N] in
  adj_shape (length (patterns m)) (adjacencies m)
  ∧ ∀ i j,
      bitOf (adjacencies m) i 0 j = bitOf (adjacencies m) j 1 i
      ∧ bitOf (adjacencies m) i 2 j = bitOf (adjacencies m) j 3 i.
Proof.
  apply (adjacency_symmetry [stripes] 2). vm_compute. reflexivity.
Defined.

(** ** Inputs the specification calls invalid *)

Lemma foldM_skip {A S} (f : A → S → result S) (l : list A) (s : S) :
  (∀ a, a ∈ l → f a s = Ok s) → foldM f l s = Ok s.
Proof.
  induction l as [|a l IH]; intros Hf; simpl; [done|].
  rewrite Hf by apply list_elem_of_here. simpl.
  apply IH. intros a' Ha'. apply Hf. by apply list_elem_of_further.
Qed.

Lemma foldM_absorb {A S} (I0 J : S → Prop) (f : A → S → result S) l s :
  (∀ a s, a ∈ l → I0 s ∨ J s → ∃ s', f a s = Ok s' ∧ J s') →
  l ≠ [] → I0 s ∨ J s → ∃ s', foldM f l s = Ok s' ∧ J s'.
Proof.
  revert s. induction l as [|a l IH]; intros s Hf Hne Hs; [done|]. simpl.
  destruct (Hf a s) as (s1 & -> & Hs1); [apply list_elem_of_here|done|].
  simpl. destruct l as [|b l]; [by exists s1|].
  apply IH; [|done|by right].
  intros a' t Ha'. apply Hf. by apply list_elem_of_further.
Qed.

(** An image with fewer than [N] rows, or whose first row has fewer than [N]
    tiles, passes through the scan without a window being read. *)
Lemma scanImage_too_small (N : Z) (img : image) (s : scan) :
  1 ≤ N → height img < N ∨ width img < N → scanImage N img s = Ok s.
Proof.
  intros HN Hsmall. unfold scanImage. apply foldM_skip.
  intros y Hy%elem_of_seqZ. unfold scanRow.
  destruct img as [|row0 img']; [simpl in Hy; lia|]. simpl.
  unfold height, width in Hsmall.
  replace (Z.of_nat (length row0) - N + 1) with
    (Z.of_nat (length row0) - N + 1 + 0) by lia.
  destruct Hsmall as [Hh|Hw]; [lia|].
  by rewrite seqZ_nil by lia.
Qed.

Lemma scanWindow_degenerate (img : image) (N y x : Z) (s : scan) :
  N < 1 → s = mkScan [] [] ∅ ∨ degenerate s →
  ∃ s', scanWindow img N y x s = Ok s' ∧ degenerate s'.
Proof.
  intros HN Hs. unfold scanWindow, getPattern.
  rewrite seqZ_nil by lia. simpl.
  destruct Hs as [->|[w ->]]; simpl.
  - eexists. split; [done|]. by exists 1.
  - eexists. split; [done|]. by eexists.
Qed.

Lemma seqZ_nonempty (m n : Z) : 0 < n → seqZ m n ≠ [].
Proof.
  intros Hn H. apply (f_equal length) in H.
  rewrite length_seqZ in H. simpl in H. lia.
Qed.

Lemma scanImage_degenerate (N : Z) (img : image) (s : scan) :
  N < 1 → img ≠ [] → s = mkScan [] [] ∅ ∨ degenerate s →
  ∃ s', scanImage N img s = Ok s' ∧ degenerate s'.
Proof.
  intros HN Himg. unfold scanImage.
  apply (foldM_absorb (λ s, s = mkScan [] [] ∅) degenerate).
  - intros y t _ Ht. unfold scanRow.
    destruct img as [|row0 img']; [done|]. simpl.
    apply (foldM_absorb (λ s, s = mkScan [] [] ∅) degenerate);
      [|apply seqZ_nonempty; lia|done].
    intros x t' _. by apply scanWindow_degenerate.
  - apply seqZ_nonempty. destruct img; [done|]. simpl length. lia.
Qed.

(** C5, as the code has it. [learn] checks neither [N] nor the size of the
    images and raises no error of its own. With [N >= 1] it always returns a
    model, and an image smaller than [N] in either dimension contributes
    no window: the model is the one learned without that image. With
    [N < 1] and at least one image, none of them without rows, it returns a
    model whose only pattern is the empty pattern. *)
Theorem learn_performs_no_validation :
  (∀ images N, 1 ≤ N → ∃ m, learn images N = Ok m)
  ∧ (∀ pre img post N,
       1 ≤ N → height img < N ∨ width img < N →
       learn (pre ++ img :: post) N = learn (pre ++ post) N)
  ∧ (∀ images N,
       N < 1 → images ≠ [] → Forall (λ img, img ≠ []) images →
       ∃ w, learn images N = Ok (mk [[]] [w] [[0; 0; 0; 0]%N])).
Proof.
  split; [|split].
  - intros images N HN.
    destruct (learn_total images N HN) as (m & Hm & _). by exists m.
  - intros pre img post N HN Hsmall. unfold learn, getPatternsAndWeights.
    rewrite !foldM_app. simpl.
    destruct (foldM (scanImage N) pre _) as [s|]; simpl; [|done].
    by rewrite scanImage_too_small.
  - intros images N HN Hne Hrows. unfold learn, getPatternsAndWeights.
    destruct (foldM_absorb (λ s, s = mkScan [] [] ∅) degenerate
                (scanImage N) images (mkScan [] [] ∅))
      as (s & -> & [w ->]); [|done|by left|].
    + intros img s Himg Hs. apply scanImage_degenerate; [done| |done].
      rewrite Forall_forall in Hrows. by apply Hrows.
    + by exists w.
Qed.

Lemma learn_performs_no_validation_witness :
  (∃ m, learn [stripes] 2 = Ok m)
  ∧ learn ([stripes] ++ uniform :: []) 3 = learn ([stripes] ++ []) 3
  ∧ (∃ w, learn [uniform] 0 = Ok (mk [[]] [w] [[0; 0; 0; 0]%N])).
Proof.
  destruct learn_performs_no_validation as (H1 & H2 & H3).
  split; [|split].
  - apply (H1 [stripes] 2). lia.
  - apply (H2 [stripes] uniform [] 3); [lia|]. left. vm_compute. reflexivity.
  - apply (H3 [uniform] 0); [lia|discriminate|].
    repeat constructor; discriminate.
Defined.

(** C5 as stated fails: neither a too small image nor [N < 1] makes
    [learn] fail. *)
Lemma learn_accepts_invalid_input :
  learn [uniform] 3 = Ok (mk [] [] [])
  ∧ learn [uniform] 0 = Ok (mk [[]] [9] [[0; 0; 0; 0]%N])
  ∧ ¬ (∀ images N,
         N < 1 ∨ Exists (λ img, height img < N ∨ width img < N) images →
         ∃ e, learn images N = Throw e).
Proof.
  split; [by vm_compute|]. split; [by vm_compute|].
  intros H. destruct (H [uniform] 3) as [e He]; [|by vm_compute in He].
  right. constructor. left. by vm_compute.
Qed.

(** * Properties of the solver *)

(** ** Bit masks as sets of pattern indices *)

Module BitmaskFacts.
Import SolverSpec.

Lemma test_above_size (m : Bitmask.t) (i : nat) :
  Bitmask.test m i = true → (i < N.to_nat (N.size m))%nat.
Proof.
  unfold Bitmask.test. intros Hi.
  destruct (decide (m = 0%N)) as [->|Hm]; [by rewrite N.bits_0 in Hi|].
  rewrite N.size_log2 by done.
  destruct (decide (N.log2 m < N.of_nat i)%N) as [Hlt|Hge]; [|lia].
  by rewrite N.bits_above_log2 in Hi.
Qed.

Lemma elem_of_toArray (m : Bitmask.t) (i : nat) :
  i ∈ Bitmask.toArray m ↔ Bitmask.test m i = true.
Proof.
  unfold Bitmask.toArray. rewrite list_elem_of_In, filter_In.
  rewrite <- list_elem_of_In, elem_of_seq. split; [tauto|].
  intros Hi. split; [|done]. apply test_above_size in Hi. lia.
Qed.

Lemma test_ext (a b : Bitmask.t) :
  (∀ i, Bitmask.test a i = Bitmask.test b i) → a = b.
Proof.
  intros H. apply N.bits_inj. intros n.
  specialize (H (N.to_nat n)). unfold Bitmask.test in H.
  by rewrite N2Nat.id in H.
Qed.

Lemma toArray_empty : Bitmask.toArray 0%N = [].
Proof. done. Qed.

Lemma toArray_nil (m : Bitmask.t) : Bitmask.toArray m = [] ↔ m = 0%N.
Proof.
  split; [|by intros ->].
  intros Hnil. apply test_ext. intros i.
  unfold Bitmask.test at 2. rewrite N.bits_0.
  destruct (Bitmask.test m i) eqn:Hi; [|done].
  apply elem_of_toArray in Hi. rewrite Hnil in Hi.
  by apply elem_of_nil in Hi.
Qed.

Lemma isEmpty_true (m : Bitmask.t) : Bitmask.isEmpty m = true ↔ m = 0%N.
Proof. unfold Bitmask.isEmpty. apply N.eqb_eq. Qed.

Lemma EQUALS_true (a b : Bitmask.t) : Bitmask.EQUALS a b = true ↔ a = b.
Proof. unfold Bitmask.EQUALS. apply N.eqb_eq. Qed.



Lemma test_AND (a b : Bitmask.t) (i : nat) :
  Bitmask.test (Bitmask.AND a b) i = Bitmask.test a i && Bitmask.test b i.
Proof. apply N.land_spec. Qed.

Lemma test_combineWith (a b : Bitmask.t) (i : nat) :
  Bitmask.test (Bitmask.combineWith a b) i
  = Bitmask.test a i || Bitmask.test b i.
Proof. apply N.lor_spec. Qed.

Lemma test_singleton (p i : nat) :
  Bitmask.test (Bitmask.setBit (Bitmask.clear 0%N) p) i = bool_decide (i = p).
Proof.
  unfold Bitmask.test, Bitmask.setBit, Bitmask.clear.
  rewrite N.setbit_eqb, N.bits_0, orb_false_r.
  case_bool_decide; [subst; apply N.eqb_refl|]. apply N.eqb_neq. lia.
Qed.

Lemma submask_refl (a : Bitmask.t) : submask a a.
Proof. by intros i. Qed.

Lemma submask_trans (a b c : Bitmask.t) :
  submask a b → submask b c → submask a c.
Proof. intros Hab Hbc i Hi. by apply Hbc, Hab. Qed.

Lemma submask_antisym (a b : Bitmask.t) : submask a b → submask b a → a = b.
Proof.
  intros Hab Hba. apply test_ext. intros i.
  destruct (Bitmask.test a i) eqn:Ha, (Bitmask.test b i) eqn:Hb; try done.
  - apply Hab in Ha. congruence.
  - apply Hba in Hb. congruence.
Qed.

Lemma submask_AND_l (a b : Bitmask.t) : submask (Bitmask.AND a b) a.
Proof. intros i. rewrite test_AND. by intros [? ?]%andb_true_iff. Qed.

Lemma submask_AND_r (a b : Bitmask.t) : submask (Bitmask.AND a b) b.
Proof. intros i. rewrite test_AND. by intros [? ?]%andb_true_iff. Qed.

Lemma submask_AND (c a b : Bitmask.t) :
  submask c a → submask c b → submask c (Bitmask.AND a b).
Proof.
  intros Ha Hb i Hi. rewrite test_AND. apply andb_true_iff.
  split; [by apply Ha|by apply Hb].
Qed.

Lemma submask_land (a b : Bitmask.t) : submask a b → N.land a b = a.
Proof.
  intros Hab. apply test_ext. intros i.
  change (N.land a b) with (Bitmask.AND a b). rewrite test_AND.
  destruct (Bitmask.test a i) eqn:Ha; [|done]. by rewrite (Hab i Ha).
Qed.

(** A submask is not larger as a number, and smaller when it differs. *)
Lemma submask_le (a b : Bitmask.t) : submask a b → (a ≤ b)%N.
Proof. intros Hab. rewrite <- (submask_land a b Hab). apply N.land_le_r. Qed.

Lemma submask_lt (a b : Bitmask.t) : submask a b → a ≠ b → (a < b)%N.
Proof. intros Hab Hne. apply submask_le in Hab. lia. Qed.

Lemma test_nonempty (m : Bitmask.t) (i : nat) :
  Bitmask.test m i = true → m ≠ 0%N.
Proof. intros Hi ->. unfold Bitmask.test in Hi. by rewrite N.bits_0 in Hi. Qed.

Lemma singleton_submask (m : Bitmask.t) (p : nat) :
  Bitmask.test m p = true →
  submask (Bitmask.setBit (Bitmask.clear m) p) m.
Proof.
  intros Hp i. unfold Bitmask.clear. rewrite test_singleton.
  by intros ->%bool_decide_eq_true.
Qed.

Lemma singleton_nonempty (m : Bitmask.t) (p : nat) :
  Bitmask.setBit (Bitmask.clear m) p ≠ 0%N.
Proof.
  apply (test_nonempty _ p). unfold Bitmask.clear.
  rewrite test_singleton. by apply bool_decide_eq_true.
Qed.

Lemma filter_none {A} (f : A → bool) (l : list A) :
  (∀ a, In a l → f a = false) → List.filter f l = [].
Proof.
  induction l as [|a l IH]; intros Hf; simpl; [done|].
  rewrite (Hf a) by by left. apply IH. intros a' Ha'. apply Hf. by right.
Qed.

Lemma toArray_singleton (m : Bitmask.t) (p : nat) :
  Bitmask.toArray (Bitmask.setBit (Bitmask.clear m) p) = [p].
Proof.
  unfold Bitmask.toArray, Bitmask.setBit, Bitmask.clear.
  rewrite N.setbit_spec', N.lor_0_l.
  assert (Hsize : N.to_nat (N.size (2 ^ N.of_nat p)) = S p).
  { rewrite N.size_log2 by (apply N.pow_nonzero; lia).
    rewrite N.log2_pow2 by lia. lia. }
  rewrite Hsize. replace (S p) with (p + 1)%nat by lia.
  rewrite seq_app, List.filter_app. simpl.
  unfold Bitmask.test at 2. rewrite N.pow2_bits_true.
  rewrite filter_none; [done|].
  intros i Hi%in_seq.
  unfold Bitmask.test. rewrite N.pow2_bits_false by lia. done.
Qed.

(** A mask with two or more patterns is larger than any of its
    singletons. *)
Lemma singleton_lt (m : Bitmask.t) (p : nat) :
  p ∈ Bitmask.toArray m → (2 ≤ length (Bitmask.toArray m))%nat →
  (Bitmask.setBit (Bitmask.clear m) p < m)%N.
Proof.
  intros Hp Hlen. apply submask_lt.
  - apply singleton_submask. by apply elem_of_toArray.
  - intros Heq. rewrite <- Heq, toArray_singleton in Hlen. simpl in Hlen. lia.
Qed.

Lemma allPatternsPossible_test (P i : nat) :
  Bitmask.test (foldl Bitmask.setBit (Bitmask.new P) (seq 0 P)) i
  = bool_decide (i < P)%nat.
Proof.
  unfold Bitmask.new.
  assert (H : ∀ n m, Bitmask.test (foldl Bitmask.setBit m (seq 0 n)) i
                     = bool_decide (i < n)%nat || Bitmask.test m i).
  { induction n as [|n IH]; intros m; [done|].
    rewrite seq_S, foldl_app. simpl.
    rewrite LearnerFacts.test_setBit, IH.
    repeat case_bool_decide; try done; lia. }
  rewrite H. unfold Bitmask.test at 1. by rewrite N.bits_0, orb_false_r.
Qed.

End BitmaskFacts.

(** ** Waves *)

Module WaveFacts.
Import ConstraintSolver LearnerSpec SolverSpec BitmaskFacts LearnerFacts.

Lemma at_index_Some_iff {A} (l : list A) (i : Z) (a : A) :
  at_index l i = Some a ↔ 0 ≤ i ∧ l !! Z.to_nat i = Some a.
Proof.
  unfold at_index. case_decide; [|intuition lia].
  split; [done|]. intros [? _]. lia.
Qed.

Lemma cellAt_Ok (w : wave) (y x : Z) (c : Bitmask.t) :
  cellAt w y x = Ok c ↔
  0 ≤ y ∧ 0 ≤ x
  ∧ ∃ row, w !! Z.to_nat y = Some row ∧ row !! Z.to_nat x = Some c.
Proof.
  unfold cellAt. split.
  - destruct (at_index w y) as [row|] eqn:Hrow; simpl; [|done].
    destruct (at_index row x) as [c'|] eqn:Hc; simpl; [|done].
    intros [= ->].
    apply at_index_Some_iff in Hrow as [Hy Hrow].
    apply at_index_Some_iff in Hc as [Hx Hc].
    repeat split; [done..|]. by exists row.
  - intros (Hy & Hx & row & Hrow & Hc).
    rewrite (proj2 (at_index_Some_iff w y row)) by done. simpl.
    by rewrite (proj2 (at_index_Some_iff row x c)).
Qed.

Lemma cellAt_only_TypeError (w : wave) (y x : Z) (e : exn) :
  cellAt w y x = Throw e → e = TypeError.
Proof.
  unfold cellAt.
  destruct (at_index w y) as [row|]; simpl; [|by intros [= <-]].
  destruct (at_index row x); simpl; [done|by intros [= <-]].
Qed.

Lemma cellAt_setCell_eq (w : wave) (y x : Z) (c m : Bitmask.t) :
  cellAt w y x = Ok c → cellAt (setCell w y x m) y x = Ok m.
Proof.
  rewrite !cellAt_Ok. intros (Hy & Hx & row & Hrow & Hc).
  repeat split; [done..|]. exists (<[Z.to_nat x := m]> row). split.
  - unfold setCell. rewrite list_lookup_alter, decide_True by done.
    by rewrite Hrow.
  - apply list_lookup_insert_eq. by eapply lookup_lt_Some.
Qed.

Lemma cellAt_ext (w1 w2 : wave) (y1 x1 y2 x2 : Z) :
  (∀ c, cellAt w1 y1 x1 = Ok c ↔ cellAt w2 y2 x2 = Ok c) →
  cellAt w1 y1 x1 = cellAt w2 y2 x2.
Proof.
  intros H.
  destruct (cellAt w1 y1 x1) as [c1|e1] eqn:H1.
  { symmetry. by apply H. }
  destruct (cellAt w2 y2 x2) as [c2|e2] eqn:H2.
  { by apply H. }
  apply cellAt_only_TypeError in H1, H2. by subst.
Qed.

Lemma cellAt_setCell_ne (w : wave) (y x y' x' : Z) (m : Bitmask.t) :
  0 ≤ y → 0 ≤ x → (y', x') ≠ (y, x) →
  cellAt (setCell w y x m) y' x' = cellAt w y' x'.
Proof.
  intros Hy Hx Hne. apply cellAt_ext. intros c. rewrite !cellAt_Ok.
  unfold setCell.
  destruct (decide (Z.to_nat y = Z.to_nat y')) as [Heq|Hy'].
  - rewrite list_lookup_alter, decide_True by done. rewrite Heq.
    split; intros (Hy1 & Hx1 & row & Hrow & Hc);
      (repeat split; [done..|]).
    + destruct (w !! Z.to_nat y') as [row0|]; simplify_eq/=.
      exists row0. split; [done|].
      rewrite list_lookup_insert_ne in Hc; [done|].
      intros Hx'. apply Hne. f_equal; lia.
    + rewrite Hrow. simpl. eexists. split; [done|].
      rewrite list_lookup_insert_ne; [done|].
      intros Hx'. apply Hne. f_equal; lia.
  - by rewrite list_lookup_alter_ne.
Qed.

Lemma subwave_refl (w : wave) : subwave w w.
Proof.
  apply Forall2_same_length_lookup. split; [done|].
  intros i r r' Hr Hr'. simplify_eq.
  apply Forall2_same_length_lookup. split; [done|].
  intros j c c' Hc Hc'. simplify_eq. apply submask_refl.
Qed.

Lemma subwave_trans (w1 w2 w3 : wave) :
  subwave w1 w2 → subwave w2 w3 → subwave w1 w3.
Proof.
  unfold subwave. intros H12 H23.
  eapply Forall2_trans; [|exact H12|exact H23].
  intros r1 r2 r3 Hr12 Hr23.
  eapply Forall2_trans; [|exact Hr12|exact Hr23].
  intros a b c. apply submask_trans.
Qed.

Lemma subwave_antisym (w1 w2 : wave) :
  subwave w1 w2 → subwave w2 w1 → w1 = w2.
Proof.
  unfold subwave. intros H12 H21.
  apply list_eq_same_length with (length w1);
    [by erewrite <- Forall2_length by exact H12|done|].
  intros i r1 r2 _ Hr1 Hr2.
  pose proof (Forall2_lookup_lr _ _ _ _ _ _ H12 Hr1 Hr2) as Hr12.
  pose proof (Forall2_lookup_lr _ _ _ _ _ _ H21 Hr2 Hr1) as Hr21.
  apply list_eq_same_length with (length r1);
    [by erewrite <- Forall2_length by exact Hr12|done|].
  intros j c1 c2 _ Hc1 Hc2. apply submask_antisym.
  - exact (Forall2_lookup_lr _ _ _ _ _ _ Hr12 Hc1 Hc2).
  - exact (Forall2_lookup_lr _ _ _ _ _ _ Hr21 Hc2 Hc1).
Qed.

Lemma subwave_cellAt (w' w : wave) (y x : Z) (c : Bitmask.t) :
  subwave w' w → cellAt w y x = Ok c →
  ∃ c', cellAt w' y x = Ok c' ∧ submask c' c.
Proof.
  intros Hsub (Hy & Hx & row & Hrow & Hc)%cellAt_Ok.
  destruct (Forall2_lookup_r _ _ _ _ _ Hsub Hrow) as (row' & Hrow' & Hrows).
  destruct (Forall2_lookup_r _ _ _ _ _ Hrows Hc) as (c' & Hc' & Hcc).
  exists c'. split; [|done]. apply cellAt_Ok. eauto 10.
Qed.

Lemma subwave_cellAt_l (w' w : wave) (y x : Z) (c' : Bitmask.t) :
  subwave w' w → cellAt w' y x = Ok c' →
  ∃ c, cellAt w y x = Ok c ∧ submask c' c.
Proof.
  intros Hsub (Hy & Hx & row & Hrow & Hc)%cellAt_Ok.
  destruct (Forall2_lookup_l _ _ _ _ _ Hsub Hrow) as (row' & Hrow' & Hrows).
  destruct (Forall2_lookup_l _ _ _ _ _ Hrows Hc) as (c & Hc' & Hcc).
  exists c. split; [|done]. apply cellAt_Ok. eauto 10.
Qed.

Lemma subwave_setCell_l (w : wave) (y x : Z) (c m : Bitmask.t) :
  cellAt w y x = Ok c → submask m c → subwave (setCell w y x m) w.
Proof.
  intros (Hy & Hx & row & Hrow & Hc)%cellAt_Ok Hm. unfold setCell.
  apply Forall2_alter_l; [apply subwave_refl|].
  intros r r' Hr Hr' Hrr. rewrite Hrow in Hr, Hr'.
  injection Hr as <-. injection Hr' as <-.
  rewrite <- (list_insert_id row (Z.to_nat x) c) at 2 by done.
  by apply Forall2_insert.
Qed.

Lemma subwave_setCell_r (F w : wave) (y x : Z) (m : Bitmask.t) :
  subwave F w →
  (∀ c, cellAt F y x = Ok c → submask c m) →
  0 ≤ y → 0 ≤ x →
  subwave F (setCell w y x m).
Proof.
  intros Hsub Hm Hy Hx. unfold setCell.
  apply Forall2_alter_r; [done|].
  intros r r' Hr Hr' Hrr.
  destruct (r !! Z.to_nat x) as [c|] eqn:Hc.
  - rewrite <- (list_insert_id r (Z.to_nat x) c) by done.
    apply Forall2_insert; [done|]. apply Hm. apply cellAt_Ok. eauto 10.
  - rewrite list_insert_ge; [done|].
    apply lookup_ge_None in Hc. by rewrite <- (Forall2_length _ _ _ Hrr).
Qed.

Lemma subwave_length (w' w : wave) : subwave w' w → length w' = length w.
Proof. apply Forall2_length. Qed.

Lemma subwave_row0 (w' w : wave) (row0 : list Bitmask.t) :
  subwave w' w → w !! 0%nat = Some row0 →
  ∃ row0', w' !! 0%nat = Some row0' ∧ length row0' = length row0.
Proof.
  intros Hsub Hrow.
  destruct (Forall2_lookup_r _ _ _ _ _ Hsub Hrow) as (row' & Hrow' & Hrows).
  exists row'. split; [done|]. by eapply Forall2_length.
Qed.

Lemma rowSum_cons (a : Bitmask.t) (r : list Bitmask.t) :
  rowSum (a :: r) = Z.of_N a + rowSum r.
Proof. done. Qed.

Lemma waveSum_cons (r : list Bitmask.t) (w : wave) :
  waveSum (r :: w) = rowSum r + waveSum w.
Proof. done. Qed.

Lemma rowSum_submask (r' r : list Bitmask.t) :
  Forall2 submask r' r → rowSum r' ≤ rowSum r.
Proof.
  induction 1 as [|a b r' r Hab _ IH]; [done|].
  rewrite !rowSum_cons. apply submask_le in Hab. lia.
Qed.

Lemma waveSum_subwave (w' w : wave) : subwave w' w → waveSum w' ≤ waveSum w.
Proof.
  induction 1 as [|a b r' r Hab _ IH]; [done|].
  rewrite !waveSum_cons. apply rowSum_submask in Hab. lia.
Qed.

Lemma rowSum_nonneg (r : list Bitmask.t) : 0 ≤ rowSum r.
Proof.
  induction r as [|a r IH]; [done|]. rewrite rowSum_cons. lia.
Qed.

Lemma waveSum_nonneg (w : wave) : 0 ≤ waveSum w.
Proof.
  induction w as [|a w IH]; [done|]. rewrite waveSum_cons.
  pose proof (rowSum_nonneg a). lia.
Qed.

Lemma rowSum_insert (r : list Bitmask.t) (i : nat) (c m : Bitmask.t) :
  r !! i = Some c →
  rowSum (<[i := m]> r) = rowSum r - Z.of_N c + Z.of_N m.
Proof.
  revert i. induction r as [|a r IH]; intros [|i] Hc; simplify_eq/=.
  - rewrite !rowSum_cons. lia.
  - change (rowSum (a :: <[i := m]> r) = rowSum (a :: r) - Z.of_N c + Z.of_N m).
    rewrite !rowSum_cons, (IH i Hc). lia.
Qed.

Lemma waveSum_alter (w : wave) (i : nat) (row : list Bitmask.t) f :
  w !! i = Some row →
  waveSum (alter f i w) = waveSum w - rowSum row + rowSum (f row).
Proof.
  revert i. induction w as [|a w IH]; intros [|i] Hrow; simplify_eq/=.
  - change (waveSum (f row :: w) = waveSum (row :: w) - rowSum row + rowSum (f row)).
    rewrite !waveSum_cons. lia.
  - change (waveSum (a :: alter f i w) = waveSum (a :: w) - rowSum row + rowSum (f row)).
    rewrite !waveSum_cons, (IH i Hrow). lia.
Qed.

Lemma waveSum_setCell (w : wave) (y x : Z) (c m : Bitmask.t) :
  cellAt w y x = Ok c →
  waveSum (setCell w y x m) = waveSum w - Z.of_N c + Z.of_N m.
Proof.
  intros (Hy & Hx & row & Hrow & Hc)%cellAt_Ok. unfold setCell.
  rewrite (waveSum_alter _ _ _ _ Hrow), (rowSum_insert _ _ _ _ Hc). lia.
Qed.

Lemma allNonempty_setCell (w : wave) (y x : Z) (m : Bitmask.t) :
  m ≠ 0%N → allNonempty w → allNonempty (setCell w y x m).
Proof.
  intros Hm Hw. unfold setCell. apply Forall_alter; [done|].
  intros row _ Hrow. by apply Forall_insert.
Qed.

Lemma allNonempty_cellAt (w : wave) (y x : Z) (c : Bitmask.t) :
  allNonempty w → cellAt w y x = Ok c → c ≠ 0%N.
Proof.
  intros Hw (_ & _ & row & Hrow & Hc)%cellAt_Ok.
  eapply Forall_lookup_1 in Hw; [|exact Hrow].
  by eapply Forall_lookup_1 in Hw.
Qed.

End WaveFacts.

(** ** Propagation *)

Module PropagateFacts.
Import ConstraintSolver LearnerSpec SolverSpec BitmaskFacts WaveFacts LearnerFacts.

(** What one visit of a direction does: nothing out of bounds; a
    contradiction when the intersection is empty; nothing when the
    intersection is the neighbour's mask; else the neighbour shrinks to the
    intersection and joins the queue. *)
Lemma relax_cases adj (y1 x1 : Z) cell1 (k : nat) (w w' : wave) q q' c :
  relax adj y1 x1 cell1 k w q = Ok (c, w', q') →
  ∃ y2 x2, neighbour y1 x1 k = Some (y2, x2) ∧
    ((¬ inBounds w y2 x2 ∧ c = false ∧ w' = w ∧ q' = q)
     ∨ (inBounds w y2 x2 ∧
        ∃ cell2 M, cellAt w y2 x2 = Ok cell2
          ∧ unionOfAdjacent adj k cell1 = Ok M
          ∧ ((Bitmask.AND cell2 M = 0%N ∧ c = true ∧ w' = w ∧ q' = q)
             ∨ (Bitmask.AND cell2 M = cell2 ∧ cell2 ≠ 0%N
                ∧ c = false ∧ w' = w ∧ q' = q)
             ∨ (Bitmask.AND cell2 M ≠ 0%N ∧ Bitmask.AND cell2 M ≠ cell2
                ∧ c = false
                ∧ w' = setCell w y2 x2 (Bitmask.AND cell2 M)
                ∧ q' = q ++ [(y2, x2)])))).
Proof.
  unfold relax, neighbour. intros H.
  destruct (DIRECTIONS !! k) as [[d1 d2]|]; simpl in H; [|done]. simpl.
  exists (y1 + - d1), (x1 + - d2). split; [done|].
  case_decide as Hy.
  { left. simplify_eq. split; [|done]. intros [Hy' _]. lia. }
  destruct (w !! 0%nat) as [row0|] eqn:Hrow0; simpl in H; [|done].
  case_decide as Hx.
  { left. simplify_eq. split; [|done].
    intros (_ & row & Hrow & Hx'). simplify_eq. lia. }
  right. split.
  { split; [lia|]. exists row0. split; [done|lia]. }
  destruct (cellAt w _ _) as [cell2|]; simpl in H; [|done].
  destruct (unionOfAdjacent adj k cell1) as [M|]; simpl in H; [|done].
  exists cell2, M. split; [done|]. split; [done|].
  destruct (Bitmask.isEmpty _) eqn:Hempty.
  { left. apply isEmpty_true in Hempty. by simplify_eq. }
  assert (Bitmask.AND cell2 M ≠ 0%N) as Hne.
  { intros H0%isEmpty_true. congruence. }
  destruct (Bitmask.EQUALS _ _) eqn:Hequal; simpl in H.
  - right. left. apply EQUALS_true in Hequal. simplify_eq.
    repeat split; try done. congruence.
  - right. right. simplify_eq. repeat split; try done.
    intros Heq. symmetry in Heq. apply EQUALS_true in Heq. congruence.
Qed.

Lemma step_ok_refl w q : step_ok w q w q.
Proof. split; [apply subwave_refl|]. split; [done|lia]. Qed.

Lemma step_ok_trans w1 q1 w2 q2 w3 q3 :
  step_ok w1 q1 w2 q2 → step_ok w2 q2 w3 q3 → step_ok w1 q1 w3 q3.
Proof.
  intros (S1 & N1 & M1) (S2 & N2 & M2).
  split; [by eapply subwave_trans|]. split; [auto|lia].
Qed.

Lemma relax_step_ok adj (y1 x1 : Z) cell1 (k : nat) (w w' : wave) q q' c :
  relax adj y1 x1 cell1 k w q = Ok (c, w', q') → step_ok w q w' q'.
Proof.
  intros (y2 & x2 & _ & [(_ & _ & -> & ->)|(_ & cell2 & M & Hc2 & _ & Hcases)])
    %relax_cases; [apply step_ok_refl|].
  destruct Hcases as [(_ & _ & -> & ->)|[(_ & _ & _ & -> & ->)|
                      (Hne & Hneq & _ & -> & ->)]];
    [apply step_ok_refl..|].
  split; [|split].
  - eapply subwave_setCell_l; [done|apply submask_AND_l].
  - by apply allNonempty_setCell.
  - rewrite (waveSum_setCell _ _ _ _ _ Hc2), length_app. simpl.
    pose proof (submask_lt _ _ (submask_AND_l cell2 M) Hneq). lia.
Qed.

Lemma visit_step_ok adj (y1 x1 : Z) cell1 ks (w w' : wave) q q' c :
  visit adj y1 x1 cell1 ks w q = Ok (c, w', q') → step_ok w q w' q'.
Proof.
  revert w q. induction ks as [|k ks IH]; intros w q H; simpl in H.
  { simplify_eq. apply step_ok_refl. }
  destruct (relax adj y1 x1 cell1 k w q) as [[[c1 w1] q1]|] eqn:Hrelax;
    simpl in H; [|done].
  apply relax_step_ok in Hrelax.
  destruct c1; [by simplify_eq|].
  eapply step_ok_trans; [exact Hrelax|by apply IH].
Qed.

Lemma dequeueAndVisit_step_ok adj (w w' : wave) front rest q' c :
  dequeueAndVisit adj w front rest = Ok (c, w', q') → step_ok w rest w' q'.
Proof.
  unfold dequeueAndVisit. intros H.
  destruct (cellAt w front.1 front.2) as [cell1|]; [|done].
  change (visit adj front.1 front.2 (Bitmask.toArray cell1)
            (seq 0 (length DIRECTIONS)) w rest = Ok (c, w', q')) in H.
  by eapply visit_step_ok.
Qed.

Lemma propagate_unfold adj (fuel : nat) (y x : Z) (w : wave) :
  propagate fuel y x adj w = propagateLoop fuel adj w [(y, x)].
Proof. done. Qed.

Lemma propagateLoop_unfold adj (fuel : nat) (w : wave) q :
  propagateLoop (S fuel) adj w q
  = match q with
    | [] => Some (Ok (false, w))
    | front :: rest =>
        match dequeueAndVisit adj w front rest with
        | Throw e => Some (Throw e)
        | Ok (true, w', _) => Some (Ok (true, w'))
        | Ok (false, w', q') => propagateLoop fuel adj w' q'
        end
    end.
Proof. by destruct q. Qed.

(** The loop of [propagate] ends: fuel above twice the sum of the masks
    plus the length of the queue is enough. *)
Lemma propagateLoop_terminates adj (fuel : nat) (w : wave) q :
  2 * waveSum w + Z.of_nat (length q) < Z.of_nat fuel →
  ∃ r, propagateLoop fuel adj w q = Some r.
Proof.
  revert w q. induction fuel as [|fuel IH]; intros w q Hfuel.
  { pose proof (waveSum_nonneg w). lia. }
  rewrite propagateLoop_unfold. destruct q as [|front rest]; [by eexists|].
  destruct (dequeueAndVisit adj w front rest) as [[[[|] w'] q']|e] eqn:Hv;
    [by eexists| |by eexists].
  apply IH. apply dequeueAndVisit_step_ok in Hv as (_ & _ & Hm).
  simpl length in Hfuel. lia.
Qed.

Lemma propagateLoop_fuel_mono adj (fuel fuel' : nat) (w : wave) q r :
  propagateLoop fuel adj w q = Some r → (fuel ≤ fuel')%nat →
  propagateLoop fuel' adj w q = Some r.
Proof.
  revert fuel' w q. induction fuel as [|fuel IH]; intros fuel' w q H Hle;
    [done|].
  destruct fuel' as [|fuel']; [lia|]. rewrite propagateLoop_unfold in *.
  destruct q as [|front rest]; [done|].
  destruct (dequeueAndVisit adj w front rest) as [[[[|] w'] q']|e];
    [done| |done].
  apply IH; [done|lia].
Qed.

(** Propagation only shrinks masks and writes no empty mask, whether it
    ends with a contradiction or not. *)
Lemma propagateLoop_shrinks adj (fuel : nat) (w w' : wave) q c :
  propagateLoop fuel adj w q = Some (Ok (c, w')) →
  subwave w' w ∧ (allNonempty w → allNonempty w').
Proof.
  revert w q. induction fuel as [|fuel IH]; intros w q H; [done|].
  rewrite propagateLoop_unfold in H. destruct q as [|front rest].
  { simplify_eq. split; [apply subwave_refl|done]. }
  destruct (dequeueAndVisit adj w front rest) as [[[[|] w1] q1]|e] eqn:Hv;
    [| |done].
  - simplify_eq. apply dequeueAndVisit_step_ok in Hv as (? & ? & _). done.
  - apply dequeueAndVisit_step_ok in Hv as (S1 & N1 & _).
    destruct (IH _ _ H) as [S2 N2].
    split; [by eapply subwave_trans|auto].
Qed.

Lemma unionOfAdjacent_only_TypeError adj k cell1 e :
  unionOfAdjacent adj k cell1 = Throw e → e = TypeError.
Proof.
  unfold unionOfAdjacent. generalize (Bitmask.new (length adj)).
  induction cell1 as [|i cell1 IH]; intros acc; simpl; [done|].
  destruct (adj !! i) as [row|]; simpl; [|by intros [= <-]].
  destruct (row !! k) as [m|]; simpl; [|by intros [= <-]].
  apply IH.
Qed.

Lemma relax_only_TypeError adj (y1 x1 : Z) cell1 (k : nat) (w : wave) q e :
  relax adj y1 x1 cell1 k w q = Throw e → e = TypeError.
Proof.
  unfold relax. intros H.
  destruct (DIRECTIONS !! k) as [[d1 d2]|]; simpl in H; [|by simplify_eq].
  case_decide; [done|].
  destruct (w !! 0%nat) as [row0|]; simpl in H; [|by simplify_eq].
  case_decide; [done|].
  destruct (cellAt w _ _) as [cell2|] eqn:Hc; simpl in H;
    [|simplify_eq; by eapply cellAt_only_TypeError].
  destruct (unionOfAdjacent adj k cell1) as [M|] eqn:HM; simpl in H;
    [|simplify_eq; by eapply unionOfAdjacent_only_TypeError].
  destruct (Bitmask.isEmpty _); [done|].
  by destruct (negb _).
Qed.

Lemma visit_only_TypeError adj (y1 x1 : Z) cell1 ks (w : wave) q e :
  visit adj y1 x1 cell1 ks w q = Throw e → e = TypeError.
Proof.
  revert w q. induction ks as [|k ks IH]; intros w q H; simpl in H; [done|].
  destruct (relax adj y1 x1 cell1 k w q) as [[[c1 w1] q1]|] eqn:Hrelax;
    simpl in H; [|simplify_eq; by eapply relax_only_TypeError].
  destruct c1; [done|]. by eapply IH.
Qed.

Lemma propagateLoop_only_TypeError adj (fuel : nat) (w : wave) q e :
  propagateLoop fuel adj w q = Some (Throw e) → e = TypeError.
Proof.
  revert w q. induction fuel as [|fuel IH]; intros w q H; [done|].
  rewrite propagateLoop_unfold in H. destruct q as [|front rest]; [done|].
  destruct (dequeueAndVisit adj w front rest) as [[[[|] w1] q1]|e'] eqn:Hv;
    [done|by eapply IH|].
  simplify_eq. unfold dequeueAndVisit in Hv.
  destruct (cellAt w front.1 front.2) as [cell1|] eqn:Hc.
  - change (visit adj front.1 front.2 (Bitmask.toArray cell1)
              (seq 0 (length DIRECTIONS)) w rest = Throw e) in Hv.
    by eapply visit_only_TypeError.
  - simpl in Hv. simplify_eq. by eapply cellAt_only_TypeError.
Qed.

End PropagateFacts.

(** ** Observation and entropy *)

Module ObserveFacts.
Import ConstraintSolver LearnerSpec SolverSpec BitmaskFacts WaveFacts LearnerFacts.

Lemma choose_elem rnd cursor ps ws (p : nat) :
  choose rnd cursor ps ws = Some p → p ∈ ps.
Proof.
  revert cursor ws. induction ps as [|p' ps IH]; intros cursor ws; [done|].
  destruct ws as [|w ws]; simpl; [done|].
  destruct (cursor_ge _ _).
  - intros [= ->]. apply list_elem_of_here.
  - intros H. apply list_elem_of_further. by eapply IH.
Qed.

(** An observation that returns has replaced the mask of the cell by the
    singleton of one of its patterns, and has drawn one random number. *)
Lemma observe_cases random (y x : Z) weights (st st' : state) :
  observe random y x weights st = Ok st' →
  ∃ cell p,
    cellAt (waveMatrix st) y x = Ok cell
    ∧ p ∈ Bitmask.toArray cell
    ∧ st' = mkState (setCell (waveMatrix st) y x
                             (Bitmask.setBit (Bitmask.clear cell) p))
                    (S (draws st)).
Proof.
  unfold observe. intros H.
  destruct (cellAt (waveMatrix st) y x) as [cell|]; simpl in H; [|done].
  destruct (choose _ _ _ _) as [p|] eqn:Hp; [|done].
  exists cell, p. split; [done|]. split; [by eapply choose_elem|].
  by simplify_eq.
Qed.

Lemma observe_throws random (y x : Z) weights (st : state) e :
  observe random y x weights st = Throw e →
  e = TypeError ∨ e = NoPatternChosen.
Proof.
  unfold observe. intros H.
  destruct (cellAt (waveMatrix st) y x) as [cell|] eqn:Hc; simpl in H.
  - destruct (choose _ _ _ _); [done|]. right. by simplify_eq.
  - left. simplify_eq. by eapply cellAt_only_TypeError.
Qed.

Lemma observe_shrinks random (y x : Z) weights (st st' : state) :
  observe random y x weights st = Ok st' →
  subwave (waveMatrix st') (waveMatrix st)
  ∧ (allNonempty (waveMatrix st) → allNonempty (waveMatrix st')).
Proof.
  intros (cell & p & Hcell & Hp & ->)%observe_cases. simpl. split.
  - eapply subwave_setCell_l; [done|].
    apply singleton_submask. by apply elem_of_toArray.
  - apply allNonempty_setCell, singleton_nonempty.
Qed.

Lemma collapsed_range (w : wave) (y x : Z) : 0 ≤ collapsed w y x ≤ 1.
Proof.
  unfold collapsed. destruct (cellAt w y x); [case_decide|]; lia.
Qed.

(** The observation of a cell with two patterns or more makes the sum of
    the masks smaller. *)
Lemma observe_measure random (y x : Z) weights (st st' : state) :
  observe random y x weights st = Ok st' →
  waveSum (waveMatrix st') + 1
  ≤ waveSum (waveMatrix st) + collapsed (waveMatrix st) y x.
Proof.
  intros (cell & p & Hcell & Hp & ->)%observe_cases. simpl.
  rewrite (waveSum_setCell _ _ _ _ _ Hcell). unfold collapsed.
  rewrite Hcell. case_decide as Hlen.
  - pose proof (singleton_lt cell p Hp Hlen). lia.
  - pose proof (submask_le _ _ (singleton_submask cell p
                                 (proj1 (elem_of_toArray _ _) Hp))). lia.
Qed.

(** [getShannonEntropy] throws on the empty mask, and only there. *)
Lemma getShannonEntropy_throws entropyOf (m : Bitmask.t) weights e :
  getShannonEntropy entropyOf m weights = Throw e ↔
  e = Contradiction ∧ m = 0%N.
Proof.
  unfold getShannonEntropy. case_decide as H0.
  - apply length_zero_iff_nil, toArray_nil in H0. split.
    + by intros [= <-].
    + by intros [-> _].
  - assert (m ≠ 0%N).
    { intros ->. by rewrite toArray_empty in H0. }
    case_decide; split; (done || by intros [_ ?]).
Qed.

Lemma getShannonEntropy_positive entropyOf (m : Bitmask.t) weights e :
  getShannonEntropy entropyOf m weights = Ok e →
  number_lt (Finite 0) e = true →
  (2 ≤ length (Bitmask.toArray m))%nat.
Proof.
  unfold getShannonEntropy. case_decide as H0; [done|].
  case_decide as H1; [|lia]. by intros [= <-].
Qed.

Lemma number_eq_positive (a b : number) :
  number_eq a b = true → number_lt (Finite 0) b = true →
  number_lt (Finite 0) a = true.
Proof.
  destruct a as [p| | |], b as [q| | |]; simpl; try done.
  intros Heq%Qeq_bool_iff Hlt. apply negb_true_iff in Hlt.
  apply negb_true_iff.
  destruct (Qle_bool p 0) eqn:Hle; [|done].
  apply Qle_bool_iff in Hle.
  assert (Qle_bool q 0 = true); [|congruence].
  apply Qle_bool_iff. by rewrite <- Heq.
Qed.

Lemma compareEntropy_inv entropyOf (w : wave) weights pos acc acc' :
  compareEntropy entropyOf w weights pos acc = Ok acc' →
  entropy_scan_inv w acc → entropy_scan_inv w acc'.
Proof.
  unfold compareEntropy. destruct acc as [least positions].
  intros H [Hleast Hpos]. cbn [fst snd] in Hleast, Hpos.
  destruct (cellAt w pos.1 pos.2) as [cell|] eqn:Hcell; [|done].
  rewrite bind_Ok in H.
  destruct (getShannonEntropy entropyOf cell weights) as [e|] eqn:He;
    [|done].
  rewrite bind_Ok in H.
  destruct (number_lt e least && number_lt (Finite 0) e) eqn:Hlt.
  - apply andb_true_iff in Hlt as [_ Hlt]. simplify_eq.
    split; cbn [fst snd]; [done|].
    constructor; [|done]. exists cell. split; [done|].
    by eapply getShannonEntropy_positive.
  - destruct (number_eq e least) eqn:Heq; simplify_eq; [|by split].
    split; cbn [fst snd]; [done|]. apply Forall_app. split; [done|].
    constructor; [|done]. exists cell. split; [done|].
    eapply getShannonEntropy_positive; [done|].
    by eapply number_eq_positive.
Qed.

Lemma compareEntropy_throws entropyOf (w : wave) weights pos acc e :
  compareEntropy entropyOf w weights pos acc = Throw e →
  e = TypeError ∨ (e = Contradiction ∧ ¬ allNonempty w).
Proof.
  unfold compareEntropy. destruct acc as [least positions]. intros H.
  destruct (cellAt w pos.1 pos.2) as [cell|] eqn:Hcell; simpl in H.
  - right.
    destruct (getShannonEntropy entropyOf cell weights) as [e'|e'] eqn:He;
      simpl in H.
    + destruct (_ && _); [done|]. by destruct (number_eq _ _).
    + simplify_eq. apply getShannonEntropy_throws in He as [-> ->].
      split; [done|]. intros Hw. by eapply allNonempty_cellAt.
  - left. simplify_eq. by eapply cellAt_only_TypeError.
Qed.

(** The selection either reports that no cell is left, drawing nothing, or
    draws once and returns a cell with two patterns or more. It never
    changes the wave. *)
Lemma getLeastEntropy_cases random entropyOf weights (st st' : state) pos :
  getLeastEntropyUnsolvedCellPosition random entropyOf weights st
  = Ok (pos, st') →
  (pos = (-1, -1) ∧ st' = st)
  ∨ (st' = mkState (waveMatrix st) (S (draws st))
     ∧ ∃ cell, cellAt (waveMatrix st) pos.1 pos.2 = Ok cell
               ∧ (2 ≤ length (Bitmask.toArray cell))%nat).
Proof.
  unfold getLeastEntropyUnsolvedCellPosition. intros H.
  destruct (foldM _ _ _) as [[least positions]|] eqn:Hscan; simpl in H;
    [|done].
  apply (foldM_inv (entropy_scan_inv (waveMatrix st))) in Hscan as [_ Hpos];
    [|by intros a s1 s2 _; eauto using compareEntropy_inv|by split].
  simpl in Hpos. case_decide as Hlen; [|left; by simplify_eq].
  destruct (at_index positions _) as [pos'|] eqn:Hidx; simpl in H; [|done].
  simplify_eq. right. split; [done|].
  apply at_index_Some_iff in Hidx as [_ Hidx].
  by eapply Forall_lookup_1 in Hpos.
Qed.

Lemma getLeastEntropy_throws random entropyOf weights (st : state) e :
  getLeastEntropyUnsolvedCellPosition random entropyOf weights st = Throw e →
  e = TypeError ∨ (e = Contradiction ∧ ¬ allNonempty (waveMatrix st)).
Proof.
  unfold getLeastEntropyUnsolvedCellPosition. intros H.
  destruct (foldM _ _ _) as [[least positions]|e'] eqn:Hscan; simpl in H.
  - case_decide; [|done].
    destruct (at_index positions _); simpl in H; [done|].
    left. by simplify_eq.
  - simplify_eq. revert Hscan. generalize (PosInfinity, @nil position).
    induction (scanOrder (waveMatrix st)) as [|pos l IH]; intros acc; [done|].
    simpl.
    destruct (compareEntropy _ _ _ _ _) as [acc'|e'] eqn:Hc; simpl.
    + apply IH.
    + intros [= ->]. by eapply compareEntropy_throws.
Qed.

End ObserveFacts.

(** ** The loop of [solve] *)

Module SolveFacts.
Import ConstraintSolver LearnerSpec SolverSpec BitmaskFacts WaveFacts
  PropagateFacts ObserveFacts.

Lemma initializeWaveMatrix_nonempty (P : nat) (width height : Z) :
  (1 ≤ P)%nat → allNonempty (initializeWaveMatrix P width height).
Proof.
  intros HP. unfold initializeWaveMatrix, allNonempty.
  apply Forall_forall. intros row ->%elem_of_replicate_inv.
  apply Forall_forall. intros m ->%elem_of_replicate_inv.
  apply (test_nonempty _ 0). unfold Bitmask.createCopy.
  rewrite allPatternsPossible_test. apply bool_decide_eq_true. lia.
Qed.

Section Loop.
Variable random : nat → Q.
Variable entropyOf : list (option Z) → number.
Variable numPatterns : nat.
Variable weights : list Z.
Variable adjacencies : adjacency.
Variables width height maxAttempts : Z.

Let loop (fuel pfuel : nat) :=
  solveLoop random entropyOf fuel pfuel numPatterns weights adjacencies
            width height maxAttempts.

Local Abbreviation freshSum := (SolverSpec.freshSum numPatterns width height).
Local Abbreviation potential :=
  (SolverSpec.potential numPatterns width height maxAttempts).

Lemma solveLoop_terminates (fuel pfuel : nat) st (y x n : Z) :
  waveSum (waveMatrix st) ≤ freshSum →
  2 * freshSum + 1 < Z.of_nat pfuel →
  potential st y x n < Z.of_nat fuel →
  ∃ r, loop fuel pfuel st y x n = Some r.
Proof.
  intros Hsum Hpfuel. revert st y x n Hsum.
  induction fuel as [|fuel IH]; intros st y x n Hsum Hfuel.
  { unfold SolverSpec.potential in Hfuel.
    pose proof (waveSum_nonneg (waveMatrix st)).
    pose proof (collapsed_range (waveMatrix st) y x).
    pose proof (waveSum_nonneg (initializeWaveMatrix numPatterns width height)).
    unfold SolverSpec.freshSum in *. nia. }
  unfold loop. simpl. case_decide as Hn; [|by eexists].
  destruct (observe random y x weights st) as [st1|e] eqn:Hobs;
    [|by eexists].
  pose proof (observe_measure _ _ _ _ _ _ Hobs) as Hm1.
  pose proof (collapsed_range (waveMatrix st) y x) as Hc01.
  destruct (propagateLoop_terminates adjacencies pfuel (waveMatrix st1)
              [(y, x)]) as [r Hr].
  { simpl length. lia. }
  rewrite propagate_unfold, Hr.
  destruct r as [[[|] w2]|e]; [| |by eexists].
  - (* a contradiction: the wave is reset and an attempt is used up *)
    apply IH; simpl; [unfold SolverSpec.freshSum; lia|].
    unfold SolverSpec.potential in *. simpl.
    pose proof (collapsed_range
      (initializeWaveMatrix numPatterns width height)
      (randomBelow random (draws st1) height)
      (randomBelow random (S (draws st1)) width)).
    pose proof (waveSum_nonneg (waveMatrix st)).
    pose proof (collapsed_range (waveMatrix st) y x).
    fold freshSum.
    pose proof (waveSum_nonneg (initializeWaveMatrix numPatterns width height)).
    fold freshSum in *.
    replace (Z.max 0 (maxAttempts + 1 - n)) with (maxAttempts + 1 - n)
      in Hfuel by lia.
    replace (Z.max 0 (maxAttempts + 1 - (n + 1))) with (maxAttempts - n)
      by lia.
    nia.
  - (* no contradiction: the next cell has two patterns or more *)
    apply propagateLoop_shrinks in Hr as [Hsub _].
    apply waveSum_subwave in Hsub.
    destruct (getLeastEntropyUnsolvedCellPosition _ _ _ _)
      as [[[y' x'] st2]|e] eqn:Hsel; [|by eexists].
    case_decide as Hdone; [by eexists|].
    apply getLeastEntropy_cases in Hsel
      as [[[= -> ->] _]|[-> (cell & Hcell & Hlen)]]; [lia|].
    simpl in *. apply IH; simpl; [lia|].
    unfold SolverSpec.potential in *. simpl.
    unfold collapsed at 1. rewrite Hcell, decide_True by done. lia.
Qed.


(** No mask of the wave is ever empty, so the loop never throws the
    [Contradiction] of the entropy routine. *)
Lemma solveLoop_nonempty (fuel pfuel : nat) st (y x n : Z) r :
  (1 ≤ numPatterns)%nat →
  allNonempty (waveMatrix st) →
  loop fuel pfuel st y x n = Some r →
  r ≠ Throw Contradiction
  ∧ ∀ o, r = Ok o → allNonempty (waveMatrix (final o)).
Proof.
  intros HP. revert st y x n.
  induction fuel as [|fuel IH]; intros st y x n Hw H; [done|].
  unfold loop in H. simpl in H. case_decide as Hn.
  2: { simplify_eq. split; [done|]. by intros o [= <-]. }
  destruct (observe random y x weights st) as [st1|e] eqn:Hobs.
  2: { simplify_eq. split; [|done].
       apply observe_throws in Hobs as [->| ->]; done. }
  apply observe_shrinks in Hobs as [_ Hw1]. specialize (Hw1 Hw).
  destruct (propagate pfuel y x adjacencies (waveMatrix st1))
    as [[[[|] w2]|e]|] eqn:Hprop; [| | |done].
  - eapply IH; [|exact H]. simpl.
    by apply initializeWaveMatrix_nonempty.
  - apply propagateLoop_shrinks in Hprop as [_ Hw2]. specialize (Hw2 Hw1).
    destruct (getLeastEntropyUnsolvedCellPosition _ _ _ _)
      as [[[y' x'] st2]|e] eqn:Hsel.
    + assert (waveMatrix st2 = w2) as Hst2.
      { apply getLeastEntropy_cases in Hsel as [[_ ->]|[-> _]]; done. }
      case_decide.
      * simplify_eq. split; [done|]. intros o [= <-]. simpl. done.
      * eapply IH; [|exact H]. by rewrite Hst2.
    + simplify_eq. split; [|done].
      apply getLeastEntropy_throws in Hsel as [->|[_ Hne]]; [done|].
      by destruct Hne.
  - simplify_eq. split; [|done].
    apply propagateLoop_only_TypeError in Hprop. by subst.
Qed.

End Loop.

End SolveFacts.

(** ** Numbers *)

Module DoubleFacts.
Import Double.

Lemma pow2_pos (e : Z) : (0 < pow2 e)%Q.
Proof. by apply Qpower_0_lt. Qed.

Lemma pow2_add (a b : Z) : (pow2 (a + b) == pow2 a * pow2 b)%Q.
Proof. by apply Qpower_plus. Qed.

Lemma pow2_le (a b : Z) : a ≤ b → (pow2 a <= pow2 b)%Q.
Proof. intros H. by apply Qpower_le_compat_l. Qed.

Lemma pow2_lt (a b : Z) : a < b → (pow2 a < pow2 b)%Q.
Proof. intros H. by apply Qpower_lt_compat_l. Qed.

Lemma pow2_lt_inv (a b : Z) : (pow2 a < pow2 b)%Q → a < b.
Proof. intros H. by apply (Qpower_lt_compat_l_inv 2). Qed.

Lemma pow2_Z (n : Z) : 0 ≤ n → (pow2 n == inject_Z (2 ^ n))%Q.
Proof. intros H. unfold pow2. by rewrite Zpower_Qpower. Qed.

Lemma pow2_succ (a : Z) : (pow2 (a + 1) == 2 * pow2 a)%Q.
Proof. rewrite pow2_add. change (pow2 1) with 2%Q. ring. Qed.

(** [exponent q] is the floor of the binary logarithm of [q]. *)
Lemma exponent_spec (q : Q) :
  (0 < q)%Q → (pow2 (exponent q) <= q)%Q ∧ (q < pow2 (exponent q + 1))%Q.
Proof.
  intros Hq. destruct q as [a b]. unfold exponent. cbn [Qnum Qden].
  assert (0 < a) as Ha.
  { unfold Qlt in Hq. simpl in Hq. lia. }
  set (la := Z.log2 a). set (lb := Z.log2 (Z.pos b)).
  destruct (Z.log2_spec a Ha) as [Ha1 Ha2]. fold la in Ha1, Ha2.
  destruct (Z.log2_spec (Z.pos b)) as [Hb1 Hb2]; [done|]. fold lb in Hb1, Hb2.
  assert (0 ≤ la) as Hla by apply Z.log2_nonneg.
  assert (0 ≤ lb) as Hlb by apply Z.log2_nonneg.
  assert (pow2 la <= inject_Z a)%Q as A1.
  { rewrite pow2_Z by done. by rewrite <- Zle_Qle. }
  assert (inject_Z a < 2 * pow2 la)%Q as A2.
  { rewrite <- pow2_succ, pow2_Z by lia. rewrite <- Zlt_Qlt.
    by rewrite <- Z.add_1_r in Ha2. }
  assert (pow2 lb <= inject_Z (Z.pos b))%Q as B1.
  { rewrite pow2_Z by done. by rewrite <- Zle_Qle. }
  assert (inject_Z (Z.pos b) < 2 * pow2 lb)%Q as B2.
  { rewrite <- pow2_succ, pow2_Z by lia. rewrite <- Zlt_Qlt.
    by rewrite <- Z.add_1_r in Hb2. }
  pose proof (pow2_pos la) as Pa. pose proof (pow2_pos lb) as Pb.
  pose proof (pow2_pos (la - lb)) as Pe.
  assert (pow2 la == pow2 (la - lb) * pow2 lb)%Q as Hsplit.
  { rewrite <- pow2_add. by replace (la - lb + lb) with la by lia. }
  assert (a # b == inject_Z a / inject_Z (Z.pos b))%Q as Hq' by apply Qmake_Qdiv.
  set (A := inject_Z a) in *. set (B := inject_Z (Z.pos b)) in *.
  assert (0 < B)%Q as HB by (eapply Qlt_le_trans; [exact Pb|exact B1]).
  assert ((a # b) * B == A)%Q as Hmul.
  { rewrite Hq'. field. intros H. rewrite H in HB. by apply Qlt_irrefl in HB. }
  set (v := (a # b)%Q) in *.
  set (pa := pow2 la) in *. set (pb := pow2 lb) in *.
  set (pe := pow2 (la - lb)) in *.
  assert (pe * (1 # 2) < v)%Q as Hlow.
  { apply (Qmult_lt_r _ _ B HB). rewrite Hmul. nra. }
  assert (v < 2 * pe)%Q as Hup.
  { apply (Qmult_lt_r _ _ B HB). rewrite Hmul. nra. }
  destruct (Qle_bool pe v) eqn:Htest.
  - apply Qle_bool_iff in Htest. split; [done|]. by rewrite pow2_succ.
  - assert (v < pe)%Q as Hlt.
    { apply Qnot_le_lt. intros H%Qle_bool_iff. congruence. }
    replace (la - lb - 1 + 1) with (la - lb) by lia. split; [|done].
    assert (pe == 2 * pow2 (la - lb - 1))%Q as Hpe.
    { rewrite <- pow2_succ. by replace (la - lb - 1 + 1) with (la - lb) by lia. }
    lra.
Qed.

(** The last place of a positive number: it has at most 53 bits above
    it, half of it is at most the number times [2^-53] unless it is the
    least last place, and it is at most [2^-53] below 1. *)
Lemma lastPlace_spec (q : Q) :
  (0 < q)%Q →
  -1074 ≤ lastPlace q
  ∧ (q < pow2 (lastPlace q + 53))%Q
  ∧ (pow2 (lastPlace q - 1) <= q * pow2 (-53) + pow2 (-1075))%Q
  ∧ ((q < 1)%Q → lastPlace q ≤ -53).
Proof.
  intros Hq. unfold lastPlace.
  assert (Qabs q = q) as ->.
  { destruct q as [a b]. unfold Qabs. f_equal. apply Z.abs_eq.
    unfold Qlt in Hq. simpl in Hq. lia. }
  destruct (exponent_spec q Hq) as [Hl Hu]. set (l := exponent q) in *.
  split; [lia|]. split; [|split].
  - eapply Qlt_le_trans; [exact Hu|]. apply pow2_le. lia.
  - pose proof (pow2_pos (-53)) as P1. pose proof (pow2_pos (-1075)) as P2.
    destruct (Z.max_spec (l - 52) (-1074)) as [[_ ->]|[_ ->]].
    + change (-1074 - 1) with (-1075). nra.
    + replace (l - 52 - 1) with (l + -53) by lia. rewrite pow2_add. nra.
  - intros H1. assert (l < 0); [|lia].
    apply pow2_lt_inv. change (pow2 0) with 1%Q. by eapply Qle_lt_trans.
Qed.

Lemma scaled (q : Q) (e : Z) : (q / pow2 e * pow2 e == q)%Q.
Proof.
  field. intros H. pose proof (pow2_pos e) as P. rewrite H in P.
  by apply Qlt_irrefl in P.
Qed.

Lemma below_le (q : Q) : (below q <= q)%Q.
Proof.
  unfold below. set (e := lastPlace q). rewrite <- (scaled q e) at 2.
  apply Qmult_le_compat_r; [apply Qfloor_le|]. apply Qlt_le_weak, pow2_pos.
Qed.

Lemma Qfloor_nonneg (t : Q) : (0 <= t)%Q → 0 ≤ Qfloor t.
Proof.
  intros H. pose proof (Qlt_floor t) as Hu.
  assert (0 < Qfloor t + 1); [|lia]. rewrite Zlt_Qlt. by eapply Qle_lt_trans.
Qed.

Lemma scaled_nonneg (q : Q) (e : Z) : (0 <= q)%Q → (0 <= q / pow2 e)%Q.
Proof.
  intros H. apply Qle_shift_div_l; [apply pow2_pos|]. by rewrite Qmult_0_l.
Qed.

Lemma below_nonneg (q : Q) : (0 <= q)%Q → (0 <= below q)%Q.
Proof.
  intros H. unfold below. apply Qmult_le_0_compat.
  - change 0%Q with (inject_Z 0). rewrite <- Zle_Qle.
    by apply Qfloor_nonneg, scaled_nonneg.
  - apply Qlt_le_weak, pow2_pos.
Qed.

(** A double below 1 is at most [1 - 2^-53]. *)
Lemma below_lt_1 (u : Q) :
  (0 <= u)%Q → (u < 1)%Q → (below u <= 1 - pow2 (-53))%Q.
Proof.
  intros H0 H1. destruct (Qlt_le_dec 0 u) as [Hpos|Hzero].
  2: { eapply Qle_trans; [apply below_le|]. eapply Qle_trans; [exact Hzero|].
       by vm_compute. }
  destruct (lastPlace_spec u Hpos) as (_ & Hbits & _ & He).
  specialize (He H1). unfold below. set (e := lastPlace u) in *.
  set (m := Qfloor (u / pow2 e)).
  assert (m < 2 ^ 53) as Hm.
  { rewrite Zlt_Qlt. eapply Qle_lt_trans; [apply Qfloor_le|].
    apply Qlt_shift_div_r; [apply pow2_pos|].
    rewrite <- pow2_Z by done. rewrite <- pow2_add.
    by replace (53 + e) with (e + 53) by lia. }
  assert (0 ≤ m) as Hm0 by by apply Qfloor_nonneg, scaled_nonneg.
  assert (inject_Z m <= inject_Z (2 ^ 53 - 1))%Q as Hm'.
  { rewrite <- Zle_Qle. lia. }
  eapply Qle_trans.
  { apply Qmult_le_compat_r; [exact Hm'|]. apply Qlt_le_weak, pow2_pos. }
  eapply Qle_trans.
  { apply Qmult_le_l; [by vm_compute|]. apply (pow2_le e (-53)). lia. }
  by vm_compute.
Qed.

Lemma nearestEven_bounds (t : Q) :
  Qfloor t ≤ nearestEven t ∧ (inject_Z (nearestEven t) <= t + (1 # 2))%Q.
Proof.
  unfold nearestEven. set (f := Qfloor t).
  pose proof (Qfloor_le t) as Hf. fold f in Hf.
  assert (inject_Z (f + 1) == inject_Z f + 1)%Q as Hf1 by by rewrite inject_Z_plus.
  destruct (t - inject_Z f ?= 1 # 2)%Q eqn:Hc.
  - apply Qeq_alt in Hc. destruct (Z.even f); (split; [lia|]); lra.
  - split; [lia|]. lra.
  - apply Qgt_alt in Hc. split; [lia|]. lra.
Qed.

Lemma nearestEven_zero (t : Q) : (t == 0)%Q → nearestEven t = 0.
Proof.
  intros H. unfold nearestEven.
  assert (Qfloor t = 0) as -> by by rewrite H.
  assert ((t - inject_Z 0 ?= 1 # 2)%Q = Lt) as ->; [|done].
  apply (proj1 (Qlt_alt _ _)). change (inject_Z 0) with 0%Q. lra.
Qed.

Lemma round_zero (q : Q) : (q == 0)%Q → (round q == 0)%Q.
Proof.
  intros H. unfold round. rewrite nearestEven_zero; [ring|].
  generalize (pow2 (lastPlace q)). intros p. rewrite H. unfold Qdiv. ring.
Qed.

Lemma round_nonneg (q : Q) : (0 <= q)%Q → (0 <= round q)%Q.
Proof.
  intros H. unfold round. apply Qmult_le_0_compat.
  - change 0%Q with (inject_Z 0). rewrite <- Zle_Qle.
    etrans; [|apply nearestEven_bounds]. by apply Qfloor_nonneg, scaled_nonneg.
  - apply Qlt_le_weak, pow2_pos.
Qed.

(** Rounding adds at most half a unit in the last place. *)
Lemma round_upper (q : Q) : (round q <= q + pow2 (lastPlace q - 1))%Q.
Proof.
  unfold round. set (e := lastPlace q).
  destruct (nearestEven_bounds (q / pow2 e)) as [_ Hn].
  pose proof (pow2_pos e) as P.
  assert (pow2 e == 2 * pow2 (e - 1))%Q as He.
  { rewrite <- pow2_succ. by replace (e - 1 + 1) with e by lia. }
  pose proof (scaled q e) as Hs.
  set (t := (q / pow2 e)%Q) in *. set (n := inject_Z (nearestEven t)) in *.
  assert (n * pow2 e <= (t + (1 # 2)) * pow2 e)%Q as H.
  { apply Qmult_le_compat_r; [done|]. by apply Qlt_le_weak. }
  lra.
Qed.

(** [Math.random() * n] for a positive integer [n]: the product, rounded,
    is still below [n]. *)
Lemma mul_below_range (u : Q) (n : Z) :
  (0 <= u)%Q → (u < 1)%Q → 1 ≤ n →
  (0 <= mul (below u) (inject_Z n))%Q ∧ (mul (below u) (inject_Z n) < inject_Z n)%Q.
Proof.
  intros H0 H1 Hn. unfold mul.
  pose proof (below_nonneg u H0) as Hd0. pose proof (below_lt_1 u H0 H1) as Hd1.
  set (d := below u) in *.
  assert (1 <= inject_Z n)%Q as HN.
  { change 1%Q with (inject_Z 1). by rewrite <- Zle_Qle. }
  set (N := inject_Z n) in *. set (q := (d * N)%Q).
  assert (0 <= q)%Q as Hq0 by (apply Qmult_le_0_compat; lra).
  split; [by apply round_nonneg|].
  assert (q <= (1 - pow2 (-53)) * N)%Q as Hq1.
  { apply Qmult_le_compat_r; [done|lra]. }
  let c := eval vm_compute in (Qred (pow2 (-53))) in
  assert (pow2 (-53) == c)%Q as E53 by by vm_compute.
  let c := eval vm_compute in (Qred (pow2 (-1075))) in
  assert (pow2 (-1075) == c)%Q as E1075 by by vm_compute.
  destruct (Qlt_le_dec 0 q) as [Hpos|Hzero].
  - eapply Qle_lt_trans; [apply round_upper|].
    destruct (lastPlace_spec q Hpos) as (_ & _ & Hhalf & _).
    eapply Qle_lt_trans; [apply Qplus_le_r, Hhalf|].
    rewrite E53 in *. rewrite E1075. lra.
  - assert (q == 0)%Q as Hq by lra.
    rewrite (round_zero q Hq). lra.
Qed.

Lemma nearestEven_Z (t : Q) (z : Z) : (t == inject_Z z)%Q → nearestEven t = z.
Proof.
  intros H. unfold nearestEven.
  assert (Qfloor t = z) as -> by by rewrite H, Qfloor_Z.
  assert ((t - inject_Z z ?= 1 # 2)%Q = Lt) as ->; [|done].
  apply (proj1 (Qlt_alt _ _)). lra.
Qed.

(** A double, scaled by its last place, is an integer. *)
Lemma isDouble_scaled (q : Q) :
  (0 <= q)%Q → isDouble q →
  ∃ z : Z, (q / pow2 (lastPlace q) == inject_Z z)%Q.
Proof.
  intros H0 (m & e0 & Hm & He0 & Hq).
  destruct (Qlt_le_dec 0 q) as [Hpos|Hzero].
  2: { exists 0. assert (q == 0)%Q as Hz by lra.
       generalize (pow2 (lastPlace q)). intros p. rewrite Hz.
       unfold Qdiv. ring. }
  destruct (lastPlace_spec q Hpos) as (_ & _ & _ & _).
  assert (lastPlace q ≤ e0) as He.
  { unfold lastPlace.
    assert (Qabs q = q) as ->.
    { destruct q as [a b]. unfold Qabs. f_equal. apply Z.abs_eq.
      unfold Qlt in Hpos. simpl in Hpos. lia. }
    destruct (exponent_spec q Hpos) as [Hl _].
    assert (exponent q < 53 + e0); [|lia].
    apply pow2_lt_inv. eapply Qle_lt_trans; [exact Hl|].
    rewrite Hq, pow2_add, (pow2_Z 53) by done.
    apply Qmult_lt_compat_r; [apply pow2_pos|]. rewrite <- Zlt_Qlt. lia. }
  set (e := lastPlace q) in *. exists (m * 2 ^ (e0 - e)).
  rewrite Hq, inject_Z_mult, <- pow2_Z by lia.
  replace e0 with ((e0 - e) + e) at 1 by lia. rewrite pow2_add.
  field. intros H. pose proof (pow2_pos e) as P. rewrite H in P.
  by apply Qlt_irrefl in P.
Qed.

(** A double is cut down to itself: every double that [Math.random] can
    return is a value of the model. A product that is a double is exact. *)
Lemma below_fixes_doubles (q : Q) : (0 <= q)%Q → isDouble q → (below q == q)%Q.
Proof.
  intros H0 Hd. destruct (isDouble_scaled q H0 Hd) as [z Hz].
  unfold below. set (e := lastPlace q) in *.
  assert (Qfloor (q / pow2 e) = z) as -> by by rewrite Hz, Qfloor_Z.
  rewrite <- Hz. apply scaled.
Qed.

Lemma round_fixes_doubles (q : Q) : (0 <= q)%Q → isDouble q → (round q == q)%Q.
Proof.
  intros H0 Hd. destruct (isDouble_scaled q H0 Hd) as [z Hz].
  unfold round. set (e := lastPlace q) in *.
  rewrite (nearestEven_Z _ z Hz), <- Hz. apply scaled.
Qed.

(** What the model takes for the value of [Math.random] is a double. *)
Lemma isDouble_below (q : Q) : (0 <= q)%Q → isDouble (below q).
Proof.
  intros H0. destruct (Qlt_le_dec 0 q) as [Hpos|Hzero].
  2: { exists 0, 0. split; [done|]. split; [done|].
       pose proof (below_le q). pose proof (below_nonneg q H0).
       change (inject_Z 0 * pow2 0)%Q with (0 * 1)%Q. lra. }
  destruct (lastPlace_spec q Hpos) as (He & Hbits & _ & _).
  unfold below. set (e := lastPlace q) in *.
  exists (Qfloor (q / pow2 e)), e. split; [|done].
  assert (0 ≤ Qfloor (q / pow2 e)) as Hm0 by by apply Qfloor_nonneg, scaled_nonneg.
  rewrite Z.abs_eq by done.
  rewrite Zlt_Qlt. eapply Qle_lt_trans; [apply Qfloor_le|].
  apply Qlt_shift_div_r; [apply pow2_pos|].
  rewrite <- pow2_Z by done. rewrite <- pow2_add.
  by replace (53 + e) with (e + 53) by lia.
Qed.

(** Two products at which the rounding shows: [3 * u] lies halfway between
    1 and the next double and is rounded to 1, and [7 * u] is rounded up
    to 4. *)
Lemma product_ties_to_even :
  (mul (3002399751580331 # 9007199254740992) 3 == 1)%Q.
Proof. by vm_compute. Qed.

Lemma product_rounds_up :
  (mul (2573485501354569 # 4503599627370496) 7 == 4)%Q
  ∧ (4 > (2573485501354569 # 4503599627370496) * 7)%Q.
Proof. by vm_compute. Qed.

End DoubleFacts.

(** ** The weighted choice of [observe] *)

Module ChooseFacts.
Import ConstraintSolver LearnerSpec SolverSpec BitmaskFacts WaveFacts LearnerFacts.

Lemma total_cons weights (p : nat) ps :
  total weights (p :: ps) = default 0 (weights !! p) + total weights ps.
Proof. done. Qed.

Lemma runningSum_0 weights (p : nat) ps :
  runningSum weights (p :: ps) 0 = default 0 (weights !! p).
Proof.
  unfold runningSum. rewrite firstn_cons, take_0, total_cons.
  unfold total, sumZ. simpl. lia.
Qed.

Lemma runningSum_S weights (p : nat) ps (i : nat) :
  runningSum weights (p :: ps) (S i)
  = default 0 (weights !! p) + runningSum weights ps i.
Proof. unfold runningSum. by rewrite firstn_cons, total_cons. Qed.

Lemma totalWeight_defined (weights : list Z) ps (c : Z) :
  Forall (λ p, is_Some (weights !! p)) ps →
  foldl addWeight (Some c) ((λ i, weights !! i) <$> ps)
  = Some (c + total weights ps).
Proof.
  revert c. induction ps as [|p ps IH]; intros c Hps.
  { simpl. f_equal. unfold total. simpl. lia. }
  apply Forall_cons in Hps as [[w Hw] Hps].
  rewrite fmap_cons, total_cons. simpl. rewrite Hw. simpl.
  rewrite IH by done. f_equal. lia.
Qed.


Lemma total_nonneg (weights : list Z) ps :
  Forall (λ p, ∃ w, weights !! p = Some w ∧ 0 < w) ps →
  0 ≤ total weights ps.
Proof.
  induction 1 as [|p ps (w & Hw & Hpos) _ IH]; [done|].
  rewrite total_cons, Hw. simpl. lia.
Qed.

(** The loop picks the first pattern whose running sum has reached the
    draw, provided the draw is not above the total. *)
Lemma choose_first (weights : list Z) ps (c : Z) (r : Q) :
  ps ≠ [] →
  Forall (λ p, ∃ w, weights !! p = Some w ∧ 0 < w) ps →
  (r <= inject_Z (c + total weights ps))%Q →
  ∃ i p,
    ps !! i = Some p
    ∧ choose (Some r) (Some c) ps ((λ i, weights !! i) <$> ps) = Some p
    ∧ (r <= inject_Z (c + runningSum weights ps i))%Q
    ∧ ∀ i', (i' < i)%nat → (inject_Z (c + runningSum weights ps i') < r)%Q.
Proof.
  revert c. induction ps as [|p ps IH]; intros c Hne Hps Hr; [done|].
  apply Forall_cons in Hps as [(w & Hw & Hpos) Hps].
  rewrite fmap_cons. simpl. rewrite Hw. simpl.
  destruct (Qle_bool r (inject_Z (c + w))) eqn:Hle.
  - exists 0%nat, p. split; [done|]. split; [done|].
    rewrite runningSum_0, Hw. simpl. split; [by apply Qle_bool_iff|].
    intros i' Hi'. lia.
  - assert (inject_Z (c + w) < r)%Q as Hlt.
    { apply Qnot_le_lt. intros H%Qle_bool_iff. congruence. }
    rewrite total_cons, Hw in Hr. simpl in Hr.
    destruct (decide (ps = [])) as [->|Hne'].
    { exfalso. unfold total in Hr. simpl in Hr.
      replace (c + (w + 0)) with (c + w) in Hr by lia.
      by apply (Qlt_irrefl r), (Qle_lt_trans _ (inject_Z (c + w))). }
    destruct (IH (c + w) Hne' Hps) as (i & p' & Hi & Hch & Hge & Hbefore).
    { by rewrite <- Z.add_assoc. }
    exists (S i), p'. split; [done|]. split; [done|].
    rewrite runningSum_S, Hw. simpl. split.
    + by rewrite Z.add_assoc.
    + intros [|i'] Hi'.
      * by rewrite runningSum_0, Hw.
      * rewrite runningSum_S, Hw. simpl. rewrite Z.add_assoc.
        apply Hbefore. lia.
Qed.

(** The draw of [observe]: the product [Math.random() * totalWeight] as
    the Number it is, for a random number in [0, 1). It is not above the
    total, and below it when the total is 1 or more. *)
Lemma draw_below_total (random : nat → Q) (d : nat) (T : Z) :
  (0 <= random d)%Q → (random d < 1)%Q → 0 ≤ T →
  (0 <= randomTimes random d T)%Q
  ∧ (randomTimes random d T <= inject_Z T)%Q
  ∧ (1 ≤ T → (randomTimes random d T < inject_Z T)%Q).
Proof.
  intros Hu0 Hu1 HT. unfold randomTimes, mathRandom.
  destruct (decide (T = 0)) as [->|HT0].
  - assert (Double.mul (Double.below (random d)) (inject_Z 0) == 0)%Q as Hz.
    { apply DoubleFacts.round_zero. change (inject_Z 0) with 0%Q. ring. }
    rewrite Hz. split; [done|]. split; [done|lia].
  - destruct (DoubleFacts.mul_below_range (random d) T Hu0 Hu1) as [H0 H1];
      [lia|].
    split; [done|]. split; [by apply Qlt_le_weak|done].
Qed.

End ChooseFacts.

Import ConstraintSolver SolverSpec BitmaskFacts WaveFacts PropagateFacts
  ObserveFacts SolveFacts ChooseFacts.

(** ** Observation *)

(** The choice of [observe] for a cell that is not empty and whose patterns
    all have a positive weight, for a draw in [0, 1): it returns, with the
    first pattern whose running sum has reached the draw. *)
Lemma observe_chooses (random : nat → Q) (y x : Z) (weights : list Z)
    (st : state) (cell : Bitmask.t) :
  cellAt (waveMatrix st) y x = Ok cell →
  cell ≠ 0%N →
  (∀ i, Bitmask.test cell i = true → ∃ w, weights !! i = Some w ∧ 0 < w) →
  (0 <= random (draws st))%Q → (random (draws st) < 1)%Q →
  let possible := Bitmask.toArray cell in
  let r := randomTimes random (draws st) (total weights possible) in
  ∃ i p,
    possible !! i = Some p
    ∧ (r <= inject_Z (runningSum weights possible i))%Q
    ∧ (∀ i', (i' < i)%nat →
             (inject_Z (runningSum weights possible i') < r)%Q)
    ∧ observe random y x weights st
      = Ok (mkState (setCell (waveMatrix st) y x
                             (Bitmask.setBit (Bitmask.clear cell) p))
                    (S (draws st))).
Proof.
  intros Hcell Hne Hweights Hu0 Hu1 possible r.
  assert (Forall (λ p, ∃ w, weights !! p = Some w ∧ 0 < w) possible) as Hps.
  { apply Forall_forall. intros p Hp. by apply Hweights, elem_of_toArray. }
  assert (possible ≠ []) as Hpossible.
  { intros H%toArray_nil. done. }
  destruct (choose_first weights possible 0 r Hpossible Hps)
    as (i & p & Hi & Hchoose & Hge & Hbefore).
  { rewrite Z.add_0_l.
    apply (draw_below_total random (draws st)); [done..|].
    by apply total_nonneg. }
  exists i, p. split; [done|].
  split; [by rewrite Z.add_0_l in Hge|]. split.
  { intros i' Hi'. specialize (Hbefore i' Hi').
    by rewrite Z.add_0_l in Hbefore. }
  unfold observe. rewrite Hcell, bind_Ok. cbn zeta.
  rewrite totalWeight_defined, Z.add_0_l.
  - simpl fmap. fold possible. fold r. by rewrite Hchoose.
  - eapply Forall_impl; [exact Hps|]. intros q (w & -> & _). by eexists.
Qed.



(** ** Confluence of propagation *)

Module Confluence.
Import ConstraintSolver LearnerSpec SolverSpec BitmaskFacts WaveFacts PropagateFacts LearnerFacts.

(** The run of [propagate] is one of these runs. *)
Lemma propagateLoop_sweep adj (fuel : nat) (w wf : wave) q :
  propagateLoop fuel adj w q = Some (Ok (false, wf)) → sweep adj w q wf.
Proof.
  revert w q. induction fuel as [|fuel IH]; intros w q H; [done|].
  rewrite propagateLoop_unfold in H. destruct q as [|front rest].
  { simplify_eq. constructor. }
  destruct (dequeueAndVisit adj w front rest) as [[[[|] w1] q1]|e] eqn:Hv;
    [done| |done].
  eapply sweep_step; [done|exact Hv|done|by apply IH].
Qed.

Lemma inBounds_subwave (w' w : wave) (y x : Z) :
  subwave w' w → inBounds w' y x ↔ inBounds w y x.
Proof.
  intros Hsub. unfold inBounds. rewrite (subwave_length _ _ Hsub).
  split; intros [Hy (row0 & Hrow0 & Hx)]; (split; [done|]).
  - destruct (Forall2_lookup_l _ _ _ _ _ Hsub Hrow0) as (r & Hr & Hrr).
    exists r. split; [done|]. by rewrite <- (Forall2_length _ _ _ Hrr).
  - destruct (Forall2_lookup_r _ _ _ _ _ Hsub Hrow0) as (r & Hr & Hrr).
    exists r. split; [done|]. by rewrite (Forall2_length _ _ _ Hrr).
Qed.

(** The union holds exactly the patterns that the masks of the listed
    patterns hold. *)
Lemma unionOfAdjacent_test adj (k : nat) l M (j : nat) :
  unionOfAdjacent adj k l = Ok M →
  Bitmask.test M j = true ↔
  ∃ i row m, i ∈ l ∧ adj !! i = Some row ∧ row !! k = Some m
             ∧ Bitmask.test m j = true.
Proof.
  unfold unionOfAdjacent.
  assert (∀ acc,
    foldM (λ i acc, row ← defined (adj !! i); m ← defined (row !! k);
                    Ok (Bitmask.combineWith acc m)) l acc = Ok M →
    Bitmask.test M j = true ↔
    Bitmask.test acc j = true
    ∨ ∃ i row m, i ∈ l ∧ adj !! i = Some row ∧ row !! k = Some m
                 ∧ Bitmask.test m j = true) as Hgen.
  { induction l as [|i l IH]; intros acc H; simpl in H.
    - simplify_eq. split; [by left|]. intros [?|(? & ? & ? & []%elem_of_nil & _)].
      done.
    - destruct (adj !! i) as [row|] eqn:Hrow; simpl in H; [|done].
      destruct (row !! k) as [m|] eqn:Hm; simpl in H; [|done].
      rewrite (IH _ H), test_combineWith, orb_true_iff. split.
      + intros [[?|?]|(i' & row' & m' & Hi' & ?)]; [by left|right..].
        * exists i, row, m. split; [apply list_elem_of_here|done].
        * exists i', row', m'. split; [by apply list_elem_of_further|done].
      + intros [?|(i' & row' & m' & Hi' & Hrow' & Hm' & Hj)]; [by left; left|].
        apply elem_of_cons in Hi' as [->|Hi'].
        * left. right. by simplify_eq.
        * right. by exists i', row', m'. }
  intros H. rewrite (Hgen _ H).
  assert (Bitmask.test (Bitmask.new (length adj)) j = false) as ->
    by apply N.bits_0.
  split; [by intros [?|?]|by right].
Qed.

Lemma unionOfAdjacent_mono adj (k : nat) l1 l2 M1 M2 :
  (∀ i, i ∈ l1 → i ∈ l2) →
  unionOfAdjacent adj k l1 = Ok M1 → unionOfAdjacent adj k l2 = Ok M2 →
  submask M1 M2.
Proof.
  intros Hsub H1 H2 j.
  rewrite (unionOfAdjacent_test _ _ _ _ _ H1).
  rewrite (unionOfAdjacent_test _ _ _ _ _ H2).
  intros (i & row & m & Hi & ?). exists i, row, m. split; [auto|done].
Qed.

Lemma toArray_submask (a b : Bitmask.t) (i : nat) :
  submask a b → i ∈ Bitmask.toArray a → i ∈ Bitmask.toArray b.
Proof. rewrite !elem_of_toArray. intros H. apply H. Qed.

Lemma neighbour_fun (y1 x1 : Z) (k : nat) p p' :
  neighbour y1 x1 k = Some p → neighbour y1 x1 k = Some p' → p = p'.
Proof. congruence. Qed.

(** After a visit without contradiction, every neighbour in bounds is
    below the union that its direction allows. *)
Lemma visit_constrains adj (y1 x1 : Z) cell1 ks (w w' : wave) q q' :
  visit adj y1 x1 cell1 ks w q = Ok (false, w', q') →
  ∀ k y2 x2,
    k ∈ ks → neighbour y1 x1 k = Some (y2, x2) → inBounds w y2 x2 →
    ∃ cell2 M,
      cellAt w' y2 x2 = Ok cell2
      ∧ unionOfAdjacent adj k cell1 = Ok M
      ∧ submask cell2 M.
Proof.
  revert w q. induction ks as [|k0 ks IH]; intros w q H k y2 x2 Hk Hn Hb.
  { by apply elem_of_nil in Hk. }
  simpl in H.
  destruct (relax adj y1 x1 cell1 k0 w q) as [[[c1 w1] q1]|] eqn:Hrelax;
    [|done].
  rewrite bind_Ok in H. cbn beta iota in H.
  destruct c1; [done|].
  pose proof (relax_step_ok _ _ _ _ _ _ _ _ _ _ Hrelax) as (Hsub1 & _ & _).
  pose proof (visit_step_ok _ _ _ _ _ _ _ _ _ _ H) as (Hsub & _ & _).
  apply elem_of_cons in Hk as [->|Hk].
  - apply relax_cases in Hrelax
      as (y2' & x2' & Hn' & [(Hout & _)|(_ & cell2 & M & Hc2 & HM & Hcases)]).
    { rewrite Hn in Hn'. by simplify_eq. }
    rewrite Hn in Hn'. simplify_eq.
    destruct Hcases as [(_ & ? & _)|[(Hsame & _ & _ & -> & _)|
                        (_ & _ & _ & -> & _)]]; [done|..].
    + destruct (subwave_cellAt _ _ _ _ _ Hsub Hc2) as (c' & Hc' & Hcc).
      exists c', M. split; [done|]. split; [done|].
      eapply submask_trans; [exact Hcc|].
      rewrite <- Hsame. apply submask_AND_r.
    + pose proof (cellAt_setCell_eq _ _ _ _ (Bitmask.AND cell2 M) Hc2) as Hnew.
      destruct (subwave_cellAt _ _ _ _ _ Hsub Hnew) as (c' & Hc' & Hcc).
      exists c', M. split; [done|]. split; [done|].
      eapply submask_trans; [exact Hcc|apply submask_AND_r].
  - eapply IH; [exact H|done..|]. by apply (inBounds_subwave _ _ _ _ Hsub1).
Qed.

(** A visit keeps the queue it was given, enqueues only cells that it made
    smaller, and enqueues every cell that it changed. *)
Lemma visit_enqueues adj (y1 x1 : Z) cell1 ks (w w' : wave) q q' c :
  visit adj y1 x1 cell1 ks w q = Ok (c, w', q') →
  (∀ p, p ∈ q → p ∈ q')
  ∧ (∀ p, p ∈ q' →
       p ∈ q ∨ ∃ cw cw', cellAt w p.1 p.2 = Ok cw
                         ∧ cellAt w' p.1 p.2 = Ok cw' ∧ (cw' < cw)%N)
  ∧ (∀ y x cw cw',
       cellAt w y x = Ok cw → cellAt w' y x = Ok cw' → cw' ≠ cw →
       (y, x) ∈ q').
Proof.
  revert w q. induction ks as [|k0 ks IH]; intros w q H.
  { simpl in H. simplify_eq. split; [done|]. split; [by left|].
    intros y x cw cw' H1 H2 Hne. congruence. }
  simpl in H.
  destruct (relax adj y1 x1 cell1 k0 w q) as [[[c1 w1] q1]|] eqn:Hrelax;
    [|done].
  rewrite bind_Ok in H. cbn beta iota in H.
  pose proof (relax_step_ok _ _ _ _ _ _ _ _ _ _ Hrelax) as (Hsub1 & _ & _).
  assert (∃ wr qr, (if c1 then w1 = w' ∧ q1 = q' else
                      visit adj y1 x1 cell1 ks w1 q1 = Ok (c, w', q'))
                   ∧ wr = w1 ∧ qr = q1) as (wr & qr & Hrest & -> & ->).
  { exists w1, q1. destruct c1; [by simplify_eq|done]. }
  assert ((∀ p, p ∈ q1 → p ∈ q')
          ∧ (∀ p, p ∈ q' →
               p ∈ q1 ∨ ∃ cw cw', cellAt w1 p.1 p.2 = Ok cw
                                  ∧ cellAt w' p.1 p.2 = Ok cw'
                                  ∧ (cw' < cw)%N)
          ∧ (∀ y x cw cw',
               cellAt w1 y x = Ok cw → cellAt w' y x = Ok cw' → cw' ≠ cw →
               (y, x) ∈ q')
          ∧ subwave w' w1) as (R1 & R2 & R3 & Hsub).
  { destruct c1.
    - destruct Hrest as [-> ->]. split; [done|]. split; [by left|].
      split; [|apply subwave_refl]. intros y x cw cw' H1 H2 Hne. congruence.
    - destruct (IH _ _ Hrest) as (? & ? & ?).
      pose proof (visit_step_ok _ _ _ _ _ _ _ _ _ _ Hrest) as (? & _ & _).
      done. }
  clear Hrest H IH.
  apply relax_cases in Hrelax
    as (y2 & x2 & Hn & [(_ & _ & -> & ->)|(_ & cell2 & M & Hc2 & HM & Hcases)]);
    [done|].
  destruct Hcases as [(_ & _ & -> & ->)|[(_ & _ & _ & -> & ->)|
                      (Hne0 & Hneq & _ & -> & ->)]]; [done..|].
  pose proof (submask_lt _ _ (submask_AND_l cell2 M) Hneq) as Hlt.
  pose proof (cellAt_setCell_eq _ _ _ _ (Bitmask.AND cell2 M) Hc2) as Hnew.
  pose proof Hc2 as (Hy2 & Hx2 & _)%cellAt_Ok.
  split; [|split].
  - intros p Hp. apply R1, elem_of_app. by left.
  - intros p [Hp|(cw & cw' & H1 & H2 & Hlt')]%R2.
    + apply elem_of_app in Hp as [Hp|Hp]; [by left|].
      apply list_elem_of_singleton in Hp as ->. right. simpl.
      destruct (subwave_cellAt _ _ _ _ _ Hsub Hnew) as (c' & Hc' & Hcc).
      exists cell2, c'. split; [done|]. split; [done|].
      apply submask_le in Hcc. lia.
    + right. destruct (subwave_cellAt_l _ _ _ _ _ Hsub1 H1) as (c0 & Hc0 & Hcc).
      exists c0, cw'. split; [done|]. split; [done|].
      apply submask_le in Hcc. lia.
  - intros y x cw cw' H1 H2 Hne.
    destruct (decide ((y, x) = (y2, x2))) as [Heq|Hdiff].
    + rewrite Heq. apply R1, elem_of_app. right. apply list_elem_of_here.
    + eapply R3; [|exact H2|exact Hne].
      by rewrite cellAt_setCell_ne.
Qed.

(** A wave below the one visited, whose cells next to the visited cell
    are already below the unions the visit computes, stays below the wave
    after the visit. *)
Lemma visit_keeps_below adj (y1 x1 : Z) cell1 ks (w w' : wave) q q' c F :
  visit adj y1 x1 cell1 ks w q = Ok (c, w', q') →
  subwave F w →
  (∀ k y2 x2 M cF,
     k ∈ ks → neighbour y1 x1 k = Some (y2, x2) → inBounds F y2 x2 →
     unionOfAdjacent adj k cell1 = Ok M →
     cellAt F y2 x2 = Ok cF → submask cF M) →
  subwave F w'.
Proof.
  revert w q. induction ks as [|k0 ks IH]; intros w q H HF Hstable.
  { simpl in H. by simplify_eq. }
  simpl in H.
  destruct (relax adj y1 x1 cell1 k0 w q) as [[[c1 w1] q1]|] eqn:Hrelax;
    [|done].
  rewrite bind_Ok in H. cbn beta iota in H.
  assert (subwave F w1) as HF1.
  { apply relax_cases in Hrelax
      as (y2 & x2 & Hn & [(_ & _ & -> & _)|(Hb & cell2 & M & Hc2 & HM & Hcases)]);
      [done|].
    destruct Hcases as [(_ & _ & -> & _)|[(_ & _ & _ & -> & _)|
                        (_ & _ & _ & -> & _)]]; [done..|].
    pose proof Hc2 as (Hy2 & Hx2 & _)%cellAt_Ok.
    apply subwave_setCell_r; [done| |done..].
    intros cF HcF. apply submask_AND.
    - destruct (subwave_cellAt_l _ _ _ _ _ HF HcF) as (c0 & Hc0 & Hcc).
      rewrite Hc2 in Hc0. by simplify_eq.
    - eapply (Hstable k0); [apply list_elem_of_here|done| |done..].
      by apply (inBounds_subwave _ _ _ _ HF). }
  destruct c1; [by simplify_eq|].
  eapply IH; [exact H|done|].
  intros k y2 x2 M cF Hk. apply Hstable. by apply list_elem_of_further.
Qed.

Lemma dequeueAndVisit_inv adj (w w' : wave) front rest q' c :
  dequeueAndVisit adj w front rest = Ok (c, w', q') →
  ∃ cell1,
    cellAt w front.1 front.2 = Ok cell1
    ∧ visit adj front.1 front.2 (Bitmask.toArray cell1)
            (seq 0 (length DIRECTIONS)) w rest = Ok (c, w', q').
Proof.
  unfold dequeueAndVisit. intros H.
  destruct (cellAt w front.1 front.2) as [cell1|]; [|done].
  by exists cell1.
Qed.

(** What the end of a run satisfies: it is below the start, every cell
    that was in the work list constrains its neighbours, and so does
    every cell that the run changed. *)
Lemma sweep_facts adj (w wf : wave) q :
  sweep adj w q wf →
  subwave wf w
  ∧ (∀ p, p ∈ q → stable adj wf p)
  ∧ (∀ y x cw cf,
       cellAt w y x = Ok cw → cellAt wf y x = Ok cf → cf ≠ cw →
       stable adj wf (y, x)).
Proof.
  induction 1 as [w|w q front rest w' q' q'' wf Hq Hv Hq' _ IH].
  { split; [apply subwave_refl|]. split.
    - intros p []%elem_of_nil.
    - intros y x cw cf H1 H2 Hne. congruence. }
  destruct IH as (Hsub' & Hqueue & Hchanged).
  apply dequeueAndVisit_inv in Hv as (cell1 & Hcell1 & Hv).
  pose proof (visit_step_ok _ _ _ _ _ _ _ _ _ _ Hv) as (Hsub & _ & _).
  pose proof (visit_enqueues _ _ _ _ _ _ _ _ _ _ Hv) as (E1 & _ & E3).
  assert (subwave wf w) as Hsubf by by eapply subwave_trans.
  assert (∀ y x cw cf,
            cellAt w y x = Ok cw → cellAt wf y x = Ok cf → cf ≠ cw →
            stable adj wf (y, x)) as Hchanged0.
  { intros y x cw cf Hcw Hcf Hne.
    destruct (subwave_cellAt _ _ _ _ _ Hsub Hcw) as (cw' & Hcw' & _).
    destruct (decide (cw' = cw)) as [->|Hne'].
    - by eapply Hchanged.
    - apply Hqueue. rewrite <- Hq'. by eapply E3. }
  split; [done|]. split; [|done].
  intros p Hp. rewrite Hq in Hp. apply elem_of_cons in Hp as [->|Hp].
  2: { apply Hqueue. rewrite <- Hq'. by apply E1. }
  destruct (subwave_cellAt _ _ _ _ _ Hsubf Hcell1) as (cf & Hcf & _).
  destruct (decide (cf = cell1)) as [->|Hne].
  2: { destruct front as [y x]. by eapply Hchanged0. }
  exists cell1. split; [done|].
  intros k y2 x2 Hk Hn Hb.
  apply (inBounds_subwave _ _ _ _ Hsubf) in Hb.
  destruct (visit_constrains _ _ _ _ _ _ _ _ _ Hv k y2 x2 Hk Hn Hb)
    as (cell2 & M & Hc2 & HM & Hcm).
  destruct (subwave_cellAt _ _ _ _ _ Hsub' Hc2) as (c2 & Hc2' & Hcc).
  exists c2, M. split; [done|]. split; [done|].
  by eapply submask_trans.
Qed.

(** A wave below the start of a run that already has what the end of a
    run has is below the end of the run. *)
Lemma sweep_above adj (w wf : wave) q :
  sweep adj w q wf →
  ∀ F,
    subwave F w →
    (∀ p, p ∈ q → stable adj F p) →
    (∀ y x cw cF,
       cellAt w y x = Ok cw → cellAt F y x = Ok cF → cF ≠ cw →
       stable adj F (y, x)) →
    subwave F wf.
Proof.
  induction 1 as [w|w q front rest w' q' q'' wf Hq Hv Hq' _ IH];
    intros F HF Hqueue Hchanged; [done|].
  apply dequeueAndVisit_inv in Hv as (cell1 & Hcell1 & Hv).
  pose proof (visit_step_ok _ _ _ _ _ _ _ _ _ _ Hv) as (Hsub & _ & _).
  pose proof (visit_enqueues _ _ _ _ _ _ _ _ _ _ Hv) as (_ & E2 & _).
  assert (subwave F w') as HF'.
  { eapply visit_keeps_below; [exact Hv|done|].
    intros k y2 x2 M cF Hk Hn Hb HM HcF.
    destruct (Hqueue front) as (cellF & HcellF & Hstable).
    { rewrite Hq. apply list_elem_of_here. }
    destruct (Hstable k y2 x2 Hk Hn Hb) as (c2 & MF & Hc2 & HMF & Hcm).
    rewrite HcF in Hc2. simplify_eq.
    eapply submask_trans; [exact Hcm|].
    eapply unionOfAdjacent_mono; [|exact HMF|exact HM].
    intros i. apply toArray_submask.
    destruct (subwave_cellAt_l _ _ _ _ _ HF HcellF) as (c0 & Hc0 & Hcc).
    rewrite Hcell1 in Hc0. by simplify_eq. }
  apply IH; [done|..].
  - intros p Hp. rewrite <- Hq' in Hp.
    apply E2 in Hp as [Hp|(cw & cw' & Hcw & Hcw' & Hlt)].
    { apply Hqueue. rewrite Hq. by apply list_elem_of_further. }
    destruct (subwave_cellAt _ _ _ _ _ HF' Hcw') as (cF & HcF & Hcc).
    destruct p as [y x]. eapply Hchanged; [exact Hcw|exact HcF|].
    apply submask_le in Hcc. simpl in *. lia.
  - intros y x cw' cF Hcw' HcF Hne.
    destruct (subwave_cellAt_l _ _ _ _ _ Hsub Hcw') as (cw & Hcw & Hcc).
    destruct (decide (cF = cw)) as [->|Hne']; [|by eapply Hchanged].
    destruct Hne. apply submask_antisym; [|done].
    destruct (subwave_cellAt _ _ _ _ _ HF' Hcw') as (c & Hc & Hccc).
    rewrite HcF in Hc. by simplify_eq.
Qed.

(** Two runs from the same wave and the same cells to visit end in the
    same wave. *)
Lemma sweep_confluent adj (w w1 w2 : wave) q q' :
  q ≡ₚ q' → sweep adj w q w1 → sweep adj w q' w2 → w1 = w2.
Proof.
  intros Hq H1 H2.
  destruct (sweep_facts _ _ _ _ H1) as (S1 & Q1 & C1).
  destruct (sweep_facts _ _ _ _ H2) as (S2 & Q2 & C2).
  apply subwave_antisym.
  - eapply sweep_above; [exact H2|done| |done].
    intros p Hp. apply Q1. by rewrite Hq.
  - eapply sweep_above; [exact H1|done| |done].
    intros p Hp. apply Q2. by rewrite <- Hq.
Qed.

End Confluence.

Import Confluence.

(** ** Presets and contradictions *)

(** C2, at a call whose presets contradict each other. With the model
    learned from the stripes image, a 2x1 grid and both cells preset to
    pattern 0 (which cannot sit next to itself horizontally), [solve]
    returns [true] on its first attempt with the wave [{0}, {1}]: the
    presets are not applied (the cell at x = 1 holds pattern 1) and nothing
    is reported as unsatisfiable. *)
Lemma solve_with_conflicting_presets_returns_true :
  solve (λ _, 0%Q) (λ _, Finite 1) 20 [stripe01; stripe10] [4; 2]
        [[0; 0; 2; 2]%N; [0; 0; 1; 1]%N] [(0, 0, 1%N); (1, 0, 1%N)] 2 1 10 0
  = Some (Ok (mkOutcome true (mkState [[1; 2]%N] 3) 1)).
Proof. by vm_compute. Qed.

(** The parameter [setTiles] is documented but the body of [solve] never
    reads it: the result is the same for every list of presets. *)
Lemma solve_does_not_read_setTiles (random : nat → Q)
    (entropyOf : list (option Z) → number) (fuel : nat) {pattern : Type}
    (patterns : list pattern) (weights : list Z) (adjacencies : adjacency)
    (setTiles : list SetTileInstruction) (width height maxAttempts : Z)
    (draws0 : nat) :
  solve random entropyOf fuel patterns weights adjacencies setTiles
        width height maxAttempts draws0
  = solve random entropyOf fuel patterns weights adjacencies []
          width height maxAttempts draws0.
Proof. done. Qed.

(** What the missing self-adjacency costs: with the model learned from the
    uniform image every attempt on a 5x5 grid ends in a contradiction (the
    neighbours of the observed cell are left without a pattern), and
    [solve] gives up after its ten attempts. *)
Lemma uniform_model_never_solved (entropyOf : list (option Z) → number) :
  ∃ st,
    solve (λ _, 0%Q) entropyOf 20 [zeros] [1] [[0; 0; 0; 0]%N] [] 5 5 10 0
    = Some (Ok (mkOutcome false st 11)).
Proof. eexists. by vm_compute. Qed.

(** ** Well-formed inputs: [solve] does not throw *)

Module Safety.
Import ConstraintSolver LearnerSpec SolverSpec BitmaskFacts WaveFacts PropagateFacts ObserveFacts
  SolveFacts ChooseFacts Confluence.

Lemma randomBelow_range (random : nat → Q) (d : nat) (n : Z) :
  (0 <= random d)%Q → (random d < 1)%Q → 1 ≤ n →
  0 ≤ randomBelow random d n < n.
Proof.
  intros Hu0 Hu1 Hn. unfold randomBelow, randomTimes, mathRandom.
  destruct (DoubleFacts.mul_below_range (random d) n Hu0 Hu1 Hn) as [Hv0 Hv1].
  set (v := Double.mul (Double.below (random d)) (inject_Z n)) in *.
  pose proof (Qfloor_le v) as Hfl. pose proof (Qlt_floor v) as Hfu.
  split.
  - assert (0 < Qfloor v + 1); [|lia].
    rewrite Zlt_Qlt. by eapply Qle_lt_trans.
  - rewrite Zlt_Qlt. by eapply Qle_lt_trans.
Qed.

Section Safe.
Variable random : nat → Q.
Variable entropyOf : list (option Z) → number.
Variable numPatterns : nat.
Variable weights : list Z.
Variable adjacencies : adjacency.
Variables width height maxAttempts : Z.

Hypothesis random_range : ∀ n, (0 <= random n)%Q ∧ (random n < 1)%Q.
Hypothesis patterns_nonempty : (1 ≤ numPatterns)%nat.
Hypothesis weights_positive :
  ∀ i, (i < numPatterns)%nat → ∃ w, weights !! i = Some w ∧ 0 < w.
Hypothesis adjacencies_shape :
  ∀ i k, (i < numPatterns)%nat → (k < 4)%nat →
         ∃ row m, adjacencies !! i = Some row ∧ row !! k = Some m.
Hypothesis width_positive : 1 ≤ width.
Hypothesis height_positive : 1 ≤ height.

Let fresh : wave := initializeWaveMatrix numPatterns width height.
Let full : Bitmask.t :=
  foldl Bitmask.setBit (Bitmask.new numPatterns) (seq 0 numPatterns).

Let good := SolverSpec.good numPatterns width height.

Lemma fresh_good : good fresh.
Proof.
  split; [apply subwave_refl|].
  by apply initializeWaveMatrix_nonempty.
Qed.

Lemma fresh_cellAt (y x : Z) (c : Bitmask.t) :
  cellAt fresh y x = Ok c ↔ (0 ≤ y < height ∧ 0 ≤ x < width) ∧ c = full.
Proof.
  rewrite cellAt_Ok. unfold fresh, initializeWaveMatrix.
  fold full. unfold Bitmask.createCopy. split.
  - intros (Hy & Hx & row & [-> Hy']%lookup_replicate
            & [-> Hx']%lookup_replicate). split; [lia|done].
  - intros [[Hy Hx] ->]. split; [lia|]. split; [lia|].
    eexists. split; apply lookup_replicate; (split; [done|lia]).
Qed.

Lemma good_cellAt (w : wave) (y x : Z) :
  good w → 0 ≤ y < height → 0 ≤ x < width → ∃ c, cellAt w y x = Ok c.
Proof.
  intros [Hsub _] Hy Hx.
  destruct (subwave_cellAt w fresh y x full Hsub) as (c & Hc & _).
  { by apply fresh_cellAt. }
  by exists c.
Qed.

Lemma good_range (w : wave) (y x : Z) (c : Bitmask.t) :
  good w → cellAt w y x = Ok c →
  (0 ≤ y < height ∧ 0 ≤ x < width) ∧ c ≠ 0%N
  ∧ ∀ i, Bitmask.test c i = true → (i < numPatterns)%nat.
Proof.
  intros [Hsub Hne] Hc.
  destruct (subwave_cellAt_l _ _ _ _ _ Hsub Hc) as (c0 & Hc0 & Hcc).
  apply fresh_cellAt in Hc0 as [Hrange ->].
  split; [done|]. split; [by eapply allNonempty_cellAt|].
  intros i Hi%Hcc. unfold full in Hi.
  rewrite allPatternsPossible_test in Hi.
  by apply bool_decide_eq_true in Hi.
Qed.

Lemma good_inBounds (w : wave) (y x : Z) :
  good w → inBounds w y x → 0 ≤ y < height ∧ 0 ≤ x < width.
Proof.
  intros [Hsub _] Hb%(inBounds_subwave _ _ _ _ Hsub).
  destruct Hb as [Hy (row0 & Hrow0 & Hx)].
  unfold fresh, initializeWaveMatrix in Hy, Hrow0.
  rewrite length_replicate in Hy.
  apply lookup_replicate in Hrow0 as [-> _].
  rewrite length_replicate in Hx. lia.
Qed.

Lemma good_shrink (w w' : wave) :
  good w → subwave w' w → (allNonempty w → allNonempty w') → good w'.
Proof.
  intros [Hsub Hne] Hsub' Hne'. split; [by eapply subwave_trans|auto].
Qed.

Lemma observe_safe (y x : Z) (st : state) (c : Bitmask.t) :
  good (waveMatrix st) → cellAt (waveMatrix st) y x = Ok c →
  ∃ st', observe random y x weights st = Ok st' ∧ good (waveMatrix st').
Proof.
  intros Hgood Hc.
  destruct (good_range _ _ _ _ Hgood Hc) as (_ & Hne & Hbits).
  destruct (random_range (draws st)) as [Hu0 Hu1].
  destruct (observe_chooses random y x weights st c Hc Hne) as
    (_ & p & _ & _ & _ & Hobs); [|done..|].
  { intros i Hi. by apply weights_positive, Hbits. }
  eexists. split; [exact Hobs|].
  apply observe_shrinks in Hobs as [? ?]. by eapply good_shrink.
Qed.

Lemma unionOfAdjacent_safe (k : nat) (l : list nat) :
  (k < 4)%nat → (∀ i, i ∈ l → (i < numPatterns)%nat) →
  ∃ M, unionOfAdjacent adjacencies k l = Ok M.
Proof.
  intros Hk. unfold unionOfAdjacent.
  generalize (Bitmask.new (length adjacencies)).
  induction l as [|i l IH]; intros acc Hl; simpl; [by eexists|].
  destruct (adjacencies_shape i k) as (row & m & -> & Hm);
    [apply Hl, list_elem_of_here|done|].
  simpl. rewrite Hm. simpl. apply IH.
  intros i' Hi'. by apply Hl, list_elem_of_further.
Qed.

Lemma relax_safe (y1 x1 : Z) cell1 (k : nat) (w : wave) q :
  good w → (k < 4)%nat → (∀ i, i ∈ cell1 → (i < numPatterns)%nat) →
  ∃ res, relax adjacencies y1 x1 cell1 k w q = Ok res.
Proof.
  intros Hgood Hk Hcell1. unfold relax.
  destruct (lookup_lt_is_Some_2 DIRECTIONS k) as [[d1 d2] ->];
    [simpl; lia|].
  cbn [defined]. rewrite bind_Ok. cbn beta iota zeta delta [fst snd].
  case_decide as Hy; [by eexists|].
  destruct (w !! 0%nat) as [row0|] eqn:Hrow0.
  2: { apply lookup_ge_None in Hrow0. lia. }
  cbn [defined]. rewrite bind_Ok. case_decide as Hx; [by eexists|].
  destruct (good_inBounds w (y1 + - d1) (x1 + - d2) Hgood) as [Hy' Hx'].
  { split; [lia|]. exists row0. split; [done|lia]. }
  destruct (good_cellAt w _ _ Hgood Hy' Hx') as [cell2 ->].
  rewrite bind_Ok.
  destruct (unionOfAdjacent_safe k cell1 Hk Hcell1) as [M ->].
  rewrite bind_Ok. cbn zeta.
  destruct (Bitmask.isEmpty _); [by eexists|].
  destruct (negb _); by eexists.
Qed.

Lemma visit_safe (y1 x1 : Z) cell1 ks (w : wave) q :
  good w → (∀ k, k ∈ ks → (k < 4)%nat) →
  (∀ i, i ∈ cell1 → (i < numPatterns)%nat) →
  ∃ res, visit adjacencies y1 x1 cell1 ks w q = Ok res.
Proof.
  revert w q. induction ks as [|k ks IH]; intros w q Hgood Hks Hcell1.
  { by eexists. }
  simpl.
  destruct (relax_safe y1 x1 cell1 k w q Hgood) as [[[c1 w1] q1] Hrelax];
    [apply Hks, list_elem_of_here|done|].
  rewrite Hrelax, bind_Ok. cbn beta iota.
  destruct c1; [by eexists|].
  apply IH; [|by intros k' Hk'; apply Hks, list_elem_of_further|done].
  apply relax_step_ok in Hrelax as (? & ? & _). by eapply good_shrink.
Qed.

Lemma dequeueAndVisit_safe (w : wave) front rest (c : Bitmask.t) :
  good w → cellAt w front.1 front.2 = Ok c →
  ∃ res, dequeueAndVisit adjacencies w front rest = Ok res.
Proof.
  intros Hgood Hc. unfold dequeueAndVisit. rewrite Hc, bind_Ok.
  apply visit_safe; [done|..].
  - intros k Hk%elem_of_seq. simpl in Hk. lia.
  - intros i Hi%elem_of_toArray.
    by apply (good_range _ _ _ _ Hgood Hc).
Qed.

Lemma propagateLoop_safe (fuel : nat) (w : wave) q r :
  good w → (∀ p, p ∈ q → ∃ c, cellAt w p.1 p.2 = Ok c) →
  propagateLoop fuel adjacencies w q = Some r →
  ∃ c w', r = Ok (c, w') ∧ good w'.
Proof.
  revert w q. induction fuel as [|fuel IH]; intros w q Hgood Hq H; [done|].
  rewrite propagateLoop_unfold in H. destruct q as [|front rest].
  { simplify_eq. by eexists _, _. }
  destruct (Hq front) as [c1 Hc1]; [apply list_elem_of_here|].
  destruct (dequeueAndVisit_safe w front rest c1 Hgood Hc1)
    as [[[c w1] q1] Hv].
  rewrite Hv in H.
  pose proof (dequeueAndVisit_step_ok _ _ _ _ _ _ _ Hv) as (Hsub & Hne & _).
  assert (good w1) as Hgood1 by by eapply good_shrink.
  destruct c.
  { simplify_eq. by eexists _, _. }
  eapply IH; [exact Hgood1| |exact H].
  apply dequeueAndVisit_inv in Hv as (cell1 & _ & Hv).
  apply visit_enqueues in Hv as (_ & E2 & _).
  intros p [Hp|(cw & cw' & _ & Hcw' & _)]%E2; [|by eexists].
  destruct (Hq p) as [cp Hcp]; [by apply list_elem_of_further|].
  destruct (subwave_cellAt _ _ _ _ _ Hsub Hcp) as (c' & Hc' & _).
  by exists c'.
Qed.

Lemma scanOrder_valid (w : wave) (pos : position) :
  good w → pos ∈ scanOrder w → ∃ c, cellAt w pos.1 pos.2 = Ok c.
Proof.
  intros Hgood Hpos. unfold scanOrder in Hpos.
  destruct w as [|row0 w'] eqn:Hw; [by apply elem_of_nil in Hpos|].
  rewrite <- Hw in *.
  apply list_elem_of_bind in Hpos as (y & Hpos & Hy%elem_of_seq).
  apply list_elem_of_bind in Hpos as (x & Hpos & Hx%elem_of_seq).
  apply list_elem_of_singleton in Hpos as ->. simpl.
  destruct (good_inBounds w (Z.of_nat y) (Z.of_nat x) Hgood) as [Hy' Hx'].
  { split; [lia|]. exists row0. split; [by rewrite Hw|lia]. }
  by apply good_cellAt.
Qed.

Lemma getLeastEntropy_safe (st : state) :
  good (waveMatrix st) →
  ∃ pos st',
    getLeastEntropyUnsolvedCellPosition random entropyOf weights st
    = Ok (pos, st').
Proof.
  intros Hgood. unfold getLeastEntropyUnsolvedCellPosition.
  assert (∃ acc, foldM (compareEntropy entropyOf (waveMatrix st) weights)
                       (scanOrder (waveMatrix st)) (PosInfinity, [])
                 = Ok acc) as [[least positions] ->].
  { destruct (foldM_total (λ _ _, True) (λ _, 0)
                (compareEntropy entropyOf (waveMatrix st) weights)
                (scanOrder (waveMatrix st)))
      with (s := (PosInfinity, @nil position)) (c := 0)
      as (acc & Hacc & _); [|done|by exists acc].
    intros pos [least positions] _ Hpos _. unfold compareEntropy.
    destruct (scanOrder_valid _ _ Hgood Hpos) as [c Hc].
    rewrite Hc, bind_Ok.
    destruct (getShannonEntropy entropyOf c weights) as [e|e] eqn:He.
    - rewrite bind_Ok. destruct (_ && _); [by eexists|].
      destruct (number_eq _ _); by eexists.
    - apply getShannonEntropy_throws in He as [_ ->].
      by destruct (proj1 (proj2 (good_range _ _ _ _ Hgood Hc))). }
  rewrite bind_Ok. cbn zeta. case_decide as Hlen; [|by eexists _, _].
  destruct (random_range (draws st)) as [Hu0 Hu1].
  pose proof (randomBelow_range random (draws st)
                (Z.of_nat (length positions)) Hu0 Hu1) as Hidx.
  destruct (LearnerFacts.at_index_Some positions
              (randomBelow random (draws st) (Z.of_nat (length positions))))
    as [pos ->]; [lia|].
  cbn [defined]. rewrite bind_Ok. by eexists _, _.
Qed.

(** With well-formed inputs, a loop of [solve] that ends has returned
    [true] or [false]. *)
Lemma solveLoop_safe (fuel pfuel : nat) st (y x n : Z) (c : Bitmask.t) r :
  good (waveMatrix st) → cellAt (waveMatrix st) y x = Ok c →
  solveLoop random entropyOf fuel pfuel numPatterns weights adjacencies
            width height maxAttempts st y x n = Some r →
  ∃ o, r = Ok o.
Proof.
  revert st y x n c.
  induction fuel as [|fuel IH]; intros st y x n c Hgood Hc H; [done|].
  simpl in H. case_decide as Hn; [|simplify_eq; by eexists].
  destruct (observe_safe y x st c Hgood Hc) as (st1 & Hobs & Hgood1).
  rewrite Hobs in H.
  destruct (propagate pfuel y x adjacencies (waveMatrix st1))
    as [rp|] eqn:Hprop; [|done].
  destruct (propagateLoop_safe pfuel (waveMatrix st1) [(y, x)] rp Hgood1)
    as (cp & w2 & -> & Hgood2); [|exact Hprop|].
  { intros p ->%list_elem_of_singleton. simpl.
    apply observe_cases in Hobs as (cell & p & Hcell & _ & ->). simpl.
    eexists. by eapply cellAt_setCell_eq. }
  destruct cp.
  - destruct (random_range (draws st1)) as [Ha0 Ha1].
    destruct (random_range (S (draws st1))) as [Hb0 Hb1].
    pose proof (randomBelow_range random (draws st1) height Ha0 Ha1
                  height_positive) as Hy'.
    pose proof (randomBelow_range random (S (draws st1)) width Hb0 Hb1
                  width_positive) as Hx'.
    eapply IH; [| |exact H]; simpl; [apply fresh_good|].
    apply fresh_cellAt. split; [split|]; done.
  - destruct (getLeastEntropy_safe (mkState w2 (draws st1)) Hgood2)
      as ([y' x'] & st2 & Hsel).
    rewrite Hsel in H. case_decide; [simplify_eq; by eexists|].
    apply getLeastEntropy_cases in Hsel
      as [[[= -> ->] _]|[-> (cell & Hcell & _)]]; [lia|].
    eapply IH; [| |exact H]; simpl; done.
Qed.

End Safe.

End Safety.

Import Safety.

(** ** Propagation in any order *)

Module OrderFacts.
Import ConstraintSolver LearnerSpec SolverSpec BitmaskFacts WaveFacts
  PropagateFacts LearnerFacts Confluence Safety OrderSpec.

Lemma turns_sweep adj (n : nat) (w w' : wave) q :
  turns adj n w q w' [] → sweep adj w q w'.
Proof.
  intros H. remember [] as q' eqn:Hq'.
  induction H as [w q q' Hq|n w q front rest w1 q1 w' q' Hq Hv _ IH].
  - subst q'. apply Permutation_nil_r in Hq as ->. constructor.
  - eapply sweep_step; [exact Hq|exact Hv|done|by apply IH].
Qed.

Lemma sweep_turns adj (w w' : wave) q :
  sweep adj w q w' → ∃ n, turns adj n w q w' [].
Proof.
  induction 1 as [w|w q front rest w' q' q'' wf Hq Hv Hq' _ [n IH]].
  - exists 0%nat. by constructor.
  - exists (S n). eapply turns_S; [exact Hq|exact Hv|].
    clear -IH Hq'. inversion IH as [? ? ? Hp|? ? ? f r ? ? ? ? Hp]; subst.
    + constructor. by rewrite Hq'.
    + eapply turns_S; [|done..]. by rewrite Hq'.
Qed.

(** Turns use up the sum of the masks and the work list. *)
Lemma turns_measure adj (n : nat) (w w' : wave) q q' :
  turns adj n w q w' q' →
  Z.of_nat n + 2 * waveSum w' + Z.of_nat (length q')
  ≤ 2 * waveSum w + Z.of_nat (length q).
Proof.
  induction 1 as [w q q' Hq|n w q front rest w1 q1 w' q' Hq Hv _ IH].
  - rewrite Hq. lia.
  - apply dequeueAndVisit_step_ok in Hv as (_ & _ & Hm).
    rewrite Hq. simpl length. lia.
Qed.

(** A visit from a cell of a wave above [F] creates no contradiction when
    the neighbours of the cell in [F] are below the unions the visit
    computes. *)
Lemma visit_no_contradiction adj (y1 x1 : Z) cell1 ks (w w' : wave) q q' c F :
  visit adj y1 x1 cell1 ks w q = Ok (c, w', q') →
  subwave F w → allNonempty F →
  (∀ k y2 x2 M cF,
     k ∈ ks → neighbour y1 x1 k = Some (y2, x2) → inBounds F y2 x2 →
     unionOfAdjacent adj k cell1 = Ok M →
     cellAt F y2 x2 = Ok cF → submask cF M) →
  c = false.
Proof.
  revert w q. induction ks as [|k0 ks IH]; intros w q H HF Hne Hstable.
  { simpl in H. by simplify_eq. }
  simpl in H.
  destruct (relax adj y1 x1 cell1 k0 w q) as [[[c1 w1] q1]|] eqn:Hrelax;
    [|done].
  rewrite bind_Ok in H. cbn beta iota in H.
  assert (c1 = false ∧ subwave F w1) as [-> HF1].
  { pose proof Hrelax as Hcases. apply relax_cases in Hcases
      as (y2 & x2 & Hn & [(_ & -> & -> & _)|(Hb & cell2 & M & Hc2 & HM & Hcases)]);
      [done|].
    destruct (subwave_cellAt _ _ _ _ _ HF Hc2) as (cF & HcF & Hcc).
    assert (submask cF (Bitmask.AND cell2 M)) as Hand.
    { apply submask_AND; [done|].
      eapply (Hstable k0); [apply list_elem_of_here|done| |done..].
      by apply (inBounds_subwave _ _ _ _ HF). }
    destruct Hcases as [(Hempty & _)|[(_ & _ & -> & -> & _)|
                        (_ & _ & -> & -> & _)]]; [|done|].
    - exfalso. apply (allNonempty_cellAt _ _ _ _ Hne HcF).
      apply submask_le in Hand. rewrite Hempty in Hand. lia.
    - split; [done|].
      pose proof Hc2 as (Hy2 & Hx2 & _)%cellAt_Ok.
      apply subwave_setCell_r; [done| |done..].
      intros cF' HcF'. rewrite HcF in HcF'. by simplify_eq. }
  eapply IH; [exact H|done|done|].
  intros k y2 x2 M cF Hk. apply Hstable. by apply list_elem_of_further.
Qed.

Lemma reachable_perm adj (F w : wave) q q' :
  q ≡ₚ q' → reachable adj F w q → reachable adj F w q'.
Proof.
  intros Hq (HF & Hne & Hqueue & Hchanged).
  split; [done|]. split; [done|]. split; [|done].
  intros p Hp. apply Hqueue. by rewrite Hq.
Qed.

(** A turn from a wave above [F] creates no contradiction and ends above
    [F]. *)
Lemma turn_reachable adj (F w w' : wave) q front rest q' c :
  reachable adj F w q →
  q ≡ₚ front :: rest →
  dequeueAndVisit adj w front rest = Ok (c, w', q') →
  c = false ∧ reachable adj F w' q'.
Proof.
  intros (HF & Hne & Hqueue & Hchanged) Hq Hv.
  apply dequeueAndVisit_inv in Hv as (cell1 & Hcell1 & Hv).
  pose proof (visit_step_ok _ _ _ _ _ _ _ _ _ _ Hv) as (Hsub & _ & _).
  pose proof (visit_enqueues _ _ _ _ _ _ _ _ _ _ Hv) as (_ & E2 & _).
  assert (∀ k y2 x2 M cF,
            k ∈ seq 0 (length DIRECTIONS) →
            neighbour front.1 front.2 k = Some (y2, x2) → inBounds F y2 x2 →
            unionOfAdjacent adj k (Bitmask.toArray cell1) = Ok M →
            cellAt F y2 x2 = Ok cF → submask cF M) as Hfront.
  { intros k y2 x2 M cF Hk Hn Hb HM HcF.
    destruct (Hqueue front) as (cellF & HcellF & Hstable).
    { rewrite Hq. apply list_elem_of_here. }
    destruct (Hstable k y2 x2 Hk Hn Hb) as (c2 & MF & Hc2 & HMF & Hcm).
    rewrite HcF in Hc2. simplify_eq.
    eapply submask_trans; [exact Hcm|].
    eapply unionOfAdjacent_mono; [|exact HMF|exact HM].
    intros i. apply toArray_submask.
    destruct (subwave_cellAt_l _ _ _ _ _ HF HcellF) as (c0 & Hc0 & Hcc).
    rewrite Hcell1 in Hc0. by simplify_eq. }
  split.
  { eapply visit_no_contradiction; [exact Hv|exact HF|exact Hne|exact Hfront]. }
  assert (subwave F w') as HF'.
  { eapply visit_keeps_below; [exact Hv|exact HF|exact Hfront]. }
  split; [done|]. split; [done|]. split.
  - intros p Hp.
    apply E2 in Hp as [Hp|(cw & cw' & Hcw & Hcw' & Hlt)].
    { apply Hqueue. rewrite Hq. by apply list_elem_of_further. }
    destruct (subwave_cellAt _ _ _ _ _ HF' Hcw') as (cF & HcF & Hcc).
    destruct p as [y x]. eapply Hchanged; [exact Hcw|exact HcF|].
    apply submask_le in Hcc. simpl in *. lia.
  - intros y x cw' cF Hcw' HcF Hdiff.
    destruct (subwave_cellAt_l _ _ _ _ _ Hsub Hcw') as (cw & Hcw & Hcc).
    destruct (decide (cF = cw)) as [->|Hne']; [|by eapply Hchanged].
    destruct Hdiff. apply submask_antisym; [|done].
    destruct (subwave_cellAt _ _ _ _ _ HF' Hcw') as (c0 & Hc0 & Hccc).
    rewrite HcF in Hc0. by simplify_eq.
Qed.

(** The end of a run is reachable from its start. *)
Lemma sweep_reachable adj (w wf : wave) q :
  allNonempty w → sweep adj w q wf → reachable adj wf w q.
Proof.
  intros Hne Hsweep.
  destruct (sweep_facts _ _ _ _ Hsweep) as (Hsub & Hqueue & Hchanged).
  split; [done|]. split; [|done].
  clear Hsub Hqueue Hchanged.
  induction Hsweep as [w|w q front rest w' q' q'' wf Hq Hv Hq' _ IH]; [done|].
  apply IH. apply dequeueAndVisit_step_ok in Hv as (_ & Hne' & _). auto.
Qed.

(** While some run can still end, the loop of [propagate] reports no
    contradiction. *)
Lemma propagateLoop_reachable adj (fuel : nat) (F w wf : wave) q c :
  reachable adj F w q →
  propagateLoop fuel adj w q = Some (Ok (c, wf)) → c = false.
Proof.
  revert w q. induction fuel as [|fuel IH]; intros w q HF H; [done|].
  rewrite propagateLoop_unfold in H. destruct q as [|front rest].
  { by simplify_eq. }
  destruct (dequeueAndVisit adj w front rest) as [[[c1 w1] q1]|e] eqn:Hv;
    [|done].
  destruct (turn_reachable _ _ _ _ _ _ _ _ _ HF (reflexivity _) Hv) as [-> HF1].
  by eapply IH.
Qed.

Lemma turns_reachable adj (n : nat) (F w w' : wave) q q' :
  turns adj n w q w' q' → reachable adj F w q → reachable adj F w' q'.
Proof.
  induction 1 as [w q q' Hq|n w q front rest w1 q1 w' q' Hq Hv _ IH];
    intros HF.
  - by eapply reachable_perm.
  - apply IH. by destruct (turn_reachable _ _ _ _ _ _ _ _ _ HF Hq Hv).
Qed.

Section Grid.
Variable numPatterns : nat.
Variable adj : adjacency.
Variables width height : Z.
Hypothesis patterns_nonempty : (1 ≤ numPatterns)%nat.
Hypothesis adjacencies_shape :
  ∀ i k, (i < numPatterns)%nat → (k < 4)%nat →
         ∃ row m, adj !! i = Some row ∧ row !! k = Some m.
Hypothesis width_positive : 1 ≤ width.
Hypothesis height_positive : 1 ≤ height.

Let valid := OrderSpec.valid numPatterns width height.

Lemma turn_valid (w w' : wave) q front rest q' c :
  valid w q → q ≡ₚ front :: rest →
  dequeueAndVisit adj w front rest = Ok (c, w', q') → valid w' q'.
Proof.
  intros [Hgood Hq] Hperm Hv.
  pose proof (dequeueAndVisit_step_ok _ _ _ _ _ _ _ Hv) as (Hsub & Hne & _).
  split; [by eapply good_shrink|].
  apply dequeueAndVisit_inv in Hv as (cell1 & _ & Hv).
  apply visit_enqueues in Hv as (_ & E2 & _).
  intros p [Hp|(cw & cw' & _ & Hcw' & _)]%E2; [|by eexists].
  destruct (Hq p) as [cp Hcp].
  { rewrite Hperm. by apply list_elem_of_further. }
  destruct (subwave_cellAt _ _ _ _ _ Hsub Hcp) as (c' & Hc' & _).
  by exists c'.
Qed.

Lemma turns_valid (n : nat) (w w' : wave) q q' :
  turns adj n w q w' q' → valid w q → valid w' q'.
Proof.
  induction 1 as [w q q' Hq|n w q front rest w1 q1 w' q' Hq Hv _ IH];
    intros Hvalid.
  - destruct Hvalid as [Hgood Hcells]. split; [done|].
    intros p Hp. apply Hcells. by rewrite Hq.
  - apply IH. by eapply turn_valid.
Qed.

Lemma valid_turn (w : wave) q front rest :
  valid w q → q ≡ₚ front :: rest →
  ∃ res, dequeueAndVisit adj w front rest = Ok res.
Proof.
  intros [Hgood Hq] Hperm.
  destruct (Hq front) as [c Hc]; [rewrite Hperm; apply list_elem_of_here|].
  by eapply (dequeueAndVisit_safe numPatterns adj width height).
Qed.

End Grid.

End OrderFacts.

Import OrderSpec OrderFacts.

(** C10. Propagation from a wave of the solver (a grid of masks, none
    empty, over the patterns of a table that has four masks for every
    pattern) and a work list of cells of the grid, with the cells taken
    from the work list and put into it in any order. The loop of
    [propagate] ends and does not throw. When it reports no contradiction,
    every order can be continued turn by turn, without a contradiction,
    until its work list is empty; it gets there after a bounded number of
    turns and then holds the wave of [propagate], so the final mask of
    every cell is the same for every order. When [propagate] reports a
    contradiction, no order ends without one. *)
Theorem propagation_confluence (adj : adjacency) (numPatterns : nat)
    (width height : Z) (w : wave) (q : list position) :
  (1 ≤ numPatterns)%nat → 1 ≤ width → 1 ≤ height →
  (∀ i k, (i < numPatterns)%nat → (k < 4)%nat →
          ∃ row m, adj !! i = Some row ∧ row !! k = Some m) →
  good numPatterns width height w →
  (∀ p, p ∈ q → ∃ c, cellAt w p.1 p.2 = Ok c) →
  ∃ (fuel0 : nat) (c : bool) (wf : wave),
    (∀ fuel, (fuel0 ≤ fuel)%nat →
             propagateLoop fuel adj w q = Some (Ok (c, wf)))
    ∧ (c = true → ∀ q' w', q ≡ₚ q' → ¬ sweep adj w q' w')
    ∧ (c = false →
       ∀ n w' q',
         turns adj n w q w' q' →
         (n < fuel0)%nat
         ∧ (q' = [] → w' = wf)
         ∧ ∀ front rest,
             q' ≡ₚ front :: rest →
             ∃ w'' q'',
               dequeueAndVisit adj w' front rest = Ok (false, w'', q'')).
Proof.
  intros HP Hwidth Hheight Hadj Hgood Hq.
  pose proof (waveSum_nonneg w) as Hsum.
  set (fuel0 := Z.to_nat (2 * waveSum w + Z.of_nat (length q) + 1)).
  destruct (propagateLoop_terminates adj fuel0 w q) as [r Hr];
    [unfold fuel0; lia|].
  destruct (propagateLoop_safe numPatterns adj width height HP Hadj Hwidth
              Hheight fuel0 w q r Hgood Hq Hr) as (c & wf & -> & Hgoodf).
  exists fuel0, c, wf. split.
  { intros fuel Hfuel. by eapply propagateLoop_fuel_mono. }
  pose proof Hgood as [Hsub Hne]. split.
  - intros -> q' w' Hperm Hsweep.
    assert (sweep adj w q w') as Hsweep'.
    { inversion Hsweep as [|? ? f r ? ? ? ? Hp]; subst.
      - apply Permutation_nil_r in Hperm as ->. constructor.
      - eapply sweep_step; [|done..]. by rewrite Hperm. }
    pose proof (sweep_reachable _ _ _ _ Hne Hsweep') as HF.
    by pose proof (propagateLoop_reachable _ _ _ _ _ _ _ HF Hr).
  - intros -> n w' q' Hturns.
    pose proof (propagateLoop_sweep _ _ _ _ _ Hr) as Hrun.
    pose proof (sweep_reachable _ _ _ _ Hne Hrun) as HF.
    pose proof (turns_measure _ _ _ _ _ _ Hturns) as Hm.
    pose proof (waveSum_nonneg w') as Hsum'.
    split; [unfold fuel0; lia|]. split.
    + intros ->. apply turns_sweep in Hturns.
      by eapply sweep_confluent.
    + intros front rest Hperm.
      assert (valid numPatterns width height w' q') as Hvalid.
      { eapply turns_valid; [exact Hturns|]. by split. }
      destruct (valid_turn numPatterns adj width height HP Hadj Hwidth
                  Hheight w' q' front rest Hvalid Hperm)
        as [[[c w''] q''] Hv].
      pose proof (turns_reachable _ _ _ _ _ _ _ Hturns HF) as HF'.
      destruct (turn_reachable _ _ _ _ _ _ _ _ _ HF' Hperm Hv) as [-> _].
      by eexists _, _.
Qed.

Lemma propagation_confluence_witness :
  let adj := [[0; 0; 2; 2]%N; [0; 0; 1; 1]%N] in
  let w := [[1; 3; 3]%N] in
  let q : list position := [(0, 0)] in
  ∃ (fuel0 : nat) (c : bool) (wf : wave),
    (∀ fuel, (fuel0 ≤ fuel)%nat →
             propagateLoop fuel adj w q = Some (Ok (c, wf)))
    ∧ (c = true → ∀ q' w', q ≡ₚ q' → ¬ sweep adj w q' w')
    ∧ (c = false →
       ∀ n w' q',
         turns adj n w q w' q' →
         (n < fuel0)%nat
         ∧ (q' = [] → w' = wf)
         ∧ ∀ front rest,
             q' ≡ₚ front :: rest →
             ∃ w'' q'',
               dequeueAndVisit adj w' front rest = Ok (false, w'', q'')).
Proof.
  apply (propagation_confluence [[0; 0; 2; 2]%N; [0; 0; 1; 1]%N] 2 3 1
           [[1; 3; 3]%N] [(0, 0)]).
  - lia.
  - lia.
  - lia.
  - intros [|[|i]] [|[|[|[|k]]]] Hi Hk; try lia; by eexists _, _.
  - split.
    + constructor; [|constructor].
      constructor; [exact (submask_AND_l 3%N 1%N)|].
      constructor; [apply submask_refl|].
      constructor; [apply submask_refl|constructor].
    + constructor; [|constructor]. by repeat constructor.
  - intros p ->%list_elem_of_singleton. by eexists.
Defined.

(** ** No contradiction escapes *)

(** C7. In a call of [solve] with at least one pattern no mask of the wave
    is ever empty: the wave starts with full masks, an observation leaves a
    singleton, every turn of the loop of [propagate] (also one that ends
    with a contradiction) and so every call of [propagate] writes only
    masks that are not empty. [getShannonEntropy] throws exactly on the
    empty mask, and then [Contradiction]; on a wave without empty masks the
    selection does not throw it, and no call of [solve] ends with it. *)
Theorem masks_never_empty (random : nat → Q)
    (entropyOf : list (option Z) → number) {pattern : Type}
    (patterns : list pattern) (weights : list Z) (adjacencies : adjacency)
    (setTiles : list SetTileInstruction) (width height maxAttempts : Z)
    (draws0 : nat) :
  patterns ≠ [] →
  allNonempty (initializeWaveMatrix (length patterns) width height)
  ∧ (∀ y x st st',
       allNonempty (waveMatrix st) →
       observe random y x weights st = Ok st' →
       allNonempty (waveMatrix st')
       ∧ ∃ m, cellAt (waveMatrix st') y x = Ok m
              ∧ length (Bitmask.toArray m) = 1%nat)
  ∧ (∀ w front rest c w' q',
       allNonempty w →
       dequeueAndVisit adjacencies w front rest = Ok (c, w', q') →
       allNonempty w')
  ∧ (∀ fuel y x w c w',
       allNonempty w →
       propagate fuel y x adjacencies w = Some (Ok (c, w')) →
       allNonempty w')
  ∧ (∀ m e,
       getShannonEntropy entropyOf m weights = Throw e ↔
       e = Contradiction ∧ Bitmask.toArray m = [])
  ∧ (∀ st,
       allNonempty (waveMatrix st) →
       getLeastEntropyUnsolvedCellPosition random entropyOf weights st
       ≠ Throw Contradiction)
  ∧ (∀ fuel r,
       solve random entropyOf fuel patterns weights adjacencies setTiles
             width height maxAttempts draws0 = Some r →
       r ≠ Throw Contradiction
       ∧ ∀ o, r = Ok o → allNonempty (waveMatrix (final o))).
Proof.
  intros Hpatterns.
  assert (1 ≤ length patterns)%nat as HP.
  { destruct patterns; [done|simpl; lia]. }
  split; [by apply initializeWaveMatrix_nonempty|].
  split.
  { intros y x st st' Hw Hobs. split; [by eapply observe_shrinks|].
    apply observe_cases in Hobs as (cell & p & Hcell & _ & ->). simpl.
    eexists. split; [by eapply cellAt_setCell_eq|].
    by rewrite toArray_singleton. }
  split.
  { intros w front rest c w' q' Hw Hv.
    by apply dequeueAndVisit_step_ok in Hv as (_ & Hne & _); auto. }
  split.
  { intros fuel y x w c w' Hw Hprop.
    apply propagateLoop_shrinks in Hprop as [_ Hne]. auto. }
  split.
  { intros m e. rewrite getShannonEntropy_throws, toArray_nil. done. }
  split.
  { intros st Hw Hthrow.
    apply getLeastEntropy_throws in Hthrow as [?|[_ Hne]]; [done|].
    by destruct Hne. }
  intros fuel r Hsolve. unfold solve in Hsolve.
  eapply solveLoop_nonempty; [exact HP| |exact Hsolve].
  by apply initializeWaveMatrix_nonempty.
Qed.

Lemma masks_never_empty_witness :
  [stripe01; stripe10] ≠ []
  ∧ allNonempty (initializeWaveMatrix 2 2 1)
  ∧ ∀ fuel r,
      solve (λ _, 0%Q) (λ _, Finite 1) fuel [stripe01; stripe10] [4; 2]
            [[0; 0; 2; 2]%N; [0; 0; 1; 1]%N] [] 2 1 10 0 = Some r →
      r ≠ Throw Contradiction
      ∧ ∀ o, r = Ok o → allNonempty (waveMatrix (final o)).
Proof.
  assert ([stripe01; stripe10] ≠ []) as H by discriminate.
  split; [exact H|].
  destruct (masks_never_empty (λ _, 0%Q) (λ _, Finite 1)
              [stripe01; stripe10] [4; 2] [[0; 0; 2; 2]%N; [0; 0; 1; 1]%N]
              [] 2 1 10 0 H) as (H1 & _ & _ & _ & _ & _ & H7).
  split; [exact H1|exact H7].
Defined.

(** ** Termination *)




(** * Further properties *)

(** A loop whose steps each account for some items: an invariant between
    the state and the items accounted for so far. *)
Lemma foldM_trace {A S B} (I : S → list B → Prop) (f : A → S → result S)
    (w : A → list B) (l : list A) :
  (∀ a s s' seen, a ∈ l → I s seen → f a s = Ok s' → I s' (seen ++ w a)) →
  ∀ s s' seen, I s seen → foldM f l s = Ok s' → I s' (seen ++ mbind w l).
Proof.
  induction l as [|a l IH]; intros Hstep s s' seen Hs H; simpl in H.
  - simplify_eq. by rewrite app_nil_r.
  - destruct (f a s) as [s1|] eqn:Hf; simpl in H; [|done].
    change (mbind w (a :: l)) with (w a ++ mbind w l). rewrite app_assoc.
    eapply IH; [|by eapply Hstep; [apply list_elem_of_here|..]|done].
    intros a' t t' seen' Ha'. apply Hstep. by apply list_elem_of_further.
Qed.

Module WindowFacts.
Import ImageLearner LearnerSpec LearnerFacts WindowSpec.

Lemma commaFree_app (s t : string) :
  commaFree (s +:+ t) = commaFree s && commaFree t.
Proof.
  induction s as [|a s IH]; simpl; [done|].
  change (String.app s t) with (s +:+ t). rewrite IH. by rewrite andb_assoc.
Qed.

Lemma pretty_N_go_commaFree (x : N) (s : string) :
  commaFree s = true → commaFree (pretty_N_go x s) = true.
Proof.
  revert s. induction (N.lt_wf_0 x) as [x _ IH]; intros s Hs.
  assert (x = 0 ∨ 0 < x)%N as [->|Hx] by lia.
  - by rewrite pretty_N_go_0.
  - rewrite pretty_N_go_step by done. apply IH; [by apply N.div_lt|].
    simpl. rewrite Hs, andb_true_r.
    unfold pretty_N_char. by repeat case_match.
Qed.

Lemma pretty_N_go_nonempty (x : N) (s : string) :
  s ≠ "" → pretty_N_go x s ≠ "".
Proof.
  revert s. induction (N.lt_wf_0 x) as [x _ IH]; intros s Hs.
  assert (x = 0 ∨ 0 < x)%N as [->|Hx] by lia.
  - by rewrite pretty_N_go_0.
  - rewrite pretty_N_go_step by done. apply IH; [by apply N.div_lt|done].
Qed.

Lemma pretty_N_commaFree (x : N) : commaFree (pretty x) = true.
Proof.
  unfold pretty, pretty_N. case_decide; [done|].
  by apply pretty_N_go_commaFree.
Qed.

Lemma pretty_N_nonempty (x : N) : pretty x ≠ "".
Proof.
  unfold pretty, pretty_N. case_decide; [done|].
  assert (0 < x)%N as Hx by lia.
  rewrite pretty_N_go_step by done. by apply pretty_N_go_nonempty.
Qed.

Lemma pretty_Z_commaFree (z : Z) : commaFree (pretty z) = true.
Proof.
  destruct z as [|p|p]; [done|apply pretty_N_commaFree|].
  unfold pretty, pretty_Z. rewrite commaFree_app.
  unfold pretty, pretty_positive. by rewrite pretty_N_commaFree.
Qed.

Lemma pretty_Z_nonempty (z : Z) : pretty z ≠ "".
Proof.
  destruct z as [|p|p]; [done|apply pretty_N_nonempty|done].
Qed.

Lemma tile_toString_commaFree (v : tile) : commaFree (tile_toString v) = true.
Proof. destruct v; [apply pretty_Z_commaFree|done]. Qed.

Lemma tile_toString_inj (v1 v2 : tile) :
  tile_toString v1 = tile_toString v2 → v1 = v2.
Proof.
  destruct v1 as [z1|], v2 as [z2|]; simpl; intros H; [|..|done].
  - f_equal. by apply (inj pretty).
  - by destruct (pretty_Z_nonempty z1).
  - by destruct (pretty_Z_nonempty z2).
Qed.

(** *** The key of a pattern is free of collisions *)

Lemma commaFree_split (a b r r' : string) :
  commaFree a = true → commaFree b = true →
  a +:+ "," +:+ r = b +:+ "," +:+ r' → a = b ∧ r = r'.
Proof.
  revert b. induction a as [|c a IH]; intros [|d b] Ha Hb H; simpl in *.
  - by simplify_eq.
  - by simplify_eq.
  - by simplify_eq.
  - apply andb_true_iff in Ha as [_ Ha]. apply andb_true_iff in Hb as [_ Hb].
    injection H as -> H. destruct (IH b Ha Hb H) as [-> ->]. done.
Qed.

Lemma commaFree_no_split (a b r : string) :
  commaFree a = true → a ≠ b +:+ "," +:+ r.
Proof.
  intros Ha H. rewrite H, !commaFree_app in Ha. simpl in Ha.
  by rewrite andb_false_r in Ha.
Qed.

Lemma join_cons (x y : string) (l : list string) :
  String.concat "," (x :: y :: l) = x +:+ "," +:+ String.concat "," (y :: l).
Proof. done. Qed.

Lemma join_inj (l1 l2 : list string) :
  Forall (λ s, commaFree s = true) l1 → Forall (λ s, commaFree s = true) l2 →
  length l1 = length l2 →
  String.concat "," l1 = String.concat "," l2 → l1 = l2.
Proof.
  revert l2. induction l1 as [|x [|y l1] IH]; intros [|x' [|y' l2]] H1 H2 Hlen H;
    try done.
  - simpl in H. by subst.
  - rewrite !join_cons in H.
    apply Forall_cons in H1 as [Hx H1]. apply Forall_cons in H2 as [Hx' H2].
    apply commaFree_split in H as [-> H]; [|done..].
    f_equal. apply IH; [done..|simpl in *; lia|done].
Qed.

Lemma append_assoc (a b c : string) : (a +:+ b) +:+ c = a +:+ b +:+ c.
Proof.
  induction a as [|x a IH]; [done|].
  change (String x ((a +:+ b) +:+ c) = String x (a +:+ b +:+ c)).
  by f_equal.
Qed.

Lemma join_app (l1 l2 : list string) :
  l1 ≠ [] → l2 ≠ [] →
  String.concat "," (l1 ++ l2)
  = String.concat "," l1 +:+ "," +:+ String.concat "," l2.
Proof.
  intros H1 H2. induction l1 as [|x [|y l1] IH]; [done|..].
  - destruct l2; [done|]. done.
  - change ((x :: y :: l1) ++ l2) with (x :: y :: (l1 ++ l2)).
    rewrite !join_cons. change (y :: l1 ++ l2) with ((y :: l1) ++ l2).
    rewrite IH by done. by rewrite !append_assoc.
Qed.

Lemma toString_flat (p : pattern) :
  Forall (λ row, row ≠ []) p →
  toString p = String.concat "," (tile_toString <$> mjoin p).
Proof.
  unfold toString. induction 1 as [|row [|row' p] Hrow Hp IH].
  - done.
  - simpl. by rewrite app_nil_r.
  - change (mjoin (row :: row' :: p)) with (row ++ mjoin (row' :: p)).
    rewrite fmap_app, join_app.
    + rewrite <- IH. done.
    + by destruct row.
    + apply Forall_cons in Hp as [Hrow' _]. by destruct row'.
Qed.

Lemma mjoin_rows_inj {A} (n : nat) (p1 p2 : list (list A)) :
  Forall (λ row, length row = n) p1 → Forall (λ row, length row = n) p2 →
  length p1 = length p2 → mjoin p1 = mjoin p2 → p1 = p2.
Proof.
  intros H1. revert p2.
  induction H1 as [|r1 p1 Hr1 _ IH]; intros [|r2 p2] H2 Hlen H; try done.
  apply Forall_cons in H2 as [Hr2 H2].
  change (r1 ++ mjoin p1 = r2 ++ mjoin p2) in H.
  apply app_inj_1 in H as [-> H]; [|congruence].
  f_equal. apply IH; [done|simpl in *; lia|done].
Qed.

Lemma length_mjoin_rows {A} (n : nat) (p : list (list A)) :
  Forall (λ row, length row = n) p → length (mjoin p) = (length p * n)%nat.
Proof.
  induction 1 as [|r p Hr _ IH]; [done|].
  change (mjoin (r :: p)) with (r ++ mjoin p).
  rewrite length_app, IH, Hr. simpl. lia.
Qed.

Lemma toString_inj (N : Z) (p1 p2 : pattern) :
  shape N p1 → shape N p2 → toString p1 = toString p2 → p1 = p2.
Proof.
  intros [Hl1 Hr1] [Hl2 Hr2] H.
  destruct (Z.to_nat N) as [|n] eqn:HN.
  { destruct p1, p2; done. }
  rewrite !toString_flat in H.
  2,3: eapply Forall_impl; [eassumption|]; intros [|??] ?; simplify_eq/=; done.
  apply join_inj in H.
  - apply (mjoin_rows_inj (S n)); [done|done|congruence|].
    revert H. generalize (mjoin p1) (mjoin p2).
    induction l as [|a l IH]; intros [|b l'] H; simplify_eq/=; [done|].
    f_equal; [by apply tile_toString_inj|by apply IH].
  - apply Forall_fmap, Forall_forall. intros v _. apply tile_toString_commaFree.
  - apply Forall_fmap, Forall_forall. intros v _. apply tile_toString_commaFree.
  - rewrite !length_fmap, !(length_mjoin_rows (S n)) by done. congruence.
Qed.

(** *** What [getPattern] reads *)

Lemma at_index_lookup {A} (l : list A) (i : Z) :
  0 ≤ i → at_index l i = l !! Z.to_nat i.
Proof. intros Hi. unfold at_index. by rewrite decide_False by lia. Qed.

Lemma at_index_None {A} (l : list A) (i : Z) :
  at_index l i = None ↔ ¬ (0 ≤ i < Z.of_nat (length l)).
Proof.
  unfold at_index. case_decide; [split; [lia|done]|].
  rewrite lookup_ge_None. lia.
Qed.

Lemma getPattern_rows_inv (img : image) (N y x : Z) (rows : list Z) acc p :
  foldM (λ ny pat,
           row ← defined (at_index img (y + ny));
           Ok (pat ++ [(λ nx, at_index row (x + nx)) <$> seqZ 0 N]))
        rows acc = Ok p →
  ∃ rs, p = acc ++ rs
        ∧ Forall2 (λ ny r, ∃ row, at_index img (y + ny) = Some row
                     ∧ r = (λ nx, at_index row (x + nx)) <$> seqZ 0 N) rows rs.
Proof.
  revert acc. induction rows as [|ny rows IH]; intros acc H; simpl in H.
  - simplify_eq. exists []. by rewrite app_nil_r.
  - destruct (at_index img (y + ny)) as [row|] eqn:Hrow; simpl in H; [|done].
    apply IH in H as (rs & -> & Hrs).
    eexists (_ :: rs). rewrite <- app_assoc. split; [done|].
    constructor; [by exists row|done].
Qed.

Lemma getPattern_rows_throw (img : image) (N y x : Z) (rows : list Z) acc e :
  foldM (λ ny pat,
           row ← defined (at_index img (y + ny));
           Ok (pat ++ [(λ nx, at_index row (x + nx)) <$> seqZ 0 N]))
        rows acc = Throw e →
  e = TypeError ∧ ∃ ny, ny ∈ rows ∧ at_index img (y + ny) = None.
Proof.
  revert acc. induction rows as [|ny rows IH]; intros acc H; simpl in H; [done|].
  destruct (at_index img (y + ny)) as [row|] eqn:Hrow; simpl in H.
  - apply IH in H as (-> & ny' & Hny' & Hnone). split; [done|].
    exists ny'. split; [by apply list_elem_of_further|done].
  - simplify_eq. split; [done|]. exists ny. split; [apply list_elem_of_here|done].
Qed.

Lemma getPattern_inv (img : image) (N y x : Z) (p : pattern) :
  getPattern img N y x = Ok p →
  shape N p
  ∧ (∀ ny, 0 ≤ ny < N → 0 ≤ y + ny < height img)
  ∧ ∀ ny nx, 0 ≤ ny < N → 0 ≤ nx < N →
      tileAt p ny nx = pixelAt img (y + ny) (x + nx).
Proof.
  intros (rs & -> & Hrs)%getPattern_rows_inv. simpl.
  pose proof (Forall2_length _ _ _ Hrs) as Hlen. rewrite length_seqZ in Hlen.
  assert (∀ ny, 0 ≤ ny < N →
            ∃ row, at_index img (y + ny) = Some row
                   ∧ rs !! Z.to_nat ny
                     = Some ((λ nx, at_index row (x + nx)) <$> seqZ 0 N))
    as Hrow.
  { intros ny Hny.
    destruct (Forall2_lookup_l _ _ _ (Z.to_nat ny) ny Hrs)
      as (r & Hr & row & Hrow & ->).
    { rewrite lookup_seqZ. split; lia. }
    by exists row. }
  split; [|split].
  - split; [done|]. apply Forall_forall. intros r Hr.
    apply list_elem_of_lookup in Hr as [i Hi].
    destruct (Forall2_lookup_r _ _ _ _ _ Hrs Hi) as (? & _ & ? & _ & ->).
    by rewrite length_fmap, length_seqZ.
  - intros ny Hny. destruct (Hrow ny Hny) as (row & Hr & _).
    destruct (decide (0 ≤ y + ny < height img)) as [|Hout]; [done|].
    apply at_index_None in Hout. congruence.
  - intros ny nx Hny Hnx. destruct (Hrow ny Hny) as (row & Hr & Hrs').
    unfold tileAt, pixelAt. rewrite Hr, at_index_lookup, Hrs' by lia. simpl.
    rewrite at_index_lookup, list_lookup_fmap, lookup_seqZ_lt by lia.
    simpl. f_equal. lia.
Qed.

(** *** The scan of [getPatternsAndWeights] *)

Lemma occurrences_app (p : pattern) (ws1 ws2 : list pattern) :
  occurrences p (ws1 ++ ws2) = occurrences p ws1 + occurrences p ws2.
Proof. unfold occurrences. rewrite filter_app, length_app. lia. Qed.

Lemma occurrences_here (p : pattern) : occurrences p [p] = 1.
Proof. unfold occurrences. by rewrite filter_cons_True. Qed.

Lemma occurrences_other (p q : pattern) : p ≠ q → occurrences p [q] = 0.
Proof. intros H. unfold occurrences. by rewrite filter_cons_False. Qed.

Lemma occurrences_absent (p : pattern) (ws : list pattern) :
  p ∉ ws → occurrences p ws = 0.
Proof.
  intros H. unfold occurrences. induction ws as [|q ws IH]; [done|].
  apply not_elem_of_cons in H as [Hne H].
  rewrite filter_cons_False by done. by apply IH.
Qed.

Lemma occurrences_present (p : pattern) (ws : list pattern) :
  p ∈ ws → 1 ≤ occurrences p ws.
Proof.
  intros (ws1 & ws2 & ->)%list_elem_of_split.
  change (p :: ws2) with ([p] ++ ws2).
  rewrite !occurrences_app, occurrences_here. unfold occurrences. lia.
Qed.

Lemma scanWindow_counts (img : image) (N y x : Z) (s s' : scan) seen :
  scan_counts N s seen → scanWindow img N y x s = Ok s' →
  scan_counts N s'
    (seen ++ match getPattern img N y x with Ok p => [p] | Throw _ => [] end).
Proof.
  intros (Hlen & Hshape & Hmap & Hnodup & Hmem & Hcount). unfold scanWindow.
  destruct (getPattern img N y x) as [p|] eqn:Hp; simpl; [|done].
  pose proof (proj1 (getPattern_inv _ _ _ _ _ Hp)) as Hpshape.
  destruct (uniquePatterns s !! toString p) as [i|] eqn:Hi; intros [= <-]; simpl.
  - (* a pattern seen before: its weight goes up by one *)
    apply Hmap in Hi as (p' & Hi & Hkey).
    assert (p' = p) as ->.
    { eapply toString_inj; [|done..].
      eapply Forall_lookup_1; [exact Hshape|exact Hi]. }
    repeat split; simpl.
    + by rewrite length_alter.
    + done.
    + apply Hmap.
    + apply Hmap.
    + done.
    + intros Hq. apply elem_of_app. left. by apply Hmem.
    + intros [Hq|Hq%list_elem_of_singleton]%elem_of_app; [by apply Hmem|].
      subst. by eapply list_elem_of_lookup_2.
    + intros j q Hj. rewrite occurrences_app.
      destruct (decide (j = i)) as [->|Hne].
      * rewrite Hi in Hj. simplify_eq.
        rewrite list_lookup_alter_eq, (Hcount _ _ Hi). simpl.
        by rewrite occurrences_here.
      * rewrite list_lookup_alter_ne by done.
        rewrite (Hcount _ _ Hj), occurrences_other; [f_equal; lia|].
        intros ->. apply Hne. by eapply NoDup_lookup.
  - (* a new pattern: it is appended with weight one *)
    assert (p ∉ scan_patterns s) as Hnew.
    { intros [i Hi']%list_elem_of_lookup.
      assert (uniquePatterns s !! toString p = Some i) as Hi''
        by (apply Hmap; by exists p).
      congruence. }
    repeat split; simpl.
    + rewrite !length_app. simpl. lia.
    + apply Forall_app. split; [done|]. by constructor.
    + destruct (decide (key = toString p)) as [->|Hkey].
      * rewrite lookup_insert_eq. intros [= <-]. exists p. split; [|done].
        rewrite length_app. simpl.
        replace (length (scan_patterns s) + 1 - 1)%nat
          with (length (scan_patterns s) + 0)%nat by lia.
        by rewrite lookup_app_r, Nat.add_comm, Nat.add_sub by lia.
      * rewrite lookup_insert_ne by done. intros (q & Hq & Hk)%Hmap.
        exists q. split; [|done]. by apply lookup_app_l_Some.
    + intros (q & Hq & Hk).
      apply lookup_app_Some in Hq as [Hq|[Hge Hq]].
      * assert (key ≠ toString p) as Hkey.
        { intros ->. apply Hnew.
          assert (q = p) as <-; [|by eapply list_elem_of_lookup_2].
          eapply toString_inj; [|done..].
          eapply Forall_lookup_1; [exact Hshape|exact Hq]. }
        rewrite lookup_insert_ne by done. apply Hmap. by exists q.
      * apply list_lookup_singleton_Some in Hq as [Hi' ->]. subst key.
        rewrite lookup_insert_eq. f_equal. rewrite length_app. simpl. lia.
    + apply NoDup_app. split; [done|]. split; [|apply NoDup_singleton].
      intros q Hq ->%list_elem_of_singleton. done.
    + intros [Hq|Hq]%elem_of_app; apply elem_of_app; [left; by apply Hmem|by right].
    + intros [Hq|Hq]%elem_of_app; apply elem_of_app; [left; by apply Hmem|by right].
    + intros j q Hj. rewrite occurrences_app.
      apply lookup_app_Some in Hj as [Hj|[Hge Hj]].
      * rewrite lookup_app_l by (rewrite <- Hlen; by eapply lookup_lt_Some).
        rewrite (Hcount _ _ Hj), occurrences_other; [f_equal; lia|].
        intros ->. apply Hnew. by eapply list_elem_of_lookup_2.
      * apply list_lookup_singleton_Some in Hj as [Hj ->].
        rewrite lookup_app_r by lia. rewrite <- Hlen.
        replace (j - length (scan_patterns s))%nat with 0%nat by lia. simpl.
        rewrite occurrences_here, occurrences_absent; [done|].
        intros Hin. by apply Hnew, Hmem.
Qed.

Lemma scanImage_counts (N : Z) (img : image) (s s' : scan) seen :
  scan_counts N s seen → scanImage N img s = Ok s' →
  scan_counts N s' (seen ++ windowsOf N img).
Proof.
  intros Hs. unfold scanImage, windowsOf, height.
  apply (foldM_trace (scan_counts N)); [|done].
  clear s s' seen Hs. intros y s s' seen _ Hs. unfold scanRow.
  destruct img as [|row0 img']; [done|]. simpl.
  apply (foldM_trace (scan_counts N)); [|done].
  clear s s' seen Hs. intros x s s' seen _ Hs. by apply scanWindow_counts.
Qed.

Lemma getPatternsAndWeights_counts (images : list image) (N : Z) (s : scan) :
  getPatternsAndWeights images N = Ok s →
  scan_counts N s (allWindows images N).
Proof.
  unfold getPatternsAndWeights, allWindows. intros H.
  apply (foldM_trace (scan_counts N) (scanImage N) (windowsOf N) images)
    with (seen := []) in H; [done| |].
  - intros img t t' seen _. apply scanImage_counts.
  - repeat split; simpl; try done; try constructor.
    intros (p & Hp & _). done.
Qed.

Lemma learn_inv (images : list image) (N : Z) (m : t) :
  learn images N = Ok m →
  ∃ s, getPatternsAndWeights images N = Ok s
       ∧ getAdjacencies (scan_patterns s) = Ok (adjacencies m)
       ∧ patterns m = scan_patterns s ∧ weights m = scan_weights s.
Proof.
  unfold learn. intros H.
  destruct (getPatternsAndWeights images N) as [s|]; simpl in H; [|done].
  destruct (getAdjacencies (scan_patterns s)) as [adj|] eqn:Hadj;
    simpl in H; [|done].
  simplify_eq. by exists s.
Qed.

End WindowFacts.

Import ImageLearner LearnerSpec LearnerFacts WindowSpec WindowFacts.

(** X1. What [getPattern] returns: it succeeds exactly when the [N] rows
    [y .. y+N-1] exist, with the [N]x[N] pattern whose tile at
    [(ny, nx)] is the tile of the image at [(y+ny, x+nx)], [undefined]
    where the row is too short; when one of the rows is missing it throws
    a [TypeError]. *)
Theorem getPattern_reads_window (img : image) (N y x : Z) :
  (∀ p, getPattern img N y x = Ok p →
     shape N p
     ∧ ∀ ny nx, 0 ≤ ny < N → 0 ≤ nx < N →
         tileAt p ny nx = pixelAt img (y + ny) (x + nx))
  ∧ ((∀ ny, 0 ≤ ny < N → 0 ≤ y + ny < height img) ↔
     ∃ p, getPattern img N y x = Ok p)
  ∧ ((∃ ny, 0 ≤ ny < N ∧ ¬ 0 ≤ y + ny < height img) ↔
     getPattern img N y x = Throw TypeError).
Proof.
  split; [|split].
  - intros p (Hshape & _ & Htiles)%getPattern_inv. done.
  - split.
    + intros Hrows.
      destruct (getPattern_rows img N y x (seqZ 0 N) []) as (p & Hp & _).
      { intros ny Hny%elem_of_seqZ. apply Hrows. lia. }
      by exists p.
    + intros [p (_ & Hrows & _)%getPattern_inv]. done.
  - split.
    + intros (ny & Hny & Hout).
      destruct (getPattern img N y x) as [p|e] eqn:Hp.
      * apply getPattern_inv in Hp as (_ & Hrows & _). by destruct Hout; auto.
      * by apply getPattern_rows_throw in Hp as [-> _].
    + intros (_ & ny & Hny%elem_of_seqZ & Hnone%at_index_None)%getPattern_rows_throw.
      exists ny. split; [lia|done].
Qed.

(** X2. The key of the map of [getPatternsAndWeights] has no collisions: two
    [N]x[N] patterns with the same [toString] are the same pattern, also
    when tiles are [undefined]. *)
Theorem pattern_key_injective (N : Z) (p1 p2 : pattern) :
  shape N p1 → shape N p2 → toString p1 = toString p2 → p1 = p2.
Proof. intros H1 H2 H. exact (toString_inj N p1 p2 H1 H2 H). Qed.

Lemma pattern_key_injective_witness :
  shape 2 stripe01 ∧ shape 2 stripe01
  ∧ toString stripe01 = toString stripe01 ∧ stripe01 = stripe01.
Proof.
  assert (shape 2 stripe01) as H by (split; [done|by repeat constructor]).
  split; [exact H|]. split; [exact H|]. split; [reflexivity|].
  exact (pattern_key_injective 2 stripe01 stripe01 H H eq_refl).
Defined.

(** X3. The patterns of a learned model are the windows of the images, each
    once: no pattern occurs twice, every pattern is a window that the scan
    read, and every window that the scan read is one of the patterns. *)
Theorem learned_patterns_are_the_windows (images : list image) (N : Z) (m : t) :
  learn images N = Ok m →
  NoDup (patterns m)
  ∧ ∀ p, p ∈ patterns m ↔ p ∈ allWindows images N.
Proof.
  intros (s & Hs & _ & -> & _)%learn_inv.
  apply getPatternsAndWeights_counts in Hs as (_ & _ & _ & Hnodup & Hmem & _).
  done.
Qed.

Lemma learned_patterns_are_the_windows_witness :
  let m := mk [stripe01; stripe10] [4; 2] [[0; 0; 2; 2]%N; [0; 0; 1; 1]%N] in
  NoDup (patterns m)
  ∧ ∀ p, p ∈ patterns m ↔ p ∈ allWindows [stripes] 2.
Proof.
  apply (learned_patterns_are_the_windows [stripes] 2). vm_compute. reflexivity.
Defined.

(** X4. The weight of a pattern of a learned model is the number of windows
    equal to it, at least 1, and there is one weight per pattern. *)
Theorem learned_weights_count_windows (images : list image) (N : Z) (m : t) :
  learn images N = Ok m →
  length (weights m) = length (patterns m)
  ∧ ∀ i p, patterns m !! i = Some p →
      weights m !! i = Some (occurrences p (allWindows images N))
      ∧ 1 ≤ occurrences p (allWindows images N).
Proof.
  intros (s & Hs & _ & -> & ->)%learn_inv.
  apply getPatternsAndWeights_counts in Hs as (Hlen & _ & _ & _ & Hmem & Hcount).
  split; [done|]. intros i p Hp. split; [by apply Hcount|].
  apply occurrences_present, Hmem. by eapply list_elem_of_lookup_2.
Qed.

Lemma learned_weights_count_windows_witness :
  let m := mk [stripe01; stripe10] [4; 2] [[0; 0; 2; 2]%N; [0; 0; 1; 1]%N] in
  length (weights m) = length (patterns m)
  ∧ ∀ i p, patterns m !! i = Some p →
      weights m !! i = Some (occurrences p (allWindows [stripes] 2))
      ∧ 1 ≤ occurrences p (allWindows [stripes] 2).
Proof.
  apply (learned_weights_count_windows [stripes] 2). vm_compute. reflexivity.
Defined.

Module AdjacencyFacts.
Import ImageLearner LearnerSpec LearnerFacts WindowSpec WindowFacts AdjacencySpec.

Lemma overlapMatches_spec (p1 p2 : pattern) (dy dx : Z) cells (b : bool) :
  overlapMatches p1 p2 dy dx cells = Ok b →
  b = true ↔
  ∀ y x, (y, x) ∈ cells → tileAt p1 y x = tileAt p2 (y + dy) (x + dx).
Proof.
  revert b. induction cells as [|[y x] cells IH]; intros b H; simpl in H.
  { simplify_eq. split; [|done]. intros _ y x []%elem_of_nil. }
  destruct (at_index p1 y) as [r1|] eqn:Hr1; simpl in H; [|done].
  destruct (at_index p2 (y + dy)) as [r2|] eqn:Hr2; simpl in H; [|done].
  assert (tileAt p1 y x = mjoin (at_index r1 x)) as Ht1
    by (unfold tileAt; by rewrite Hr1).
  assert (tileAt p2 (y + dy) (x + dx) = mjoin (at_index r2 (x + dx))) as Ht2
    by (unfold tileAt; by rewrite Hr2).
  case_decide as Heq.
  - rewrite (IH _ H). split.
    + intros Hall y' x' [[= -> ->]|Hin]%elem_of_cons; [congruence|auto].
    + intros Hall y' x' Hin. apply Hall. by apply list_elem_of_further.
  - simplify_eq. split; [done|]. intros Hall. destruct Heq.
    rewrite <- Ht1, <- Ht2. apply Hall, list_elem_of_here.
Qed.

Lemma DIRECTIONS_cases (dir : Z * Z) :
  dir ∈ DIRECTIONS →
  dir = (-1, 0) ∨ dir = (1, 0) ∨ dir = (0, -1) ∨ dir = (0, 1).
Proof.
  unfold DIRECTIONS. rewrite !elem_of_cons, elem_of_nil. tauto.
Qed.

Lemma elem_of_cells (lo1 hi1 lo2 hi2 y x : Z) :
  (y, x) ∈ (y ← range lo1 hi1; x ← range lo2 hi2; [(y, x)])
  ↔ lo1 ≤ y < hi1 ∧ lo2 ≤ x < hi2.
Proof.
  rewrite list_elem_of_bind. unfold range. split.
  - intros (y' & (x' & Heq%list_elem_of_singleton & Hx%elem_of_seqZ)%list_elem_of_bind
            & Hy%elem_of_seqZ).
    simplify_eq. lia.
  - intros [Hy Hx]. exists y. split; [|apply elem_of_seqZ; lia].
    apply list_elem_of_bind. exists x.
    split; [apply list_elem_of_here|apply elem_of_seqZ; lia].
Qed.

(** [isAdjacent] on two [N]x[N] patterns compares them on their overlap. *)
Lemma isAdjacent_spec (N : Z) (p1 p2 : pattern) (dir : Z * Z) :
  1 ≤ N → shape N p1 → shape N p2 → dir ∈ DIRECTIONS →
  ∃ b, isAdjacent p1 p2 dir = Ok b ∧ (b = true ↔ agree N p1 p2 dir).
Proof.
  intros HN Hs1 Hs2 Hdir.
  destruct (isAdjacent_total N p1 p2 dir HN Hs1 Hs2 Hdir) as [b Hb].
  exists b. split; [done|].
  destruct Hs1 as [Hl1 Hr1]. unfold isAdjacent in Hb.
  destruct p1 as [|row0 p1'] eqn:Hp1; [simpl in Hl1; lia|].
  rewrite <- Hp1 in *.
  assert (length row0 = Z.to_nat N) as Hrow0.
  { rewrite Hp1 in Hr1. by apply Forall_cons in Hr1 as [? _]. }
  assert (p1 !! 0%nat = Some row0) as Hlk by by rewrite Hp1.
  destruct dir as [dy dx]. rewrite Hlk in Hb. cbn [defined] in Hb.
  rewrite bind_Ok in Hb. rewrite Hl1, Hrow0 in Hb. unfold agree.
  apply DIRECTIONS_cases in Hdir as [?|[?|[?|?]]]; simplify_eq; simpl in Hb;
    rewrite (overlapMatches_spec _ _ _ _ _ _ Hb);
    setoid_rewrite elem_of_cells; unfold overlap; simpl;
    split; intros Hall y x Hyx; apply Hall; lia.
Qed.

Lemma opposite_direction (k o : nat) (dir : Z * Z) :
  oppositeDirIndex k = Some o → DIRECTIONS !! k = Some dir →
  DIRECTIONS !! o = Some (- dir.1, - dir.2).
Proof.
  destruct k as [|[|[|[|k]]]]; simpl; intros [= <-] [= <-]; done.
Qed.

Lemma agree_opposite (N : Z) (p1 p2 : pattern) (dir : Z * Z) :
  agree N p1 p2 dir → agree N p2 p1 (- dir.1, - dir.2).
Proof.
  intros H y x ((Hy & Hx) & Hy' & Hx'). simpl in *.
  rewrite (H (y + - dir.1) (x + - dir.2)).
  - f_equal; lia.
  - unfold overlap. split; [lia|]. lia.
Qed.

Lemma isAdjacent_symmetric (N : Z) (p1 p2 : pattern) (k o : nat) dir dir' :
  1 ≤ N → shape N p1 → shape N p2 →
  oppositeDirIndex k = Some o →
  DIRECTIONS !! k = Some dir → DIRECTIONS !! o = Some dir' →
  isAdjacent p1 p2 dir = isAdjacent p2 p1 dir'.
Proof.
  intros HN Hs1 Hs2 Ho Hdir Hdir'.
  rewrite (opposite_direction _ _ _ Ho Hdir) in Hdir'. simplify_eq.
  destruct (isAdjacent_spec N p1 p2 dir HN Hs1 Hs2) as (b & -> & Hb);
    [by eapply list_elem_of_lookup_2|].
  destruct (isAdjacent_spec N p2 p1 (- dir.1, - dir.2) HN Hs2 Hs1)
    as (b' & -> & Hb').
  { eapply list_elem_of_lookup_2, opposite_direction; done. }
  f_equal. apply eq_true_iff_eq. rewrite Hb, Hb'. split.
  - apply agree_opposite.
  - intros H%agree_opposite. simpl in H.
    destruct dir as [dy dx]. simpl in H.
    by rewrite !Z.opp_involutive in H.
Qed.

(** *** The table of [getAdjacencies] *)

Lemma checkPair_spec ps (i j k : nat) (adj adj' : adjacency) :
  checkPair ps i j k adj = Ok adj' →
  (¬ compatible ps i j k ∧ adj' = adj)
  ∨ (compatible ps i j k
     ∧ ∃ o adj1, oppositeDirIndex k = Some o
                 ∧ setBitAt adj i k j = Ok adj1
                 ∧ setBitAt adj1 j o i = Ok adj').
Proof.
  unfold checkPair, compatible. intros H.
  destruct (ps !! i) as [p1|]; simpl in H; [|done].
  destruct (ps !! j) as [p2|]; simpl in H; [|done].
  destruct (DIRECTIONS !! k) as [dir|]; simpl in H; [|done].
  destruct (isAdjacent p1 p2 dir) as [[|]|] eqn:Hadj; simpl in H; [| |done].
  - right. split; [by exists p1, p2, dir|].
    destruct (oppositeDirIndex k) as [o|].
    + destruct (setBitAt adj i k j) as [adj1|] eqn:H1; simpl in H; [|done].
      by exists o, adj1.
    + by destruct (setBitAt adj i k j).
  - left. split; [|by simplify_eq].
    intros (q1 & q2 & d & ? & ? & ? & Hq). simplify_eq. congruence.
Qed.

Lemma checkPair_table ps (i j k : nat) (a a' : adjacency) done :
  table_inv ps a done → checkPair ps i j k a = Ok a' →
  table_inv ps a' (done ++ [(i, j, k)]).
Proof.
  intros Hinv [[Hno ->]|(Hyes & o & a1 & Ho & H1 & H2)]%checkPair_spec i' k' j'.
  - rewrite (Hinv i' k' j'). split.
    + intros (i0 & j0 & k0 & Hin & ?). exists i0, j0, k0.
      split; [apply elem_of_app; by left|done].
    + intros (i0 & j0 & k0 & [Hin|Hin%list_elem_of_singleton]%elem_of_app & Hc & ?).
      * by exists i0, j0, k0.
      * by simplify_eq.
  - rewrite (bitOf_setBitAt _ _ _ _ _ _ _ _ H2).
    rewrite (bitOf_setBitAt _ _ _ _ _ _ _ _ H1).
    rewrite !orb_true_iff, !bool_decide_eq_true, (Hinv i' k' j'). split.
    + intros [(-> & -> & ->)|[(-> & -> & ->)|(i0 & j0 & k0 & Hin & ?)]].
      * exists i, j, k. split; [apply elem_of_app; right; apply list_elem_of_here|].
        split; [done|]. right. by exists o.
      * exists i, j, k.
        split; [apply elem_of_app; right; apply list_elem_of_here|].
        split; [done|]. by left.
      * exists i0, j0, k0. split; [apply elem_of_app; by left|done].
    + intros (i0 & j0 & k0 & [Hin|Hin%list_elem_of_singleton]%elem_of_app & Hc & Hpos).
      * right. right. by exists i0, j0, k0.
      * simplify_eq. destruct Hpos as [?|(o' & ? & ?)]; simplify_eq; auto.
Qed.

Lemma getAdjacencies_table ps adj :
  getAdjacencies ps = Ok adj →
  table_inv ps adj
    (ij ← pairs (length ps); k ← seq 0 (length DIRECTIONS); [(ij.1, ij.2, k)]).
Proof.
  unfold getAdjacencies. intros H.
  apply (foldM_trace (table_inv ps) _
           (λ ij : nat * nat, k ← seq 0 (length DIRECTIONS); [(ij.1, ij.2, k)]))
    with (seen := []) in H; [done| |].
  - intros [i j] a a' done _ Ha. cbn [fst snd].
    apply (foldM_trace (table_inv ps) _ (λ k, [(i, j, k)])); [|done].
    intros k b b' done' _. apply checkPair_table.
  - intros i' k' j'. rewrite bitOf_empty. split; [done|].
    intros (? & ? & ? & []%elem_of_nil & _).
Qed.

Lemma elem_of_triples (P i j k : nat) :
  (i, j, k) ∈ (ij ← pairs P; k ← seq 0 (length DIRECTIONS); [(ij.1, ij.2, k)])
  ↔ (i < j < P)%nat ∧ (k < 4)%nat.
Proof.
  rewrite list_elem_of_bind. split.
  - intros ([i0 j0] & (k0 & Heq%list_elem_of_singleton & Hk%elem_of_seq)%list_elem_of_bind
            & Hij%elem_of_pairs).
    simpl in *. simplify_eq. lia.
  - intros [Hij Hk]. exists (i, j). split.
    + apply list_elem_of_bind. exists k.
      split; [apply list_elem_of_here|apply elem_of_seq; simpl; lia].
    + unfold pairs. apply list_elem_of_bind. exists i.
      split; [|apply elem_of_seq; lia].
      apply list_elem_of_bind. exists j.
      split; [apply list_elem_of_here|apply elem_of_seq; lia].
Qed.

(** Bit [j] of [A[i][k]] for two different patterns: whether [isAdjacent]
    holds of them in direction [k]. *)
Lemma getAdjacencies_spec (N : Z) ps adj (i j k : nat) pi pj dir :
  1 ≤ N → Forall (shape N) ps →
  getAdjacencies ps = Ok adj →
  i ≠ j → ps !! i = Some pi → ps !! j = Some pj → DIRECTIONS !! k = Some dir →
  bitOf adj i k j = true ↔ isAdjacent pi pj dir = Ok true.
Proof.
  intros HN Hps Hadj Hne Hi Hj Hk.
  pose proof (getAdjacencies_table _ _ Hadj i k j) as Hbit.
  setoid_rewrite elem_of_triples in Hbit. rewrite Hbit. clear Hbit.
  pose proof (lookup_lt_Some _ _ _ Hi). pose proof (lookup_lt_Some _ _ _ Hj).
  pose proof (lookup_lt_Some _ _ _ Hk) as Hk4. simpl in Hk4.
  assert (shape N pi) as Hsi by by eapply Forall_lookup_1.
  assert (shape N pj) as Hsj by by eapply Forall_lookup_1.
  destruct (oppositeDirIndex_total k Hk4) as [o Ho].
  pose proof (opposite_direction _ _ _ Ho Hk) as Hdo.
  split.
  - intros (i0 & j0 & k0 & [Hlt Hk0] & (q1 & q2 & d & Hq1 & Hq2 & Hd & Hq)
            & [?|(o' & Ho' & ?)]); simplify_eq; [done|].
    rewrite <- Hq. symmetry. by eapply (isAdjacent_symmetric N).
  - intros Hadj'. destruct (decide (i < j)%nat) as [Hlt|Hge].
    + exists i, j, k. split; [split; [lia|done]|].
      split; [by exists pi, pj, dir|by left].
    + exists j, i, o. split; [split; [lia|]|].
      { by apply oppositeDirIndex_lt in Ho as [_ ?]. }
      split.
      * exists pj, pi, (- dir.1, - dir.2). repeat split; try done.
        by rewrite <- (isAdjacent_symmetric N pi pj k o dir).
      * right. exists k. split; [by apply oppositeDirIndex_involutive|done].
Qed.

End AdjacencyFacts.

Import ImageLearner LearnerSpec LearnerFacts WindowSpec WindowFacts
  AdjacencySpec AdjacencyFacts.

(** X5. [isAdjacent] on two [N]x[N] patterns and one of the four directions
    returns, and it answers [true] exactly when the two patterns hold the
    same tile at every cell [(y, x)] of the first whose shift by the
    direction is a cell of the second. *)
Theorem isAdjacent_compares_overlap (N : Z) (p1 p2 : pattern) (dir : Z * Z) :
  1 ≤ N → shape N p1 → shape N p2 → dir ∈ DIRECTIONS →
  ∃ b, isAdjacent p1 p2 dir = Ok b
       ∧ (b = true ↔
          ∀ y x, 0 ≤ y < N → 0 ≤ x < N →
                 0 ≤ y + dir.1 < N → 0 ≤ x + dir.2 < N →
                 tileAt p1 y x = tileAt p2 (y + dir.1) (x + dir.2)).
Proof.
  intros HN H1 H2 Hdir.
  destruct (isAdjacent_spec N p1 p2 dir HN H1 H2 Hdir) as (b & Hb & Hagree).
  exists b. split; [exact Hb|]. rewrite Hagree. unfold agree, overlap. split.
  - intros H y x Hy Hx Hy' Hx'. apply H. repeat split; lia.
  - intros H y x ((Hy & Hx) & Hy' & Hx'). by apply H.
Qed.

Lemma isAdjacent_compares_overlap_witness :
  ∃ b, isAdjacent stripe01 stripe10 (0, -1) = Ok b
       ∧ (b = true ↔
          ∀ y x, 0 ≤ y < 2 → 0 ≤ x < 2 →
                 0 ≤ y + (0, -1).1 < 2 → 0 ≤ x + (0, -1).2 < 2 →
                 tileAt stripe01 y x
                 = tileAt stripe10 (y + (0, -1).1) (x + (0, -1).2)).
Proof.
  apply (isAdjacent_compares_overlap 2 stripe01 stripe10 (0, -1)).
  - lia.
  - split; [reflexivity|]. repeat constructor.
  - split; [reflexivity|]. repeat constructor.
  - unfold DIRECTIONS. apply list_elem_of_further, list_elem_of_further,
      list_elem_of_here.
Defined.

(** X6. What the comment of [isAdjacent] says: the answer for [p1], [p2] and
    a direction is the answer for [p2], [p1] and the opposite direction,
    which is the direction [oppositeDirIndex] names. *)
Theorem isAdjacent_opposite (N : Z) (p1 p2 : pattern) (k : nat) (dir : Z * Z) :
  1 ≤ N → shape N p1 → shape N p2 → DIRECTIONS !! k = Some dir →
  ∃ o, oppositeDirIndex k = Some o
       ∧ DIRECTIONS !! o = Some (- dir.1, - dir.2)
       ∧ isAdjacent p1 p2 dir = isAdjacent p2 p1 (- dir.1, - dir.2).
Proof.
  intros HN H1 H2 Hk.
  pose proof (lookup_lt_Some _ _ _ Hk) as Hk4. simpl in Hk4.
  destruct (oppositeDirIndex_total k Hk4) as [o Ho].
  pose proof (opposite_direction _ _ _ Ho Hk) as Hdo.
  exists o. split; [exact Ho|]. split; [exact Hdo|].
  exact (isAdjacent_symmetric N p1 p2 k o dir _ HN H1 H2 Ho Hk Hdo).
Qed.

Lemma isAdjacent_opposite_witness :
  ∃ o, oppositeDirIndex 2 = Some o
       ∧ DIRECTIONS !! o = Some (- (0, -1).1, - (0, -1).2)
       ∧ isAdjacent stripe01 stripe10 (0, -1)
         = isAdjacent stripe10 stripe01 (- (0, -1).1, - (0, -1).2).
Proof.
  apply (isAdjacent_opposite 2 stripe01 stripe10 2 (0, -1)).
  - lia.
  - split; [reflexivity|]. repeat constructor.
  - split; [reflexivity|]. repeat constructor.
  - reflexivity.
Defined.

(** X7. The adjacency table of a learned model, for [N >= 1]: bit [j] of
    [A[i][k]] is set exactly when [i] and [j] are different patterns and
    [isAdjacent] holds of pattern [i], pattern [j] and direction [k]. *)
Theorem adjacency_table_records_isAdjacent (images : list image) (N : Z)
    (m : t) (i j k : nat) (pi pj : pattern) (dir : Z * Z) :
  1 ≤ N → learn images N = Ok m →
  patterns m !! i = Some pi → patterns m !! j = Some pj →
  DIRECTIONS !! k = Some dir →
  bitOf (adjacencies m) i k j = true
  ↔ i ≠ j ∧ isAdjacent pi pj dir = Ok true.
Proof.
  intros HN (s & Hs & Hadj & Hp & _)%learn_inv Hi Hj Hk. rewrite Hp in Hi, Hj.
  apply getPatternsAndWeights_counts in Hs as (_ & Hshape & _).
  destruct (decide (i = j)) as [->|Hne].
  - rewrite (getAdjacencies_irreflexive _ _ Hadj). split; [done|].
    by intros [? _].
  - rewrite (getAdjacencies_spec N _ _ i j k pi pj dir HN Hshape Hadj Hne Hi Hj Hk).
    split; [done|by intros [_ ?]].
Qed.

Lemma adjacency_table_records_isAdjacent_witness :
  bitOf [[0; 0; 2; 2]%N; [0; 0; 1; 1]%N] 0 2 1 = true
  ↔ 0%nat ≠ 1%nat ∧ isAdjacent stripe01 stripe10 (0, -1) = Ok true.
Proof.
  apply (adjacency_table_records_isAdjacent [stripes] 2
           (mk [stripe01; stripe10] [4; 2] [[0; 0; 2; 2]%N; [0; 0; 1; 1]%N])
           0 1 2 stripe01 stripe10 (0, -1)).
  - lia.
  - vm_compute. reflexivity.
  - reflexivity.
  - reflexivity.
  - reflexivity.
Defined.

(** X8. With [N = 1] the patterns do not overlap their neighbours: in the
    learned table every pattern allows every other pattern in all four
    directions, and never itself. *)
Theorem single_tile_patterns_allow_all_others (images : list image) (m : t)
    (i j k : nat) :
  learn images 1 = Ok m →
  (i < length (patterns m))%nat → (j < length (patterns m))%nat →
  (k < 4)%nat →
  bitOf (adjacencies m) i k j = bool_decide (i ≠ j).
Proof.
  intros Hlearn Hi Hj Hk.
  destruct (lookup_lt_is_Some_2 _ _ Hi) as [pi Hpi].
  destruct (lookup_lt_is_Some_2 _ _ Hj) as [pj Hpj].
  destruct (lookup_lt_is_Some_2 DIRECTIONS k) as [dir Hdir]; [simpl; lia|].
  pose proof Hlearn as (s & Hs & Hadj & Hp & _)%learn_inv.
  apply getPatternsAndWeights_counts in Hs as (_ & Hshape & _).
  rewrite <- Hp in Hshape.
  rewrite Hp in Hpi, Hpj, Hshape.
  case_bool_decide as Hne.
  2: { subst j. by eapply getAdjacencies_irreflexive. }
  apply (getAdjacencies_spec 1 (scan_patterns s) (adjacencies m) i j k pi pj dir);
    [lia|done..|].
  destruct (isAdjacent_spec 1 pi pj dir) as (b & -> & Hb); [lia|..].
  - by eapply Forall_lookup_1.
  - by eapply Forall_lookup_1.
  - by eapply list_elem_of_lookup_2.
  - f_equal. apply Hb. intros y x ((Hy & Hx) & Hy' & Hx').
    apply list_elem_of_lookup_2, DIRECTIONS_cases in Hdir
      as [-> | [-> | [-> | ->]]]; simpl in *; lia.
Qed.

Lemma single_tile_patterns_allow_all_others_witness :
  let m := mk [[[Some 0]]; [[Some 1]]] [2; 2] [[2; 2; 2; 2]%N; [1; 1; 1; 1]%N] in
  bitOf (adjacencies m) 0 3 1 = bool_decide (0%nat ≠ 1%nat).
Proof.
  apply (single_tile_patterns_allow_all_others [[[0; 1; 0; 1]]]
           (mk [[[Some 0]]; [[Some 1]]] [2; 2]
               [[2; 2; 2; 2]%N; [1; 1; 1; 1]%N]) 0 1 3).
  - vm_compute. reflexivity.
  - simpl. lia.
  - simpl. lia.
  - lia.
Defined.

Module NumberFacts.
Import ConstraintSolver OutputSpec.

Lemma number_lt_Finite (p q : Q) :
  number_lt (Finite p) (Finite q) = true ↔ (p < q)%Q.
Proof.
  simpl. rewrite negb_true_iff. split.
  - intros H. apply Qnot_le_lt. intros Hle%Qle_bool_iff. congruence.
  - intros H. destruct (Qle_bool q p) eqn:Hle; [|done].
    apply Qle_bool_iff in Hle. by destruct (Qlt_not_le _ _ H).
Qed.

Lemma number_eq_Finite (p q : Q) :
  number_eq (Finite p) (Finite q) = true ↔ (p == q)%Q.
Proof. apply Qeq_bool_iff. Qed.

Lemma number_lt_irrefl (a : number) : number_lt a a = false.
Proof.
  destruct a as [p| | |]; try done.
  apply not_true_is_false. rewrite number_lt_Finite. apply Qlt_irrefl.
Qed.

Lemma number_lt_trans (a b c : number) :
  number_lt a b = true → number_lt b c = true → number_lt a c = true.
Proof.
  destruct a as [p| | |], b as [q| | |], c as [r| | |]; try done.
  rewrite !number_lt_Finite. apply Qlt_trans.
Qed.

Lemma number_eq_lt (a b c : number) :
  number_eq a b = true → number_lt b c = true → number_lt a c = true.
Proof.
  destruct a as [p| | |], b as [q| | |], c as [r| | |]; try done.
  rewrite number_eq_Finite, !number_lt_Finite. by intros ->.
Qed.

Lemma number_eq_not_lt (a b : number) :
  number_eq a b = true → number_lt a b = false.
Proof.
  destruct a as [p| | |], b as [q| | |]; try done.
  rewrite number_eq_Finite. intros H. apply not_true_is_false.
  rewrite number_lt_Finite, H. apply Qlt_irrefl.
Qed.

Lemma number_eq_refl (e : number) : positive e → number_eq e e = true.
Proof.
  destruct e as [p| | |]; try done. intros _. by apply number_eq_Finite.
Qed.

Lemma positive_not_below_infinity (e : number) :
  positive e → number_lt e PosInfinity = false →
  number_eq e PosInfinity = true.
Proof. by destruct e. Qed.

End NumberFacts.

Module SelectionFacts.
Import ConstraintSolver LearnerSpec SolverSpec BitmaskFacts WaveFacts
  ObserveFacts OutputSpec NumberFacts.

Lemma number_eq_sym (a b : number) : number_eq a b = number_eq b a.
Proof.
  destruct a as [p| | |], b as [q| | |]; try done.
  apply eq_true_iff_eq. rewrite !number_eq_Finite. split; by intros ->.
Qed.

Lemma number_eq_trans (a b c : number) :
  number_eq a b = true → number_eq b c = true → number_eq a c = true.
Proof.
  destruct a as [p| | |], b as [q| | |], c as [r| | |]; try done.
  rewrite !number_eq_Finite. by intros -> ->.
Qed.

Lemma number_lt_eq (a b c : number) :
  number_lt a b = true → number_eq b c = true → number_lt a c = true.
Proof.
  destruct a as [p| | |], b as [q| | |], c as [r| | |]; try done.
  rewrite number_eq_Finite, !number_lt_Finite. by intros ? <-.
Qed.

Lemma compareEntropy_cases entropyOf (w : wave) weights pos least L acc' :
  compareEntropy entropyOf w weights pos (least, L) = Ok acc' →
  ∃ e, entropyAt entropyOf w weights pos = Ok e
       ∧ ((number_lt e least = true ∧ positive e ∧ acc' = (e, [pos]))
          ∨ (¬ (number_lt e least = true ∧ positive e)
             ∧ number_eq e least = true ∧ acc' = (least, L ++ [pos]))
          ∨ (¬ (number_lt e least = true ∧ positive e)
             ∧ number_eq e least = false ∧ acc' = (least, L))).
Proof.
  unfold compareEntropy, entropyAt, positive. intros H.
  destruct (cellAt w pos.1 pos.2) as [cell|]; [|done].
  rewrite bind_Ok in H. rewrite bind_Ok.
  destruct (getShannonEntropy entropyOf cell weights) as [e|]; [|done].
  rewrite bind_Ok in H. exists e. split; [done|].
  destruct (number_lt e least && number_lt (Finite 0) e) eqn:Hlt.
  - apply andb_true_iff in Hlt as [? ?]. left. by simplify_eq.
  - apply andb_false_iff in Hlt. right.
    destruct (number_eq e least) eqn:Heq; simplify_eq; [left|right];
      (split; [|done]); intros [? ?]; destruct Hlt; congruence.
Qed.

Lemma compareEntropy_least entropyOf (w : wave) weights pos acc acc' seen :
  least_inv entropyOf w weights acc seen →
  compareEntropy entropyOf w weights pos acc = Ok acc' →
  least_inv entropyOf w weights acc' (seen ++ [pos]).
Proof.
  destruct acc as [least L]. intros (Hpos & Hinf & HL & Hmin). simpl in *.
  intros (e & He & Hcases)%compareEntropy_cases.
  assert (tiesWith entropyOf w weights least pos = number_eq e least) as Htie
    by (unfold tiesWith; by rewrite He).
  destruct Hcases as [(Hlt & Hepos & ->)|[(Hno & Heq & ->)|(Hno & Heq & ->)]];
    (split; [|split; [|split]]); cbn [fst snd]; try done.
  - rewrite List.filter_app. simpl.
    unfold tiesWith at 2. rewrite He, number_eq_refl by done.
    rewrite filter_none; [done|].
    intros p Hp%list_elem_of_In. unfold tiesWith.
    destruct (Hmin p Hp) as (e' & -> & Hmin').
    apply not_true_is_false. intros Heq.
    assert (positive e') as Hpos' by by eapply number_eq_positive.
    specialize (Hmin' Hpos').
    pose proof (number_eq_lt _ _ _ Heq Hlt). congruence.
  - intros p [Hp| ->%list_elem_of_singleton]%elem_of_app.
    + destruct (Hmin p Hp) as (e' & He' & Hmin'). exists e'. split; [done|].
      intros Hpos'. specialize (Hmin' Hpos').
      apply not_true_is_false. intros Hlt'.
      pose proof (number_lt_trans _ _ _ Hlt' Hlt). congruence.
    + exists e. split; [done|]. intros _. apply number_lt_irrefl.
  - by intros [_ ?]%app_eq_nil.
  - rewrite List.filter_app. simpl. by rewrite Htie, Heq, HL.
  - intros p [Hp| ->%list_elem_of_singleton]%elem_of_app; [by apply Hmin|].
    exists e. split; [done|]. intros _. by apply number_eq_not_lt.
  - rewrite List.filter_app. simpl. by rewrite Htie, Heq, app_nil_r.
  - intros p [Hp| ->%list_elem_of_singleton]%elem_of_app; [by apply Hmin|].
    exists e. split; [done|]. intros Hepos.
    apply not_true_is_false. intros Hlt. by apply Hno.
Qed.

Lemma list_bind_singleton {A} (l : list A) : l ≫= (λ a, [a]) = l.
Proof.
  induction l as [|a l IH]; [done|].
  change (a :: (l ≫= λ a, [a]) = a :: l). by f_equal.
Qed.

Lemma scan_least entropyOf (w : wave) weights acc :
  foldM (compareEntropy entropyOf w weights) (scanOrder w) (PosInfinity, [])
  = Ok acc →
  least_inv entropyOf w weights acc (scanOrder w).
Proof.
  intros H.
  apply (foldM_trace (least_inv entropyOf w weights) _ (λ pos, [pos]))
    with (seen := []) in H.
  - by rewrite app_nil_l, list_bind_singleton in H.
  - intros pos s s' seen _. apply compareEntropy_least.
  - repeat split; try done. intros pos []%elem_of_nil.
Qed.

Lemma getLeastEntropy_inv random entropyOf weights (st st' : state) pos :
  getLeastEntropyUnsolvedCellPosition random entropyOf weights st
  = Ok (pos, st') →
  ∃ least L,
    least_inv entropyOf (waveMatrix st) weights (least, L)
              (scanOrder (waveMatrix st))
    ∧ ((L = [] ∧ pos = (-1, -1) ∧ st' = st)
       ∨ (at_index L (randomBelow random (draws st) (Z.of_nat (length L)))
          = Some pos
          ∧ st' = mkState (waveMatrix st) (S (draws st)))).
Proof.
  unfold getLeastEntropyUnsolvedCellPosition. intros H.
  destruct (foldM _ _ _) as [[least L]|] eqn:Hscan; simpl in H; [|done].
  apply scan_least in Hscan. exists least, L. split; [done|].
  case_decide as Hlen.
  - right. destruct (at_index L _) as [pos'|] eqn:Hidx; simpl in H; [|done].
    by simplify_eq.
  - left. simplify_eq. by destruct L; [|simpl in Hlen; lia].
Qed.

(** When the scan lists no cell, no cell has an entropy above 0. *)
Lemma least_inv_none entropyOf (w : wave) weights least seen :
  least_inv entropyOf w weights (least, []) seen →
  ∀ p, p ∈ seen → ∃ e, entropyAt entropyOf w weights p = Ok e ∧ ¬ positive e.
Proof.
  intros (Hpos & Hinf & HL & Hmin) p Hp. cbn [fst snd] in *.
  destruct (Hmin p Hp) as (e & He & Hlt). exists e.
  split; [done|]. intros Hepos. specialize (Hlt Hepos).
  rewrite (Hinf eq_refl) in Hlt, HL.
  pose proof (positive_not_below_infinity e Hepos Hlt) as Heq.
  assert (In p (List.filter (tiesWith entropyOf w weights PosInfinity) seen))
    as Hin.
  { apply filter_In. split; [by apply list_elem_of_In|].
    unfold tiesWith. by rewrite He. }
  by rewrite <- HL in Hin.
Qed.

Lemma scanOrder_nonneg (w : wave) (pos : position) :
  pos ∈ scanOrder w → 0 ≤ pos.1 ∧ 0 ≤ pos.2.
Proof.
  unfold scanOrder. destruct w as [|row0 w']; [by intros []%elem_of_nil|].
  intros (y & (x & ->%list_elem_of_singleton & _)%list_elem_of_bind & _)%list_elem_of_bind.
  simpl. lia.
Qed.

(** The selection answers [[-1, -1]] only when no cell has an entropy
    above 0. *)
Lemma getLeastEntropy_none random entropyOf weights (st st' : state) :
  getLeastEntropyUnsolvedCellPosition random entropyOf weights st
  = Ok ((-1, -1), st') →
  st' = st
  ∧ ∀ p, p ∈ scanOrder (waveMatrix st) →
      ∃ e, entropyAt entropyOf (waveMatrix st) weights p = Ok e
           ∧ ¬ positive e.
Proof.
  intros (least & L & Hinv & [(-> & _ & ->)|[Hidx _]])%getLeastEntropy_inv.
  - split; [done|]. by eapply least_inv_none.
  - exfalso. destruct Hinv as (_ & _ & HL & _). cbn [fst snd] in HL.
    apply at_index_Some_iff in Hidx as [_ Hidx].
    apply list_elem_of_lookup_2 in Hidx. rewrite HL in Hidx.
    apply list_elem_of_In, filter_In in Hidx as [Hin%list_elem_of_In _].
    apply scanOrder_nonneg in Hin. simpl in Hin. lia.
Qed.

Lemma tiesWith_ext entropyOf (w : wave) weights (e least : number) l :
  number_eq e least = true →
  List.filter (tiesWith entropyOf w weights e) l
  = List.filter (tiesWith entropyOf w weights least) l.
Proof.
  intros Heq. apply List.filter_ext. intros pos. unfold tiesWith.
  destruct (entropyAt entropyOf w weights pos) as [e'|]; [|done].
  apply eq_true_iff_eq. split; intros H.
  - by eapply number_eq_trans.
  - eapply number_eq_trans; [done|]. by rewrite number_eq_sym.
Qed.

End SelectionFacts.

Import ConstraintSolver LearnerSpec SolverSpec BitmaskFacts WaveFacts
  ObserveFacts OutputSpec NumberFacts SelectionFacts.

(** X9. What [getLeastEntropyUnsolvedCellPosition] returns. The wave is left
    as it is. Either no cell has an entropy above 0: then the position is
    [[-1, -1]] and no random number is drawn. Or the position is a cell of
    the wave whose entropy is above 0, no cell has an entropy above 0 and
    below it, and the position is drawn (one random number) from the [n]
    cells with that same entropy, listed in the order of the scan: it is
    the one at the index [Math.floor(Math.random() * n)], the floor of the
    product as a Number. *)
Theorem least_entropy_selection (random : nat → Q)
    (entropyOf : list (option Z) → number) (weights : list Z)
    (st st' : state) (pos : position) :
  getLeastEntropyUnsolvedCellPosition random entropyOf weights st
  = Ok (pos, st') →
  let w := waveMatrix st in
  waveMatrix st' = w
  ∧ ((pos = (-1, -1) ∧ draws st' = draws st
      ∧ ∀ p, p ∈ scanOrder w →
          ∃ e, entropyAt entropyOf w weights p = Ok e ∧ ¬ positive e)
     ∨ (draws st' = S (draws st) ∧ pos ∈ scanOrder w
        ∧ ∃ e, entropyAt entropyOf w weights pos = Ok e ∧ positive e
               ∧ (∀ p, p ∈ scanOrder w →
                    ∃ e', entropyAt entropyOf w weights p = Ok e'
                          ∧ (positive e' → number_lt e' e = false))
               ∧ let ties :=
                   List.filter (tiesWith entropyOf w weights e) (scanOrder w) in
                 at_index ties
                   (randomBelow random (draws st) (Z.of_nat (length ties)))
                 = Some pos)).
Proof.
  intros (least & L & (Hpos & Hinf & HL & Hmin) & Hcases)%getLeastEntropy_inv w.
  cbn [fst snd] in *. fold w in HL, Hmin.
  destruct Hcases as [(-> & -> & ->)|[Hidx ->]].
  - split; [done|]. left. split; [done|]. split; [done|].
    by apply (least_inv_none entropyOf w weights least).
  - split; [done|]. right. split; [done|].
    assert (pos ∈ L) as Hin.
    { apply at_index_Some_iff in Hidx as [_ Hidx].
      by eapply list_elem_of_lookup_2. }
    rewrite HL in Hin. apply list_elem_of_In, filter_In in Hin as [Hin Htie].
    apply list_elem_of_In in Hin. split; [done|].
    unfold tiesWith in Htie.
    destruct (entropyAt entropyOf w weights pos) as [e|] eqn:He; [|done].
    exists e. split; [done|].
    assert (positive e) as Hepos by by eapply number_eq_positive.
    split; [done|]. split.
    + intros p Hp. destruct (Hmin p Hp) as (e' & He' & Hlt). exists e'.
      split; [done|]. intros Hpos'. specialize (Hlt Hpos').
      apply not_true_is_false. intros Hlt'.
      pose proof (number_lt_eq _ _ _ Hlt' Htie). congruence.
    + cbn zeta. by rewrite (tiesWith_ext _ _ _ e least), <- HL.
Qed.

Lemma least_entropy_selection_witness :
  let random := λ _ : nat, (2573485501354569 # 4503599627370496)%Q in
  let entropyOf := λ _ : list (option Z), Finite 1 in
  let weights : list Z := [1; 1] in
  let st := mkState [[3; 3; 3; 3; 3; 3; 3]%N] 0 in
  let st' := mkState [[3; 3; 3; 3; 3; 3; 3]%N] 1 in
  let pos : position := (0, 4) in
  let w := waveMatrix st in
  waveMatrix st' = w
  ∧ ((pos = (-1, -1) ∧ draws st' = draws st
      ∧ ∀ p, p ∈ scanOrder w →
          ∃ e, entropyAt entropyOf w weights p = Ok e ∧ ¬ positive e)
     ∨ (draws st' = S (draws st) ∧ pos ∈ scanOrder w
        ∧ ∃ e, entropyAt entropyOf w weights pos = Ok e ∧ positive e
               ∧ (∀ p, p ∈ scanOrder w →
                    ∃ e', entropyAt entropyOf w weights p = Ok e'
                          ∧ (positive e' → number_lt e' e = false))
               ∧ let ties :=
                   List.filter (tiesWith entropyOf w weights e) (scanOrder w) in
                 at_index ties
                   (randomBelow random (draws st) (Z.of_nat (length ties)))
                 = Some pos)).
Proof.
  apply (least_entropy_selection
           (λ _, (2573485501354569 # 4503599627370496)%Q)
           (λ _, Finite 1) [1; 1]
           (mkState [[3; 3; 3; 3; 3; 3; 3]%N] 0)
           (mkState [[3; 3; 3; 3; 3; 3; 3]%N] 1) (0, 4)).
  vm_compute. reflexivity.
Defined.


(** ** What a solved wave satisfies *)

Module OutputFacts.
Import ConstraintSolver LearnerSpec SolverSpec BitmaskFacts WaveFacts
  PropagateFacts ObserveFacts SolveFacts Confluence OutputSpec NumberFacts
  SelectionFacts.

Lemma fresh_cellAt_full (P : nat) (width height y x : Z) (c : Bitmask.t) :
  cellAt (initializeWaveMatrix P width height) y x = Ok c ↔
  (0 ≤ y < height ∧ 0 ≤ x < width) ∧ c = fullMask P.
Proof.
  rewrite cellAt_Ok. unfold initializeWaveMatrix, Bitmask.createCopy.
  fold (fullMask P). split.
  - intros (Hy & Hx & row & [-> Hy']%lookup_replicate
            & [-> Hx']%lookup_replicate). split; [lia|done].
  - intros [[Hy Hx] ->]. split; [lia|]. split; [lia|].
    eexists. split; apply lookup_replicate; (split; [done|lia]).
Qed.

Lemma fullMask_test (P i : nat) :
  Bitmask.test (fullMask P) i = bool_decide (i < P)%nat.
Proof. apply allPatternsPossible_test. Qed.

(** A cell that constrains its neighbours still does when the wave
    shrinks around it. *)
Lemma stable_shrink adj (w w' : wave) (c : position) :
  stable adj w c → subwave w' w →
  cellAt w' c.1 c.2 = cellAt w c.1 c.2 →
  stable adj w' c.
Proof.
  intros (cell1 & Hcell1 & Hst) Hsub Hsame. exists cell1.
  split; [by rewrite Hsame|].
  intros k y2 x2 Hk Hn Hb%(inBounds_subwave _ _ _ _ Hsub).
  destruct (Hst k y2 x2 Hk Hn Hb) as (cell2 & M & Hc2 & HM & Hcm).
  destruct (subwave_cellAt _ _ _ _ _ Hsub Hc2) as (c2' & Hc2' & Hcc).
  exists c2', M. split; [done|]. split; [done|]. by eapply submask_trans.
Qed.

Lemma settled_fresh adj (P : nat) (width height : Z) :
  settled adj P (initializeWaveMatrix P width height).
Proof. intros y x c [_ ->]%fresh_cellAt_full Hne. done. Qed.

(** One observation followed by a propagation without contradiction. *)
Lemma observe_propagate_settled random adj (P : nat) weights (fuel : nat)
    (y x : Z) (st st1 : state) (wf : wave) :
  settled adj P (waveMatrix st) →
  observe random y x weights st = Ok st1 →
  propagate fuel y x adj (waveMatrix st1) = Some (Ok (false, wf)) →
  settled adj P wf ∧ subwave wf (waveMatrix st).
Proof.
  intros Hset Hobs Hprop.
  pose proof (observe_shrinks _ _ _ _ _ _ Hobs) as [Hsub1 _].
  apply observe_cases in Hobs as (cell & p & Hcell & Hp & ->). simpl in *.
  pose proof Hcell as (Hy & Hx & _)%cellAt_Ok.
  rewrite propagate_unfold in Hprop. apply propagateLoop_sweep in Hprop.
  destruct (sweep_facts _ _ _ _ Hprop) as (Hsub & Hqueue & Hchanged).
  assert (subwave wf (waveMatrix st)) as Hsub0 by by eapply subwave_trans.
  split; [|done].
  intros y' x' c Hc Hne.
  destruct (subwave_cellAt_l _ _ _ _ _ Hsub Hc) as (c1 & Hc1 & _).
  destruct (decide (c = c1)) as [<-|Hdiff]; [|by eapply Hchanged].
  destruct (decide ((y', x') = (y, x))) as [[= -> ->]|Hpos].
  { apply Hqueue, list_elem_of_here. }
  rewrite cellAt_setCell_ne in Hc1 by done.
  apply (stable_shrink adj (waveMatrix st)); [by eapply Hset|done|].
  simpl. by rewrite Hc, Hc1.
Qed.

Lemma inBounds_fresh (P : nat) (width height y x : Z) :
  inBounds (initializeWaveMatrix P width height) y x
  ↔ 0 ≤ y < height ∧ 0 ≤ x < width.
Proof.
  unfold inBounds, initializeWaveMatrix. rewrite length_replicate. split.
  - intros [Hy (row0 & [-> _]%lookup_replicate & Hx)].
    rewrite length_replicate in Hx. lia.
  - intros [Hy Hx]. split; [lia|]. eexists. split.
    + apply lookup_replicate. split; [done|lia].
    + rewrite length_replicate. lia.
Qed.

(** On the grid of the fresh wave the scan of the selection visits every
    cell. *)
Lemma scanOrder_complete (P : nat) (width height : Z) (F : wave) (y x : Z) c :
  subwave F (initializeWaveMatrix P width height) →
  cellAt F y x = Ok c → (y, x) ∈ scanOrder F.
Proof.
  intros Hsub Hc.
  destruct (subwave_cellAt_l _ _ _ _ _ Hsub Hc) as (c0 & Hc0 & _).
  apply fresh_cellAt_full in Hc0 as [[Hy Hx] _].
  pose proof (proj2 (inBounds_subwave _ _ y x Hsub)
                (proj2 (inBounds_fresh P width height y x) (conj Hy Hx)))
    as [Hy' (row0 & Hrow0 & Hx')].
  unfold scanOrder. destruct F as [|r F'] eqn:HF; [done|]. rewrite <- HF in *.
  assert (r = row0) as -> by (rewrite HF in Hrow0; by simplify_eq/=).
  apply list_elem_of_bind. exists (Z.to_nat y). split; [|apply elem_of_seq; lia].
  apply list_elem_of_bind. exists (Z.to_nat x). split; [|apply elem_of_seq; lia].
  rewrite !Z2Nat.id by lia. apply list_elem_of_here.
Qed.

(** A cell without an entropy above 0 holds exactly one pattern. *)
Lemma not_positive_singleton entropyOf (P : nat) weights (c : Bitmask.t) e :
  entropy_positive entropyOf weights P →
  (∀ i, (i < P)%nat → ∃ w, weights !! i = Some w ∧ 0 < w) →
  submask c (fullMask P) →
  getShannonEntropy entropyOf c weights = Ok e → ¬ positive e →
  ∃ p, Bitmask.toArray c = [p] ∧ (p < P)%nat.
Proof.
  intros Hent Hweights Hsub He Hnot. unfold getShannonEntropy in He.
  case_decide as H0; [done|]. case_decide as H1.
  - destruct (Bitmask.toArray c) as [|p [|??]] eqn:Hp; try done.
    exists p. split; [done|].
    assert (Bitmask.test c p = true) as Hbit.
    { apply elem_of_toArray. rewrite Hp. apply list_elem_of_here. }
    apply Hsub in Hbit. rewrite fullMask_test in Hbit.
    by apply bool_decide_eq_true in Hbit.
  - simplify_eq. destruct Hnot. apply Hent; [done|lia].
Qed.

Lemma singleton_not_full (P : nat) (c : Bitmask.t) (p : nat) :
  (2 ≤ P)%nat → Bitmask.toArray c = [p] → c ≠ fullMask P.
Proof.
  intros HP Hc ->.
  assert (0%nat ∈ Bitmask.toArray (fullMask P)) as H0.
  { apply elem_of_toArray. rewrite fullMask_test.
    apply bool_decide_eq_true. lia. }
  assert (1%nat ∈ Bitmask.toArray (fullMask P)) as H1.
  { apply elem_of_toArray. rewrite fullMask_test.
    apply bool_decide_eq_true. lia. }
  rewrite Hc in H0, H1.
  apply list_elem_of_singleton in H0, H1. congruence.
Qed.

(** A cell with the single pattern [p] that constrains its neighbours: a
    neighbour with the single pattern [p2] has it allowed by the table. *)
Lemma stable_singletons adj (F : wave) (y x : Z) (c : Bitmask.t) (p : nat)
    (k : nat) (y2 x2 : Z) (c2 : Bitmask.t) (p2 : nat) :
  stable adj F (y, x) → cellAt F y x = Ok c → Bitmask.toArray c = [p] →
  (k < 4)%nat → neighbour y x k = Some (y2, x2) → inBounds F y2 x2 →
  cellAt F y2 x2 = Ok c2 → Bitmask.toArray c2 = [p2] →
  bitOf adj p k p2 = true.
Proof.
  intros (cell1 & Hcell1 & Hst) Hc Hp Hk Hn Hb Hc2 Hp2. cbn [fst snd] in *.
  rewrite Hc in Hcell1. simplify_eq.
  destruct (Hst k y2 x2) as (cell2 & M & Hcell2 & HM & Hsub); [|done..|].
  { apply elem_of_seq. simpl. lia. }
  rewrite Hc2 in Hcell2. simplify_eq. rewrite Hp in HM.
  assert (Bitmask.test cell2 p2 = true) as Hbit.
  { apply elem_of_toArray. rewrite Hp2. apply list_elem_of_here. }
  apply Hsub in Hbit.
  apply (unionOfAdjacent_test _ _ _ _ _ HM) in Hbit
    as (i & row & m & ->%list_elem_of_singleton & Hrow & Hm & Hbit).
  unfold bitOf. by rewrite Hrow, Hm.
Qed.

Section Loop.
Variable random : nat → Q.
Variable entropyOf : list (option Z) → number.
Variable numPatterns : nat.
Variable weights : list Z.
Variable adjacencies : adjacency.
Variables width height maxAttempts : Z.

(** A call of the loop that returns [true] returns a wave on the grid of
    the fresh wave in which every cell that lost a pattern constrains its
    neighbours, and the selection has found no cell with an entropy above
    0 in it. *)
Lemma solveLoop_settled (fuel pfuel : nat) st (y x n : Z) o :
  settled adjacencies numPatterns (waveMatrix st) →
  subwave (waveMatrix st) (initializeWaveMatrix numPatterns width height) →
  solveLoop random entropyOf fuel pfuel numPatterns weights adjacencies
            width height maxAttempts st y x n = Some (Ok o) →
  returned o = true →
  let F := waveMatrix (final o) in
  settled adjacencies numPatterns F
  ∧ subwave F (initializeWaveMatrix numPatterns width height)
  ∧ ∀ p, p ∈ scanOrder F →
      ∃ e, entropyAt entropyOf F weights p = Ok e ∧ ¬ positive e.
Proof.
  revert st y x n.
  induction fuel as [|fuel IH]; intros st y x n Hset Hsub H Htrue; [done|].
  simpl in H. case_decide as Hn; [|by simplify_eq].
  destruct (observe random y x weights st) as [st1|e] eqn:Hobs; [|done].
  destruct (propagate pfuel y x adjacencies (waveMatrix st1))
    as [[[[|] wf]|e]|] eqn:Hprop; [| |done..].
  - eapply IH; [| |exact H|done]; simpl.
    + apply settled_fresh.
    + apply subwave_refl.
  - destruct (observe_propagate_settled _ _ _ _ _ _ _ _ _ _ Hset Hobs Hprop)
      as [Hset' Hsub'].
    assert (subwave wf (initializeWaveMatrix numPatterns width height))
      as Hsubf by by eapply subwave_trans.
    destruct (getLeastEntropyUnsolvedCellPosition _ _ _ _)
      as [[[y' x'] st2]|e] eqn:Hsel; [|done].
    assert (waveMatrix st2 = wf) as Hst2.
    { apply getLeastEntropy_cases in Hsel as [[_ ->]|[-> _]]; done. }
    case_decide as Hdone.
    + destruct Hdone as [-> ->].
      apply getLeastEntropy_none in Hsel as [-> Hnone]. simplify_eq. done.
    + eapply IH; [| |exact H|done]; by rewrite Hst2.
Qed.

End Loop.

(** The wave of a call of [solve] that returns [true]. *)
Lemma solve_true (random : nat → Q)
    (entropyOf : list (option Z) → number) {pattern : Type}
    (patterns : list pattern) (weights : list Z) (adjacencies : adjacency)
    (setTiles : list SetTileInstruction) (width height maxAttempts : Z)
    (draws0 fuel : nat) (o : outcome) :
  (2 ≤ length patterns)%nat →
  (∀ i, (i < length patterns)%nat → ∃ w, weights !! i = Some w ∧ 0 < w) →
  entropy_positive entropyOf weights (length patterns) →
  solve random entropyOf fuel patterns weights adjacencies setTiles
        width height maxAttempts draws0 = Some (Ok o) →
  returned o = true →
  let F := waveMatrix (final o) in
  (∀ y x, (∃ c, cellAt F y x = Ok c) ↔ 0 ≤ y < height ∧ 0 ≤ x < width)
  ∧ ∀ y x c,
      cellAt F y x = Ok c →
      ∃ p, Bitmask.toArray c = [p] ∧ (p < length patterns)%nat
           ∧ ∀ k y2 x2 c2,
               (k < 4)%nat → neighbour y x k = Some (y2, x2) →
               cellAt F y2 x2 = Ok c2 →
               ∃ p2, Bitmask.toArray c2 = [p2]
                     ∧ bitOf adjacencies p k p2 = true.
Proof.
  intros HP Hweights Hent Hsolve Htrue F. unfold solve in Hsolve.
  apply solveLoop_settled in Hsolve as (Hset & Hsub & Hnone);
    [|apply settled_fresh|apply subwave_refl|done].
  fold F in Hset, Hsub, Hnone.
  assert (∀ y x c, cellAt F y x = Ok c →
            (0 ≤ y < height ∧ 0 ≤ x < width)
            ∧ ∃ p, Bitmask.toArray c = [p] ∧ (p < length patterns)%nat)
    as Hcell.
  { intros y x c Hc.
    destruct (subwave_cellAt_l _ _ _ _ _ Hsub Hc) as (c0 & Hc0 & Hcc).
    apply fresh_cellAt_full in Hc0 as [Hrange ->]. split; [done|].
    destruct (Hnone (y, x)) as (e & He & Hnot).
    { by eapply scanOrder_complete. }
    unfold entropyAt in He. simpl in He. rewrite Hc, bind_Ok in He.
    by eapply not_positive_singleton. }
  split.
  - intros y x. split.
    + intros [c Hc]. by apply Hcell in Hc as [? _].
    + intros Hrange.
      destruct (subwave_cellAt F _ y x (fullMask (length patterns)) Hsub)
        as (c & Hc & _); [by apply fresh_cellAt_full|].
      by exists c.
  - intros y x c Hc. destruct (Hcell y x c Hc) as (_ & p & Hp & Hlt).
    exists p. split; [done|]. split; [done|].
    intros k y2 x2 c2 Hk Hn Hc2.
    destruct (Hcell y2 x2 c2 Hc2) as (Hrange2 & p2 & Hp2 & _).
    exists p2. split; [done|].
    eapply (stable_singletons adjacencies F y x c p k y2 x2 c2 p2); try done.
    + eapply Hset; [done|]. by eapply singleton_not_full.
    + apply (inBounds_subwave _ _ _ _ Hsub). by apply inBounds_fresh.
Qed.

End OutputFacts.

Import PropagateFacts SolveFacts Confluence OutputFacts.

(** X10. The wave of a call of [solve] that returns [true], for two patterns
    or more with positive weights, when the entropy that
    [getShannonEntropy] computes from the weights of the call is above 0
    for every mask of two or more patterns: it has [height] rows of
    [width] cells,
    every cell holds exactly one pattern, and every pair of neighbouring
    cells is allowed by the adjacency table: when the cell at [(y, x)]
    holds [p] and its neighbour for direction [k] (the cell at
    [(y, x) - DIRECTIONS[k]]) holds [p2], bit [p2] of
    [adjacencies[p][k]] is set. *)
Theorem solved_wave_respects_adjacencies (random : nat → Q)
    (entropyOf : list (option Z) → number) {pattern : Type}
    (patterns : list pattern) (weights : list Z) (adjacencies : adjacency)
    (setTiles : list SetTileInstruction) (width height maxAttempts : Z)
    (draws0 fuel : nat) (o : outcome) :
  (2 ≤ length patterns)%nat →
  (∀ i, (i < length patterns)%nat → ∃ w, weights !! i = Some w ∧ 0 < w) →
  entropy_positive entropyOf weights (length patterns) →
  solve random entropyOf fuel patterns weights adjacencies setTiles
        width height maxAttempts draws0 = Some (Ok o) →
  returned o = true →
  let F := waveMatrix (final o) in
  (∀ y x, (∃ c, cellAt F y x = Ok c) ↔ 0 ≤ y < height ∧ 0 ≤ x < width)
  ∧ ∀ y x c,
      cellAt F y x = Ok c →
      ∃ p, Bitmask.toArray c = [p] ∧ (p < length patterns)%nat
           ∧ ∀ k y2 x2 c2,
               (k < 4)%nat → neighbour y x k = Some (y2, x2) →
               cellAt F y2 x2 = Ok c2 →
               ∃ p2, Bitmask.toArray c2 = [p2]
                     ∧ bitOf adjacencies p k p2 = true.
Proof.
  intros HP Hweights Hent Hsolve Htrue.
  exact (solve_true random entropyOf patterns weights adjacencies setTiles
           width height maxAttempts draws0 fuel o HP Hweights Hent Hsolve
           Htrue).
Qed.

Lemma solved_wave_respects_adjacencies_witness :
  let adjacencies := [[0; 0; 2; 2]%N; [0; 0; 1; 1]%N] in
  let F := [[1; 2]%N] in
  (∀ y x, (∃ c, cellAt F y x = Ok c) ↔ 0 ≤ y < 1 ∧ 0 ≤ x < 2)
  ∧ ∀ y x c,
      cellAt F y x = Ok c →
      ∃ p, Bitmask.toArray c = [p] ∧ (p < 2)%nat
           ∧ ∀ k y2 x2 c2,
               (k < 4)%nat → neighbour y x k = Some (y2, x2) →
               cellAt F y2 x2 = Ok c2 →
               ∃ p2, Bitmask.toArray c2 = [p2]
                     ∧ bitOf adjacencies p k p2 = true.
Proof.
  apply (solved_wave_respects_adjacencies (λ _, 0%Q) (λ _, Finite 1)
           [stripe01; stripe10] [4; 2] [[0; 0; 2; 2]%N; [0; 0; 1; 1]%N]
           [] 2 1 10 0 20 (mkOutcome true (mkState [[1; 2]%N] 3) 1)).
  - simpl. lia.
  - intros [|[|i]] Hi; [exists 4|exists 2|simpl in Hi; lia];
      (split; [reflexivity|lia]).
  - intros ws _ _. reflexivity.
  - vm_compute. reflexivity.
  - reflexivity.
Defined.

Module FixpointFacts.
Import ConstraintSolver LearnerSpec SolverSpec BitmaskFacts WaveFacts
  PropagateFacts ObserveFacts SolveFacts Confluence OutputSpec OutputFacts.

(** The visit of one direction from a cell that constrains its neighbours
    changes nothing. *)
Lemma relax_stable adj (F : wave) (y x : Z) (cell1 : Bitmask.t) (k : nat) q :
  allNonempty F → stable adj F (y, x) → cellAt F y x = Ok cell1 →
  (k < 4)%nat →
  relax adj y x (Bitmask.toArray cell1) k F q = Ok (false, F, q).
Proof.
  intros Hne (c1 & Hc1 & Hst) Hcell1 Hk. cbn [fst snd] in *.
  rewrite Hcell1 in Hc1. simplify_eq. unfold relax.
  destruct (lookup_lt_is_Some_2 DIRECTIONS k) as [[d1 d2] Hdir];
    [simpl; lia|].
  rewrite Hdir. cbn [defined]. rewrite bind_Ok.
  cbn beta iota zeta delta [fst snd].
  case_decide as Hy; [done|].
  destruct (F !! 0%nat) as [row0|] eqn:Hrow0.
  2: { apply lookup_ge_None in Hrow0. lia. }
  cbn [defined]. rewrite bind_Ok. case_decide as Hx; [done|].
  destruct (Hst k (y + - d1) (x + - d2)) as (cell2 & M & Hc2 & HM & Hsub).
  { apply elem_of_seq. simpl. lia. }
  { unfold neighbour. by rewrite Hdir. }
  { split; [lia|]. exists row0. split; [done|lia]. }
  rewrite Hc2, bind_Ok, HM, bind_Ok. cbn zeta.
  unfold Bitmask.AND. rewrite (submask_land _ _ Hsub).
  assert (Bitmask.isEmpty cell2 = false) as ->.
  { apply not_true_is_false. intros ->%isEmpty_true.
    by eapply (allNonempty_cellAt F). }
  assert (Bitmask.EQUALS cell2 cell2 = true) as -> by by apply EQUALS_true.
  done.
Qed.

Lemma visit_stable adj (F : wave) (y x : Z) (cell1 : Bitmask.t) ks q :
  allNonempty F → stable adj F (y, x) → cellAt F y x = Ok cell1 →
  (∀ k, k ∈ ks → (k < 4)%nat) →
  visit adj y x (Bitmask.toArray cell1) ks F q = Ok (false, F, q).
Proof.
  intros Hne Hst Hcell1. induction ks as [|k ks IH]; intros Hks; [done|].
  simpl. rewrite (relax_stable adj F y x cell1 k q) by
    (try done; apply Hks, list_elem_of_here).
  rewrite bind_Ok. cbn beta iota. apply IH.
  intros k' Hk'. by apply Hks, list_elem_of_further.
Qed.

End FixpointFacts.

Import ConstraintSolver LearnerSpec SolverSpec BitmaskFacts WaveFacts
  PropagateFacts ObserveFacts SolveFacts Confluence OutputSpec OutputFacts
  FixpointFacts.

(** X11. The wave a propagation without contradiction leaves: no mask has
    grown, and the cell the propagation started from and every cell whose
    mask it changed constrain their neighbours in it, that is, each of
    their neighbours in the grid holds only patterns that the table allows
    next to one of the patterns of the cell. *)
Theorem propagate_leaves_cells_stable (adj : adjacency) (fuel : nat)
    (y x : Z) (w wf : wave) :
  propagate fuel y x adj w = Some (Ok (false, wf)) →
  subwave wf w
  ∧ stable adj wf (y, x)
  ∧ ∀ y' x' cw cf,
      cellAt w y' x' = Ok cw → cellAt wf y' x' = Ok cf → cf ≠ cw →
      stable adj wf (y', x').
Proof.
  rewrite propagate_unfold. intros Hrun%propagateLoop_sweep.
  destruct (sweep_facts adj w wf [(y, x)] Hrun) as (Hsub & Hqueue & Hchanged).
  split; [exact Hsub|]. split; [|exact Hchanged].
  apply Hqueue, list_elem_of_here.
Qed.

Lemma propagate_leaves_cells_stable_witness :
  let adj := [[0; 0; 2; 2]%N; [0; 0; 1; 1]%N] in
  let w := [[1; 3; 3]%N] in
  let wf := [[1; 2; 1]%N] in
  subwave wf w
  ∧ stable adj wf (0, 0)
  ∧ ∀ y' x' cw cf,
      cellAt w y' x' = Ok cw → cellAt wf y' x' = Ok cf → cf ≠ cw →
      stable adj wf (y', x').
Proof.
  apply (propagate_leaves_cells_stable [[0; 0; 2; 2]%N; [0; 0; 1; 1]%N] 10
           0 0 [[1; 3; 3]%N] [[1; 2; 1]%N]).
  vm_compute. reflexivity.
Defined.

(** X12. Propagation is idempotent: on a wave without empty masks, a
    propagation from a cell that ended without contradiction, run again
    from the same cell on the wave it left, changes nothing and reports no
    contradiction. *)
Theorem propagate_idempotent (adj : adjacency) (fuel fuel' : nat) (y x : Z)
    (w wf : wave) :
  allNonempty w →
  propagate fuel y x adj w = Some (Ok (false, wf)) →
  (2 ≤ fuel')%nat →
  propagate fuel' y x adj wf = Some (Ok (false, wf)).
Proof.
  intros Hne Hprop Hfuel.
  pose proof (propagateLoop_shrinks _ _ _ _ _ _ Hprop) as [_ Hne'].
  specialize (Hne' Hne).
  rewrite propagate_unfold in Hprop. apply propagateLoop_sweep in Hprop.
  destruct (sweep_facts adj w wf [(y, x)] Hprop) as (_ & Hqueue & _).
  pose proof (Hqueue (y, x) (list_elem_of_here _ _)) as Hst.
  pose proof Hst as (cell1 & Hcell1 & _). cbn [fst snd] in Hcell1.
  destruct fuel' as [|[|fuel']]; [lia..|].
  rewrite propagate_unfold, propagateLoop_unfold.
  unfold dequeueAndVisit. cbn [fst snd]. rewrite Hcell1, bind_Ok.
  rewrite (visit_stable adj wf y x cell1); [done..|].
  intros k Hk%elem_of_seq. simpl in Hk. lia.
Qed.

Lemma propagate_idempotent_witness :
  propagate 2 0 0 [[0; 0; 2; 2]%N; [0; 0; 1; 1]%N] [[1; 2; 1]%N]
  = Some (Ok (false, [[1; 2; 1]%N])).
Proof.
  apply (propagate_idempotent [[0; 0; 2; 2]%N; [0; 0; 1; 1]%N] 10 2 0 0
           [[1; 3; 3]%N] [[1; 2; 1]%N]).
  - repeat constructor; discriminate.
  - vm_compute. reflexivity.
  - lia.
Defined.

Import ImageLearner LearnerSpec LearnerFacts WindowSpec WindowFacts
  AdjacencySpec AdjacencyFacts.
Import ConstraintSolver SolverSpec BitmaskFacts WaveFacts
  PropagateFacts ObserveFacts SolveFacts ChooseFacts Confluence Safety
  OutputSpec OutputFacts.

(** ** Inputs at the edge *)

(** X13. On a grid without cells ([width] or [height] below 1) a call of
    [solve] with at least one attempt throws a [TypeError]: the first
    observation reads a cell that does not exist. *)
Theorem solve_on_empty_grid_throws (random : nat → Q)
    (entropyOf : list (option Z) → number) {pattern : Type}
    (patterns : list pattern) (weights : list Z) (adjacencies : adjacency)
    (setTiles : list SetTileInstruction) (width height maxAttempts : Z)
    (draws0 fuel : nat) :
  width < 1 ∨ height < 1 → 1 ≤ maxAttempts → (1 ≤ fuel)%nat →
  solve random entropyOf fuel patterns weights adjacencies setTiles
        width height maxAttempts draws0
  = Some (Throw TypeError).
Proof.
  intros Hgrid Hmax Hfuel. destruct fuel as [|fuel]; [lia|].
  unfold solve. simpl. rewrite decide_True by lia.
  unfold observe. cbn [waveMatrix].
  destruct (cellAt _ _ _) as [c|e] eqn:Hc.
  - apply fresh_cellAt_full in Hc as [[? ?] _]. lia.
  - by apply cellAt_only_TypeError in Hc as ->.
Qed.

Lemma solve_on_empty_grid_throws_witness :
  solve (λ _, 0%Q) (λ _, Finite 1) 1 [stripe01; stripe10] [4; 2]
        [[0; 0; 2; 2]%N; [0; 0; 1; 1]%N] [] 0 3 10 0
  = Some (Throw TypeError).
Proof.
  apply (solve_on_empty_grid_throws (λ _, 0%Q) (λ _, Finite 1)
           [stripe01; stripe10] [4; 2] [[0; 0; 2; 2]%N; [0; 0; 1; 1]%N]
           [] 0 3 10 0 1); [left|..]; lia.
Defined.

(** X14. Without patterns, on a grid with cells and with at least one
    attempt, [solve] throws the error of [observe], "A pattern wasn't
    chosen within the for loop": every mask of the fresh wave is empty. *)
Theorem solve_without_patterns_throws (random : nat → Q)
    (entropyOf : list (option Z) → number) {pattern : Type}
    (patterns : list pattern) (weights : list Z)
    (adjacencies : adjacency) (setTiles : list SetTileInstruction)
    (width height maxAttempts : Z) (draws0 fuel : nat) :
  patterns = [] →
  (∀ n, (0 <= random n)%Q ∧ (random n < 1)%Q) →
  1 ≤ width → 1 ≤ height → 1 ≤ maxAttempts → (1 ≤ fuel)%nat →
  solve random entropyOf fuel patterns weights
        adjacencies setTiles width height maxAttempts draws0
  = Some (Throw NoPatternChosen).
Proof.
  intros -> Hrandom Hwidth Hheight Hmax Hfuel.
  destruct fuel as [|fuel]; [lia|].
  unfold solve. simpl length. simpl solveLoop. rewrite decide_True by lia.
  unfold observe. cbn [waveMatrix].
  destruct (Hrandom draws0) as [? ?]. destruct (Hrandom (S draws0)) as [? ?].
  pose proof (randomBelow_range random draws0 height) as Hy.
  pose proof (randomBelow_range random (S draws0) width) as Hx.
  rewrite (proj2 (fresh_cellAt_full 0 width height _ _ (fullMask 0)))
    by (split; [split; auto|done]).
  done.
Qed.

Lemma solve_without_patterns_throws_witness :
  solve (λ _, 0%Q) (λ _, Finite 1) 1 (@nil ImageLearner.pattern) [] []
        [] 2 2 10 0
  = Some (Throw NoPatternChosen).
Proof.
  apply (solve_without_patterns_throws (λ _, 0%Q) (λ _, Finite 1)
           (@nil ImageLearner.pattern) [] [] [] 2 2 10 0 1); try lia.
  - reflexivity.
  - intros n. split; [apply Qle_refl|reflexivity].
Defined.

(** ** The fresh wave and the end of propagation *)

(** X15. The wave [initializeWaveMatrix] builds: its cells are the positions
    [(y, x)] with [0 <= y < height] and [0 <= x < width] (none when a size
    is below 1), and each holds exactly the patterns [0 .. numPatterns-1]. *)
Theorem initializeWaveMatrix_cells (numPatterns : nat) (width height y x : Z)
    (c : Bitmask.t) :
  cellAt (initializeWaveMatrix numPatterns width height) y x = Ok c
  ↔ (0 ≤ y < height ∧ 0 ≤ x < width)
    ∧ ∀ i, Bitmask.test c i = bool_decide (i < numPatterns)%nat.
Proof.
  rewrite fresh_cellAt_full. split.
  - intros [Hrange ->]. split; [done|]. apply fullMask_test.
  - intros [Hrange Hbits]. split; [done|]. apply test_ext.
    intros i. by rewrite Hbits, fullMask_test.
Qed.

(** X16. [propagate] terminates, for every wave, adjacency table and start
    cell: with enough fuel the model of its loop gives a result. The
    result is a [TypeError] or a flag with a wave in which no mask has
    grown. *)
Theorem propagate_terminates (adj : adjacency) (y x : Z) (w : wave) :
  ∃ fuel0, ∀ fuel, (fuel0 ≤ fuel)%nat →
    ∃ r, propagate fuel y x adj w = Some r
         ∧ (∀ e, r = Throw e → e = TypeError)
         ∧ (∀ c w', r = Ok (c, w') → subwave w' w).
Proof.
  exists (Z.to_nat (2 * waveSum w + 2)). intros fuel Hfuel.
  pose proof (waveSum_nonneg w) as Hsum.
  destruct (propagateLoop_terminates adj fuel w [(y, x)]) as [r Hr].
  { simpl length. lia. }
  exists r. rewrite propagate_unfold. split; [exact Hr|]. split.
  - intros e ->. by eapply propagateLoop_only_TypeError.
  - intros c w' ->. by apply propagateLoop_shrinks in Hr as [? _].
Qed.

(** ** The learner and the solver together *)

Module ModelFacts.
Import ImageLearner.

(** A learned model is an input the solver accepts: one positive weight
    per pattern and four masks per pattern. *)
Lemma learned_model_well_formed (images : list image) (N : Z) (m : t) :
  learn images N = Ok m →
  (∀ i, (i < length (patterns m))%nat →
        ∃ w, weights m !! i = Some w ∧ 0 < w)
  ∧ (∀ i k, (i < length (patterns m))%nat → (k < 4)%nat →
            ∃ row mask, adjacencies m !! i = Some row ∧ row !! k = Some mask).
Proof.
  intros (s & Hs & Hadj & Hp & Hw)%learn_inv. rewrite Hp, Hw. split.
  - intros i Hi.
    apply getPatternsAndWeights_counts in Hs as (_ & _ & _ & _ & Hmem & Hcount).
    destruct (lookup_lt_is_Some_2 _ _ Hi) as [p Hpi].
    eexists. split; [by eapply Hcount|].
    assert (1 ≤ occurrences p (allWindows images N)); [|lia].
    apply occurrences_present, Hmem. by eapply list_elem_of_lookup_2.
  - intros i k Hi Hk. apply getAdjacencies_shape in Hadj as [Hlen Hrows].
    destruct (lookup_lt_is_Some_2 (adjacencies m) i) as [row Hrow]; [lia|].
    destruct (lookup_lt_is_Some_2 row k) as [mask Hmask].
    { rewrite Forall_forall in Hrows. rewrite (Hrows row); [done|].
      by eapply list_elem_of_lookup_2. }
    by exists row, mask.
Qed.

End ModelFacts.

Import ModelFacts.

(** X17. Learning and solving together: for every model that [learn] returns
    with at least one pattern, every grid with cells and every source of
    random numbers in [0, 1), a call of [solve] terminates and returns
    [true] or [false]; it does not throw. *)
Theorem solve_on_learned_model_returns (random : nat → Q)
    (entropyOf : list (option Z) → number) (images : list image) (N : Z)
    (m : ImageLearner.t) (setTiles : list SetTileInstruction)
    (width height maxAttempts : Z) (draws0 : nat) :
  learn images N = Ok m →
  ImageLearner.patterns m ≠ [] →
  (∀ n, (0 <= random n)%Q ∧ (random n < 1)%Q) →
  1 ≤ width → 1 ≤ height →
  ∃ fuel0, ∀ fuel, (fuel0 ≤ fuel)%nat →
    ∃ o, solve random entropyOf fuel (ImageLearner.patterns m)
               (ImageLearner.weights m) (ImageLearner.adjacencies m)
               setTiles width height maxAttempts draws0
         = Some (Ok o).
Proof.
  intros Hlearn Hne Hrandom Hwidth Hheight.
  destruct (learned_model_well_formed _ _ _ Hlearn) as [Hweights Hadj].
  set (P := length (ImageLearner.patterns m)) in *.
  assert (1 ≤ P)%nat as HP.
  { unfold P. destruct (ImageLearner.patterns m); [done|simpl; lia]. }
  set (w0 := initializeWaveMatrix P width height).
  set (st0 := mkState w0 (S (S draws0))).
  set (y0 := randomBelow random draws0 height).
  set (x0 := randomBelow random (S draws0) width).
  exists (S (Z.to_nat (Z.max
            (potential P width height maxAttempts st0 y0 x0 1)
            (2 * freshSum P width height + 1)))).
  intros fuel Hfuel.
  destruct (solveLoop_terminates random entropyOf P (ImageLearner.weights m)
              (ImageLearner.adjacencies m) width height maxAttempts
              fuel fuel st0 y0 x0 1) as [r Hr]; [done|lia|lia|].
  destruct (randomBelow_range random draws0 height) as [? ?];
    [apply Hrandom..|done|].
  destruct (randomBelow_range random (S draws0) width) as [? ?];
    [apply Hrandom..|done|].
  destruct (solveLoop_safe random entropyOf P (ImageLearner.weights m)
              (ImageLearner.adjacencies m) width height maxAttempts
              Hrandom HP Hweights Hadj Hwidth Hheight
              fuel fuel st0 y0 x0 1 (fullMask P) r) as [o ->].
  - by apply fresh_good.
  - apply fresh_cellAt_full. split; [|done]. unfold y0, x0. lia.
  - exact Hr.
  - by exists o.
Qed.

Lemma solve_on_learned_model_returns_witness :
  ∃ fuel0, ∀ fuel, (fuel0 ≤ fuel)%nat →
    ∃ o, solve (λ _, 0%Q) (λ _, Finite 1) fuel [stripe01; stripe10] [4; 2]
               [[0; 0; 2; 2]%N; [0; 0; 1; 1]%N] [] 2 1 10 0
         = Some (Ok o).
Proof.
  apply (solve_on_learned_model_returns (λ _, 0%Q) (λ _, Finite 1) [stripes] 2
           (mk [stripe01; stripe10] [4; 2] [[0; 0; 2; 2]%N; [0; 0; 1; 1]%N])
           [] 2 1 10 0).
  - vm_compute. reflexivity.
  - discriminate.
  - intros n. split; [apply Qle_refl|reflexivity].
  - lia.
  - lia.
Defined.

Import ImageLearner LearnerSpec LearnerFacts WindowSpec WindowFacts
  AdjacencySpec AdjacencyFacts.
Import ConstraintSolver SolverSpec BitmaskFacts WaveFacts
  PropagateFacts ObserveFacts SolveFacts ChooseFacts Confluence Safety
  OutputSpec OutputFacts ModelFacts.

(** X18. Learning and solving together, for [N >= 1] and a model with two
    patterns or more, when the entropy that [getShannonEntropy] computes
    from the learned weights is above 0 for every mask of two or more
    patterns: in the wave of a call of [solve] that returns [true]
    two neighbouring cells never hold the same pattern, and their patterns
    hold the same tiles where they lie over each other: if the cell at
    [(y, x)] holds the pattern [pat] and the cell at
    [(y, x) - DIRECTIONS[k]] holds [pat2], then
    [pat[a][b] = pat2[a + dy][b + dx]] on the overlap, for
    [(dy, dx) = DIRECTIONS[k]]. *)
Theorem generated_neighbours_agree (random : nat → Q)
    (entropyOf : list (option Z) → number) (images : list image) (N : Z)
    (m : ImageLearner.t) (setTiles : list SetTileInstruction)
    (width height maxAttempts : Z) (draws0 fuel : nat) (o : outcome) :
  1 ≤ N →
  learn images N = Ok m →
  (2 ≤ length (ImageLearner.patterns m))%nat →
  entropy_positive entropyOf (ImageLearner.weights m)
                   (length (ImageLearner.patterns m)) →
  solve random entropyOf fuel (ImageLearner.patterns m)
        (ImageLearner.weights m) (ImageLearner.adjacencies m)
        setTiles width height maxAttempts draws0 = Some (Ok o) →
  returned o = true →
  let F := waveMatrix (final o) in
  ∀ y x c k dir c2 p p2 pat pat2,
    cellAt F y x = Ok c → Bitmask.toArray c = [p] →
    DIRECTIONS !! k = Some dir →
    cellAt F (y + - dir.1) (x + - dir.2) = Ok c2 → Bitmask.toArray c2 = [p2] →
    ImageLearner.patterns m !! p = Some pat →
    ImageLearner.patterns m !! p2 = Some pat2 →
    p ≠ p2
    ∧ ∀ a b, 0 ≤ a < N → 0 ≤ b < N →
             0 ≤ a + dir.1 < N → 0 ≤ b + dir.2 < N →
             tileAt pat a b = tileAt pat2 (a + dir.1) (b + dir.2).
Proof.
  intros HN Hlearn HP Hent Hsolve Htrue F y x c k dir c2 p p2 pat pat2
    Hc Hp Hdir Hc2 Hp2 Hpat Hpat2.
  destruct (learned_model_well_formed _ _ _ Hlearn) as [Hweights _].
  destruct (solve_true random entropyOf _ _ _ setTiles width height
              maxAttempts draws0 fuel o HP Hweights Hent Hsolve Htrue)
    as [_ Hcells].
  destruct (Hcells y x c Hc) as (p' & Hp' & _ & Hnb).
  rewrite Hp in Hp'. simplify_eq.
  pose proof (lookup_lt_Some _ _ _ Hdir) as Hk. simpl in Hk.
  destruct (Hnb k (y + - dir.1) (x + - dir.2) c2 Hk) as (p2' & Hp2' & Hbit);
    [unfold neighbour; by rewrite Hdir|done|].
  rewrite Hp2 in Hp2'. simplify_eq.
  pose proof Hlearn as (s & Hs & Hadj & Hps & _)%learn_inv.
  apply getPatternsAndWeights_counts in Hs as (_ & Hshape & _).
  rewrite Hps in Hpat, Hpat2.
  assert (p' ≠ p2') as Hne.
  { intros ->. by rewrite (getAdjacencies_irreflexive _ _ Hadj) in Hbit. }
  split; [done|].
  apply (getAdjacencies_spec N _ _ p' p2' k pat pat2 dir HN Hshape Hadj Hne
           Hpat Hpat2 Hdir) in Hbit.
  destruct (isAdjacent_spec N pat pat2 dir HN) as (b & Hb & Hagree).
  { by eapply Forall_lookup_1. }
  { by eapply Forall_lookup_1. }
  { by eapply list_elem_of_lookup_2. }
  rewrite Hbit in Hb. simplify_eq.
  intros a b Ha Hb Ha' Hb'. apply Hagree; [done|]. repeat split; lia.
Qed.

Lemma generated_neighbours_agree_witness :
  let dir : Z * Z := (0, -1) in
  0%nat ≠ 1%nat
  ∧ ∀ a b, 0 ≤ a < 2 → 0 ≤ b < 2 →
           0 ≤ a + dir.1 < 2 → 0 ≤ b + dir.2 < 2 →
           tileAt stripe01 a b = tileAt stripe10 (a + dir.1) (b + dir.2).
Proof.
  refine (generated_neighbours_agree (λ _, 0%Q) (λ _, Finite 1) [stripes] 2
            (ImageLearner.mk [stripe01; stripe10] [4; 2]
               [[0; 0; 2; 2]%N; [0; 0; 1; 1]%N])
            [] 2 1 10 0 20 (mkOutcome true (mkState [[1; 2]%N] 3) 1)
            _ _ _ _ _ _
            0 0 1%N 2%nat (0, -1) 2%N 0%nat 1%nat stripe01 stripe10
            _ _ _ _ _ _ _).
  - lia.
  - vm_compute. reflexivity.
  - simpl. lia.
  - intros ws _ _. reflexivity.
  - vm_compute. reflexivity.
  - reflexivity.
  - reflexivity.
  - reflexivity.
  - reflexivity.
  - reflexivity.
  - reflexivity.
  - reflexivity.
  - reflexivity.
Defined.

(** ** A model with a single pattern *)

Module LonelyFacts.

Lemma setCell_same (w : wave) (y x : Z) (m : Bitmask.t) :
  cellAt w y x = Ok m → setCell w y x m = w.
Proof.
  intros (Hy & Hx & row & Hrow & Hm)%cellAt_Ok. unfold setCell.
  apply list_eq. intros i. destruct (decide (i = Z.to_nat y)) as [->|Hi].
  - rewrite list_lookup_alter_eq, Hrow. simpl. by rewrite list_insert_id.
  - by rewrite list_lookup_alter_ne.
Qed.

(** On the fresh wave of a single pattern that the table does not allow
    next to itself, the visit of a direction finds a contradiction exactly
    when the neighbour is a cell of the grid. *)
Lemma relax_lonely (width height y x : Z) (k : nat) q :
  1 ≤ width → 1 ≤ height → (k < 4)%nat →
  let F := initializeWaveMatrix 1 width height in
  ∃ y2 x2,
    neighbour y x k = Some (y2, x2)
    ∧ relax [[0; 0; 0; 0]%N] y x [0%nat] k F q
      = Ok (bool_decide (0 ≤ y2 < height ∧ 0 ≤ x2 < width), F, q).
Proof.
  intros Hwidth Hheight Hk F.
  destruct (lookup_lt_is_Some_2 DIRECTIONS k) as [[d1 d2] Hdir];
    [simpl; lia|].
  exists (y + - d1), (x + - d2). split; [unfold neighbour; by rewrite Hdir|].
  unfold relax. rewrite Hdir. cbn [defined]. rewrite bind_Ok.
  cbn beta iota zeta delta [fst snd].
  assert (length F = Z.to_nat height) as HlenF
    by (unfold F, initializeWaveMatrix; by rewrite length_replicate).
  rewrite HlenF.
  case_decide as Hy.
  { rewrite bool_decide_eq_false_2 by lia. done. }
  assert (F !! 0%nat = Some (replicate (Z.to_nat width) (fullMask 1))) as ->.
  { unfold F, initializeWaveMatrix. apply lookup_replicate. split; [done|lia]. }
  cbn [defined]. rewrite bind_Ok, length_replicate.
  case_decide as Hx.
  { rewrite bool_decide_eq_false_2 by lia. done. }
  rewrite bool_decide_eq_true_2 by lia.
  rewrite (proj2 (fresh_cellAt_full 1 width height _ _ (fullMask 1)))
    by (split; [lia|done]).
  rewrite bind_Ok.
  destruct k as [|[|[|[|k]]]]; [done..|lia].
Qed.

Lemma visit_lonely (width height y x : Z) :
  1 ≤ width → 1 ≤ height → 2 ≤ width * height →
  0 ≤ y < height → 0 ≤ x < width →
  let F := initializeWaveMatrix 1 width height in
  visit [[0; 0; 0; 0]%N] y x [0%nat] (seq 0 (length DIRECTIONS)) F []
  = Ok (true, F, []).
Proof.
  intros Hwidth Hheight Hcells Hy Hx F.
  change (seq 0 (length DIRECTIONS)) with [0; 1; 2; 3]%nat.
  destruct (relax_lonely width height y x 0 [] Hwidth Hheight) as
    (y0 & x0 & [= <- <-] & H0); [lia|].
  destruct (relax_lonely width height y x 1 [] Hwidth Hheight) as
    (y1 & x1 & [= <- <-] & H1); [lia|].
  destruct (relax_lonely width height y x 2 [] Hwidth Hheight) as
    (y2 & x2 & [= <- <-] & H2); [lia|].
  destruct (relax_lonely width height y x 3 [] Hwidth Hheight) as
    (y3 & x3 & [= <- <-] & H3); [lia|].
  fold F in H0, H1, H2, H3. simpl in H0, H1, H2, H3.
  cbn [visit]. rewrite H0, bind_Ok. cbn beta iota.
  destruct (bool_decide _) eqn:E0 in |- *; [done|].
  rewrite H1, bind_Ok. cbn beta iota.
  destruct (bool_decide _) eqn:E1 in |- *; [done|].
  rewrite H2, bind_Ok. cbn beta iota.
  destruct (bool_decide _) eqn:E2 in |- *; [done|].
  rewrite H3, bind_Ok. cbn beta iota.
  destruct (bool_decide _) eqn:E3 in |- *; [done|].
  apply bool_decide_eq_false in E0, E1, E2, E3. nia.
Qed.

Section Lonely.
Variable random : nat → Q.
Variable entropyOf : list (option Z) → number.
Variables width height maxAttempts w : Z.
Hypothesis random_range : ∀ n, (0 <= random n)%Q ∧ (random n < 1)%Q.
Hypothesis width_positive : 1 ≤ width.
Hypothesis height_positive : 1 ≤ height.
Hypothesis two_cells : 2 ≤ width * height.
Hypothesis weight_positive : 0 < w.

Lemma observe_lonely (y x : Z) (d : nat) :
  0 ≤ y < height → 0 ≤ x < width →
  let F := initializeWaveMatrix 1 width height in
  observe random y x [w] (mkState F d) = Ok (mkState F (S d)).
Proof.
  intros Hy Hx F.
  assert (cellAt F y x = Ok (fullMask 1)) as Hcell
    by by apply fresh_cellAt_full.
  destruct (random_range d) as [Hu0 Hu1].
  destruct (observe_chooses random y x [w] (mkState F d) (fullMask 1) Hcell)
    as (i & p & Hp & _ & _ & ->); [done| |done..|].
  { intros [|i] Hi; [by exists w|].
    rewrite fullMask_test in Hi. apply bool_decide_eq_true in Hi. lia. }
  assert (p = 0%nat) as ->.
  { apply list_elem_of_lookup_2 in Hp.
    change (Bitmask.toArray (fullMask 1)) with [0%nat] in Hp.
    by apply list_elem_of_singleton in Hp. }
  cbn [waveMatrix draws]. do 2 f_equal.
  change (Bitmask.setBit (Bitmask.clear (fullMask 1)) 0) with (fullMask 1).
  by apply setCell_same.
Qed.

Lemma solveLoop_lonely (fuel pfuel : nat) (y x n : Z) (d : nat) :
  (1 ≤ pfuel)%nat →
  0 ≤ y < height → 0 ≤ x < width →
  Z.max 0 (maxAttempts + 1 - n) < Z.of_nat fuel →
  ∃ st,
    solveLoop random entropyOf fuel pfuel 1 [w] [[0; 0; 0; 0]%N]
              width height maxAttempts
              (mkState (initializeWaveMatrix 1 width height) d) y x n
    = Some (Ok (mkOutcome false st (Z.max n (maxAttempts + 1)))).
Proof.
  intros Hpfuel. revert y x n d.
  induction fuel as [|fuel IH]; intros y x n d Hy Hx Hfuel; [lia|].
  simpl. case_decide as Hn.
  2: { eexists. do 3 f_equal. lia. }
  rewrite (observe_lonely y x d Hy Hx). cbn [waveMatrix draws].
  destruct pfuel as [|pfuel]; [lia|].
  rewrite propagate_unfold, propagateLoop_unfold. unfold dequeueAndVisit.
  cbn [fst snd].
  rewrite (proj2 (fresh_cellAt_full 1 width height y x (fullMask 1)))
    by done.
  rewrite bind_Ok. change (Bitmask.toArray (fullMask 1)) with [0%nat].
  rewrite (visit_lonely width height y x) by done.
  destruct (random_range (S d)) as [? ?].
  destruct (random_range (S (S d))) as [? ?].
  destruct (IH (randomBelow random (S d) height)
               (randomBelow random (S (S d)) width) (n + 1) (S (S (S d))))
    as [st Hst].
  - by apply randomBelow_range.
  - by apply randomBelow_range.
  - lia.
  - exists st. rewrite Hst. do 3 f_equal. lia.
Qed.

End Lonely.
End LonelyFacts.

Import LonelyFacts.

(** X19. Learning and solving together, for a model with a single pattern
    (what [learn] returns for images of one colour): the table never
    allows the pattern next to itself, so on every grid of two cells or
    more every attempt of [solve] ends in a contradiction at the first
    propagation, and the call returns [false] once the attempts are used
    up. *)
Theorem single_pattern_model_is_never_solved (random : nat → Q)
    (entropyOf : list (option Z) → number) (images : list image) (N : Z)
    (m : ImageLearner.t) (setTiles : list SetTileInstruction)
    (width height maxAttempts : Z) (draws0 : nat) :
  learn images N = Ok m →
  length (ImageLearner.patterns m) = 1%nat →
  (∀ n, (0 <= random n)%Q ∧ (random n < 1)%Q) →
  1 ≤ width → 1 ≤ height → 2 ≤ width * height →
  ∃ fuel0, ∀ fuel, (fuel0 ≤ fuel)%nat →
    ∃ st, solve random entropyOf fuel (ImageLearner.patterns m)
                (ImageLearner.weights m) (ImageLearner.adjacencies m)
                setTiles width height maxAttempts draws0
          = Some (Ok (mkOutcome false st (Z.max 1 (maxAttempts + 1)))).
Proof.
  intros Hlearn HP Hrandom Hwidth Hheight Hcells.
  destruct (learned_model_well_formed _ _ _ Hlearn) as [Hweights _].
  pose proof Hlearn as (s & Hs & Hadj & Hps & Hws)%learn_inv.
  apply getPatternsAndWeights_counts in Hs as (Hlen & _).
  rewrite <- Hps, <- Hws in Hlen. rewrite <- Hps in Hadj.
  destruct (Hweights 0%nat) as (w & Hw & Hpos); [lia|].
  assert (ImageLearner.weights m = [w]) as Hweq.
  { destruct (ImageLearner.weights m) as [|w' [|??]]; simpl in *;
      [lia| |lia]. by simplify_eq. }
  assert (ImageLearner.adjacencies m = [[0; 0; 0; 0]%N]) as Haeq.
  { destruct (ImageLearner.patterns m) as [|p [|??]]; simpl in *; [lia| |lia].
    vm_compute in Hadj. by simplify_eq. }
  exists (S (Z.to_nat (Z.max 0 maxAttempts + 1))). intros fuel Hfuel.
  unfold solve. rewrite HP, Hweq, Haeq.
  destruct (Hrandom draws0) as [? ?]. destruct (Hrandom (S draws0)) as [? ?].
  apply solveLoop_lonely; try done; try lia.
  - by apply randomBelow_range.
  - by apply randomBelow_range.
Qed.

Lemma single_pattern_model_is_never_solved_witness :
  ∃ fuel0, ∀ fuel, (fuel0 ≤ fuel)%nat →
    ∃ st, solve (λ _, 0%Q) (λ _, Finite 1) fuel [zeros] [1] [[0; 0; 0; 0]%N]
                [] 5 5 10 0
          = Some (Ok (mkOutcome false st (Z.max 1 (10 + 1)))).
Proof.
  apply (single_pattern_model_is_never_solved (λ _, 0%Q) (λ _, Finite 1)
           [uniform] 2 (ImageLearner.mk [zeros] [1] [[0; 0; 0; 0]%N])
           [] 5 5 10 0).
  - vm_compute. reflexivity.
  - reflexivity.
  - intros n. split; [apply Qle_refl|reflexivity].
  - lia.
  - lia.
  - lia.
Defined.

(** * Properties of the sketchpad *)

Module SketchpadFacts.
Import Sketchpad SketchpadSpec.

Lemma pop_snoc {A} (l : list A) (a : A) : pop (l ++ [a]) = Some (l, a).
Proof. unfold pop. by rewrite reverse_snoc, reverse_involutive. Qed.

Lemma pop_nil {A} : pop (@nil A) = None.
Proof. done. Qed.

Lemma pop_cases {A} (l : list A) :
  (l = [] ∧ pop l = None) ∨ ∃ l' a, l = l' ++ [a] ∧ pop l = Some (l', a).
Proof.
  destruct l as [|a l] using rev_ind; [by left|].
  right. exists l, a. split; [done|apply pop_snoc].
Qed.

Lemma undo_snoc (st : state) ds d :
  displayList st = ds ++ [d] →
  undo st
  = (mkSketch (mouseObject st) (workingLine st) (lines st) ds
              (redoDisplayList st ++ [d]) (activeButton st) (normalizing st),
     [UndoSketch (length ds); DrawingChanged]).
Proof. intros H. unfold undo. by rewrite H, pop_snoc. Qed.

Lemma redo_snoc (st : state) rs d :
  redoDisplayList st = rs ++ [d] →
  redo st
  = (mkSketch (mouseObject st) (workingLine st) (lines st)
              (displayList st ++ [d]) rs (activeButton st) (normalizing st),
     [RedoSketch (length (displayList st ++ [d])); DrawingChanged]).
Proof. intros H. unfold redo. by rewrite H, pop_snoc. Qed.

Lemma state_eta (st : state) :
  mkSketch (mouseObject st) (workingLine st) (lines st) (displayList st)
           (redoDisplayList st) (activeButton st) (normalizing st) = st.
Proof. by destruct st. Qed.

End SketchpadFacts.

Import Sketchpad SketchpadSpec SketchpadFacts.

(** X20. Undo and redo are inverse to each other: after an undo that found a
    stroke, a redo gives back the state before the undo, and after a redo
    that found a stroke, an undo gives back the state before the redo.
    The undo announces the new length of the display list. *)
Theorem undo_and_redo_are_inverse (st : state) :
  (displayList st ≠ [] →
   (redo (undo st).1).1 = st
   ∧ (undo st).2
     = [UndoSketch (length (displayList st) - 1); DrawingChanged])
  ∧ (redoDisplayList st ≠ [] →
     (undo (redo st).1).1 = st
     ∧ (redo st).2
       = [RedoSketch (length (displayList st) + 1); DrawingChanged]).
Proof.
  split; intros Hne.
  - destruct (pop_cases (displayList st)) as [[? _]|(ds & d & Hds & _)];
      [done|].
    rewrite (undo_snoc st ds d Hds). cbn [fst snd].
    erewrite redo_snoc by reflexivity. simpl.
    rewrite <- Hds, state_eta. split; [done|].
    rewrite Hds, length_app. simpl. do 2 f_equal. lia.
  - destruct (pop_cases (redoDisplayList st)) as [[? _]|(rs & d & Hrs & _)];
      [done|].
    rewrite (redo_snoc st rs d Hrs). cbn [fst snd].
    erewrite undo_snoc by reflexivity. simpl.
    rewrite <- Hrs, state_eta. split; [done|].
    by rewrite length_app.
Qed.

Lemma undo_and_redo_are_inverse_witness :
  let st := mkSketch (mkMouse 0 0 Hue0 false) 1
              [mkLine [] 5 Hue0 None; mkLine [(1, 2)%Q] 5 Hue0 None;
               mkLine [(3, 4)%Q] 5 Hue0 None]
              [mkDisplayable 1 false] [mkDisplayable 2 false] None false in
  (redo (undo st).1).1 = st
  ∧ (undo st).2 = [UndoSketch (length (displayList st) - 1); DrawingChanged].
Proof.
  intros st. destruct (undo_and_redo_are_inverse st) as [H _].
  apply H. discriminate.
Defined.

Module TimelineFacts.
Import Sketchpad SketchpadSpec SketchpadFacts.

Lemma undo_timeline (st : state) :
  timeline (undo st).1 = timeline st
  ∧ lines (undo st).1 = lines st
  ∧ workingLine (undo st).1 = workingLine st
  ∧ mouseObject (undo st).1 = mouseObject st.
Proof.
  destruct (pop_cases (displayList st)) as [[H Hp]|(ds & d & Hds & _)].
  - unfold undo. by rewrite Hp.
  - rewrite (undo_snoc st ds d Hds). unfold timeline. simpl.
    by rewrite Hds, reverse_snoc, <- app_assoc.
Qed.

Lemma redo_timeline (st : state) :
  timeline (redo st).1 = timeline st
  ∧ lines (redo st).1 = lines st
  ∧ workingLine (redo st).1 = workingLine st
  ∧ mouseObject (redo st).1 = mouseObject st.
Proof.
  destruct (pop_cases (redoDisplayList st)) as [[H Hp]|(rs & d & Hrs & _)].
  - unfold redo. by rewrite Hp.
  - rewrite (redo_snoc st rs d Hrs). unfold timeline. simpl.
    by rewrite Hrs, reverse_snoc, <- app_assoc.
Qed.

End TimelineFacts.

Import TimelineFacts.

(** X21. Clicks on undo and redo, in any number and order, only move the
    boundary between the two lists: the display list followed by the redo
    list from its top is the same list of strokes as before, and the line
    objects, the working line and the mouse object are untouched. *)
Theorem undo_redo_keep_the_timeline `{Cleanup} (evs : list event)
    (st : state) :
  Forall (λ ev, ev = UndoClick ∨ ev = RedoClick) evs →
  let st' := (run evs st).1 in
  timeline st' = timeline st
  ∧ lines st' = lines st
  ∧ workingLine st' = workingLine st
  ∧ mouseObject st' = mouseObject st.
Proof.
  intros Hevs. revert st.
  induction Hevs as [|ev evs Hev _ IH]; intros st; [done|].
  simpl. destruct (handle ev st) as [st1 es1] eqn:Hst1.
  specialize (IH st1). destruct (run evs st1) as [st2 es2]. simpl in *.
  destruct IH as (-> & -> & -> & ->).
  destruct Hev as [-> | ->]; simpl in Hst1.
  - pose proof (undo_timeline st) as Hu. by rewrite Hst1 in Hu.
  - pose proof (redo_timeline st) as Hr. by rewrite Hst1 in Hr.
Qed.

Lemma undo_redo_keep_the_timeline_witness :
  let cleanup := Build_Cleanup (λ _, None) (λ l _, l) (λ l _, l) in
  let st := mkSketch (mkMouse 0 0 Hue0 false) 1
              [mkLine [] 5 Hue0 None; mkLine [(1, 2)%Q] 5 Hue0 None;
               mkLine [(3, 4)%Q] 5 Hue0 None]
              [mkDisplayable 1 false] [mkDisplayable 2 false] None false in
  let st' := (run [UndoClick; UndoClick; RedoClick] st).1 in
  timeline st' = timeline st
  ∧ lines st' = lines st
  ∧ workingLine st' = workingLine st
  ∧ mouseObject st' = mouseObject st.
Proof.
  intros cleanup st.
  apply (@undo_redo_keep_the_timeline cleanup
           [UndoClick; UndoClick; RedoClick] st).
  constructor; [left; reflexivity|].
  constructor; [left; reflexivity|].
  constructor; [right; reflexivity|].
  constructor.
Defined.

(** X22. Drawing a new stroke does not empty the redo list: after an undo, a
    new stroke and a redo, the stroke that was undone is back in the
    display list, above the stroke drawn after it. *)
Theorem redo_after_a_new_stroke `{Cleanup} (st : state) (x y : Q)
    (ds : list displayable) (d : displayable) :
  displayList st = ds ++ [d] →
  redoDisplayList (mousedown x y st).1 = redoDisplayList st
  ∧ let st' := (run [UndoClick; MouseDown x y; RedoClick] st).1 in
    displayList st'
    = ds ++ [mkDisplayable (length (lines st)) false; d]
    ∧ redoDisplayList st' = redoDisplayList st.
Proof.
  intros Hds. split; [done|]. simpl.
  rewrite (undo_snoc st ds d Hds). unfold mousedown. cbn [fst snd].
  simpl. erewrite redo_snoc by reflexivity. simpl.
  by rewrite <- app_assoc.
Qed.

Lemma redo_after_a_new_stroke_witness :
  let cleanup := Build_Cleanup (λ _, None) (λ l _, l) (λ l _, l) in
  let st := mkSketch (mkMouse 0 0 Hue0 false) 1
              [mkLine [] 5 Hue0 None; mkLine [(1, 2)%Q] 5 Hue0 None]
              [mkDisplayable 1 false] [] None false in
  redoDisplayList (mousedown 7 8 st).1 = redoDisplayList st
  ∧ let st' := (run [UndoClick; MouseDown 7 8; RedoClick] st).1 in
    displayList st'
    = [] ++ [mkDisplayable (length (lines st)) false; mkDisplayable 1 false]
    ∧ redoDisplayList st' = redoDisplayList st.
Proof.
  intros cleanup st.
  apply (@redo_after_a_new_stroke cleanup st 7 8 [] (mkDisplayable 1 false)).
  reflexivity.
Defined.

Module NormalizeFacts.
Import Sketchpad SketchpadSpec SketchpadFacts.

Section Normalize.
Context `{Cleanup}.

Lemma normalizeAll_done (ds : list displayable) (ls : list line) :
  Forall (λ d, normalized d = true) ds → normalizeAll ds ls = (ds, ls).
Proof.
  induction 1 as [|d ds Hd _ IH]; [done|].
  simpl. unfold normalizeStroke. by rewrite Hd, IH.
Qed.

Lemma normalizeStroke_line (d : displayable) (ls : list line) (i : nat)
    (l : line) :
  ls !! i = Some l →
  ∃ l', (normalizeStroke d ls).2 !! i = Some l'
        ∧ thickness l' = thickness l ∧ line_hue l' = line_hue l
        ∧ structure l' = structure l
        ∧ ((line_ref d = i → normalized d = true) → l' = l).
Proof.
  intros Hl. unfold normalizeStroke.
  destruct (normalized d) eqn:Hd; simpl; [by exists l|].
  destruct (decide (line_ref d = i)) as [Hi|Hi].
  - rewrite Hi, list_lookup_alter_eq, Hl. simpl. eexists.
    split; [done|]. repeat split; try done. intros Hn.
    by specialize (Hn eq_refl).
  - rewrite list_lookup_alter_ne by done. by exists l.
Qed.

Lemma normalizeAll_spec (ds : list displayable) (ls : list line) :
  let r := normalizeAll ds ls in
  Forall (λ d, normalized d = true) r.1
  ∧ line_ref <$> r.1 = line_ref <$> ds
  ∧ length r.2 = length ls
  ∧ ∀ i l, ls !! i = Some l →
      ∃ l', r.2 !! i = Some l'
            ∧ thickness l' = thickness l ∧ line_hue l' = line_hue l
            ∧ structure l' = structure l
            ∧ ((∀ d, d ∈ ds → line_ref d = i → normalized d = true) →
               l' = l).
Proof.
  revert ls. induction ds as [|d ds IH]; intros ls.
  { simpl. repeat split; try done. intros i l Hl. by exists l. }
  simpl. destruct (normalizeStroke d ls) as [d' ls'] eqn:Hd.
  specialize (IH ls'). destruct (normalizeAll ds ls') as [ds'' ls''].
  simpl in *. destruct IH as (Hnorm & Hrefs & Hlen & Hlines).
  assert (normalized d' = true ∧ line_ref d' = line_ref d
          ∧ length ls' = length ls) as (Hd1 & Hd2 & Hd3).
  { unfold normalizeStroke in Hd. destruct (normalized d) eqn:Hn;
      simplify_eq; simpl; [done|]. by rewrite length_alter. }
  split; [by constructor|]. split; [by f_equal|].
  split; [congruence|].
  intros i l Hl.
  destruct (normalizeStroke_line d ls i l Hl) as (l1 & Hl1 & ? & ? & ? & Hsame).
  rewrite Hd in Hl1. simpl in Hl1.
  destruct (Hlines i l1 Hl1) as (l2 & Hl2 & ? & ? & ? & Hsame').
  exists l2. split; [done|]. repeat split; try congruence.
  intros Hall. rewrite Hsame'.
  - apply Hsame. intros Hi. apply Hall; [apply list_elem_of_here|done].
  - intros d0 Hd0. apply Hall. by apply list_elem_of_further.
Qed.

End Normalize.
End NormalizeFacts.

Import NormalizeFacts.

(** X23. [normalizeStrokes] is idempotent, whatever the shape detection and
    the smoothing routines compute: after it every stroke of the display
    list is flagged as normalized, and a second call changes nothing. *)
Theorem normalizeStrokes_idempotent `{Cleanup} (st : state) :
  let r := normalizeStrokes st in
  Forall (λ d, normalized d = true) (displayList r.1)
  ∧ normalizeStrokes r.1 = r.
Proof.
  unfold normalizeStrokes.
  pose proof (normalizeAll_spec (displayList st) (lines st)) as [Hnorm _].
  destruct (normalizeAll (displayList st) (lines st)) as [ds ls]. simpl in *.
  split; [done|]. by rewrite normalizeAll_done.
Qed.

(** X24. What [normalizeStrokes] leaves alone: the strokes of the display
    list stay in their order on their line objects, the redo list, the
    mouse object, the working line and the active button are untouched, no
    line object is added or removed, every line keeps its thickness, hue
    and structure, and a line keeps its points unless a stroke of the
    display list that was not yet normalized is drawn on it. *)
Theorem normalizeStrokes_changes_only_points `{Cleanup} (st : state) :
  let st' := (normalizeStrokes st).1 in
  line_ref <$> displayList st' = line_ref <$> displayList st
  ∧ redoDisplayList st' = redoDisplayList st
  ∧ mouseObject st' = mouseObject st
  ∧ workingLine st' = workingLine st
  ∧ activeButton st' = activeButton st
  ∧ length (lines st') = length (lines st)
  ∧ ∀ i l, lines st !! i = Some l →
      ∃ l', lines st' !! i = Some l'
            ∧ thickness l' = thickness l ∧ line_hue l' = line_hue l
            ∧ structure l' = structure l
            ∧ ((∀ d, d ∈ displayList st → line_ref d = i →
                     normalized d = true) → l' = l).
Proof.
  unfold normalizeStrokes.
  pose proof (normalizeAll_spec (displayList st) (lines st))
    as (_ & Hrefs & Hlen & Hlines).
  destruct (normalizeAll (displayList st) (lines st)) as [ds ls]. simpl in *.
  repeat split; try done.
Qed.

Module StrokeFacts.
Import Sketchpad SketchpadSpec SketchpadFacts NormalizeFacts.

Section Strokes.
Context `{Cleanup}.

Lemma run_app (evs1 evs2 : list event) (st : state) :
  run (evs1 ++ evs2) st
  = let '(st1, es1) := run evs1 st in
    let '(st2, es2) := run evs2 st1 in
    (st2, es1 ++ es2).
Proof.
  revert st. induction evs1 as [|ev evs1 IH]; intros st; simpl.
  { by destruct (run evs2 st). }
  destruct (handle ev st) as [st0 es0]. rewrite IH.
  destruct (run evs1 st0) as [st1 es1]. destruct (run evs2 st1) as [st2 es2].
  by rewrite app_assoc.
Qed.

(** The mouse moves with the button down: the points go to the working
    line. *)
Lemma run_moves_active (pts : list point) (m : mouse) (ref : nat)
    (ls : list line) (l : line) ds rs ab nz :
  active m = true → ref = length ls →
  (run (moves pts) (mkSketch m ref (ls ++ [l]) ds rs ab nz)).1
  = mkSketch (match reverse pts with
              | [] => m
              | p :: _ => mkMouse p.1 p.2 (mouse_hue m) true
              end)
             ref
             (ls ++ [mkLine (points l ++ pts) (thickness l) (line_hue l)
                            (structure l)])
             ds rs ab nz.
Proof.
  intros Hactive ->. revert m l Hactive.
  induction pts as [|p pts IH]; intros m l Hactive.
  { simpl. rewrite app_nil_r. by destruct l. }
  simpl. unfold mousemove at 1. simpl. rewrite Hactive.
  destruct (run (moves pts) _) as [st2 es2] eqn:Hrun.
  pose proof (IH (mkMouse p.1 p.2 (mouse_hue m) true)
                (mkLine (points l ++ [p]) (thickness l) (line_hue l)
                        (structure l)) eq_refl) as Hst.
  unfold pushPoint in Hrun.
  rewrite alter_app_r_alt, Nat.sub_diag in Hrun by lia.
  simpl in Hrun. destruct p as [px py]. simpl in *.
  rewrite Hrun in Hst. simpl in Hst. rewrite Hst.
  rewrite <- app_assoc. simpl. f_equal.
  rewrite reverse_cons.
  destruct (reverse pts) as [|q qs] eqn:Hrev; simpl; [done|done].
Qed.

Lemma mousemove_inactive (x y : Q) (st : state) :
  active (mouseObject st) = false →
  mousemove x y st
  = (mkSketch (mkMouse x y (mouse_hue (mouseObject st)) false)
              (workingLine st) (lines st) (displayList st)
              (redoDisplayList st) (activeButton st) (normalizing st),
     [ToolMoved]).
Proof. intros Hactive. unfold mousemove. simpl. by rewrite Hactive. Qed.

(** The mouse moves with the button up: only the mouse object follows. *)
Lemma run_moves_inactive (pts : list point) (st : state) :
  active (mouseObject st) = false →
  let r := run (moves pts) st in
  lines r.1 = lines st ∧ displayList r.1 = displayList st
  ∧ redoDisplayList r.1 = redoDisplayList st
  ∧ workingLine r.1 = workingLine st
  ∧ active (mouseObject r.1) = false
  ∧ r.2 = replicate (length pts) ToolMoved.
Proof.
  revert st. induction pts as [|p pts IH]; intros st Hactive; [done|].
  simpl. rewrite (mousemove_inactive _ _ _ Hactive).
  specialize (IH (mkSketch (mkMouse p.1 p.2 (mouse_hue (mouseObject st)) false)
                    (workingLine st) (lines st) (displayList st)
                    (redoDisplayList st) (activeButton st) (normalizing st))
                 eq_refl).
  destruct (run (moves pts) _) as [st2 es2]. simpl in *.
  destruct IH as (-> & -> & -> & -> & -> & ->). done.
Qed.

End Strokes.
End StrokeFacts.

Import Sketchpad SketchpadSpec SketchpadFacts NormalizeFacts StrokeFacts.

(** X25. A stroke drawn with normalization switched off: the button goes
    down at [(x0, y0)], the mouse moves through the points [pts], the
    button goes up. The display list has one more stroke, on a new line
    object that holds the point [(x0, y0)] followed by [pts] in their
    order (the point where the button went up is not added), with the
    thickness 5, the hue of the mouse and the active structure; the lines
    that existed and the redo list are untouched. *)
Theorem drag_records_the_stroke `{Cleanup} (st : state) (x0 y0 xu yu : Q)
    (pts : list point) :
  let evs := MouseDown x0 y0 :: moves pts ++ [MouseUp xu yu false] in
  let st' := (run evs st).1 in
  displayList st' = displayList st ++ [mkDisplayable (length (lines st)) false]
  ∧ lines st'
    = lines st ++ [mkLine ((x0, y0) :: pts) lineThickness
                          (mouse_hue (mouseObject st)) (activeButton st)]
  ∧ redoDisplayList st' = redoDisplayList st
  ∧ mouseObject st' = mkMouse xu yu (mouse_hue (mouseObject st)) false
  ∧ workingLine st' = length (lines st).
Proof.
  intros evs st'. unfold st', evs. clear st' evs.
  change (MouseDown x0 y0 :: moves pts ++ [MouseUp xu yu false])
    with ([MouseDown x0 y0] ++ moves pts ++ [MouseUp xu yu false]).
  rewrite run_app. cbn [run handle]. unfold mousedown. cbn [fst snd].
  rewrite run_app.
  pose proof (run_moves_active pts
                (mkMouse x0 y0 (mouse_hue (mouseObject st)) true)
                (length (lines st)) (lines st)
                (mkLine [(x0, y0)] lineThickness (mouse_hue (mouseObject st))
                        (activeButton st))
                (displayList st ++ [mkDisplayable (length (lines st)) false])
                (redoDisplayList st) (activeButton st) (normalizing st)
                eq_refl eq_refl) as Hmoves.
  simpl in Hmoves.
  destruct (run (moves pts) _) as [st1 es1]. simpl in Hmoves. subst st1.
  simpl. repeat split; try done.
  all: by destruct (reverse pts).
Qed.

(** X26. Moving the mouse with the button up draws nothing: however the
    mouse moves, the line objects and the two lists stay as they are, only
    the mouse object follows, and each move dispatches [tool-moved]
    alone. *)
Theorem hovering_draws_nothing `{Cleanup} (st : state) (pts : list point) :
  active (mouseObject st) = false →
  let r := run (moves pts) st in
  lines r.1 = lines st ∧ displayList r.1 = displayList st
  ∧ redoDisplayList r.1 = redoDisplayList st
  ∧ active (mouseObject r.1) = false
  ∧ r.2 = replicate (length pts) ToolMoved.
Proof.
  intros Hactive.
  destruct (run_moves_inactive pts st Hactive) as (? & ? & ? & _ & ? & ?).
  done.
Qed.

Lemma hovering_draws_nothing_witness :
  let cleanup := Build_Cleanup (λ _, None) (λ l _, l) (λ l _, l) in
  let st := initial false in
  let r := run (moves [(1, 2)%Q; (3, 4)%Q]) st in
  lines r.1 = lines st ∧ displayList r.1 = displayList st
  ∧ redoDisplayList r.1 = redoDisplayList st
  ∧ active (mouseObject r.1) = false
  ∧ r.2 = replicate (length [(1, 2)%Q; (3, 4)%Q]) ToolMoved.
Proof.
  intros cleanup st.
  apply (@hovering_draws_nothing cleanup st [(1, 2)%Q; (3, 4)%Q]).
  reflexivity.
Defined.

Module WellFormedFacts.
Import Sketchpad SketchpadSpec SketchpadFacts NormalizeFacts StrokeFacts.

Section WellFormed.
Context `{Cleanup}.

(** Strokes that only change lists the same way keep the state well
    formed. *)
Lemma wellFormed_perm (st st' : state) :
  wellFormed st →
  workingLine st' = workingLine st →
  length (lines st') = length (lines st) →
  strokeRefs st' ≡ₚ strokeRefs st →
  wellFormed st'.
Proof.
  intros (Hw & Hrefs & Hnodup) Hw' Hlen Hperm. unfold wellFormed.
  by rewrite Hw', Hlen, Hperm.
Qed.

Lemma normalizeStrokes_wellFormed (st : state) :
  wellFormed st → wellFormed (normalizeStrokes st).1.
Proof.
  intros Hwf. unfold normalizeStrokes.
  pose proof (normalizeAll_spec (displayList st) (lines st))
    as (_ & Hrefs & Hlen & _).
  destruct (normalizeAll (displayList st) (lines st)) as [ds ls]. simpl in *.
  apply (wellFormed_perm st); [done..|].
  unfold strokeRefs. simpl. by rewrite !fmap_app, Hrefs.
Qed.

Lemma handle_wellFormed (ev : event) (st : state) :
  wellFormed st → wellFormed (handle ev st).1.
Proof.
  intros Hwf. destruct ev as [x y|x y|x y checked| | | |type| |checked]; simpl.
  - (* mousedown: a new line object, which no stroke refers to yet *)
    destruct Hwf as (Hw & Hrefs & Hnodup).
    unfold strokeRefs in Hrefs, Hnodup. rewrite fmap_app in Hrefs, Hnodup.
    unfold wellFormed, strokeRefs. simpl.
    rewrite length_app, !fmap_app. simpl. split; [lia|]. split.
    + apply Forall_app in Hrefs as [H1 H2].
      repeat (apply Forall_app; split);
        [eapply Forall_impl; [exact H1|]; simpl; lia
        |repeat constructor; lia
        |eapply Forall_impl; [exact H2|]; simpl; lia].
    + rewrite <- app_assoc.
      apply NoDup_app in Hnodup as (N1 & N2 & N3).
      apply Forall_app in Hrefs as [H1 H2].
      rewrite Forall_forall in H1, H2.
      apply NoDup_app. split; [done|]. split.
      * intros r Hr [->%list_elem_of_singleton|Hr']%elem_of_app.
        -- specialize (H1 _ Hr). lia.
        -- by eapply N2.
      * apply NoDup_app. split; [apply NoDup_singleton|]. split; [|done].
        intros r ->%list_elem_of_singleton Hr. specialize (H2 _ Hr). lia.
  - (* mousemove *)
    unfold mousemove. simpl. destruct (active (mouseObject st)); simpl.
    + apply (wellFormed_perm st); [done..| |done].
      simpl. unfold pushPoint. by rewrite length_alter.
    + by apply (wellFormed_perm st).
  - (* mouseup *)
    unfold mouseup. destruct checked.
    + set (st1 := mkSketch _ _ _ _ _ _ _).
      pose proof (normalizeStrokes_wellFormed st1) as Hn.
      destruct (normalizeStrokes st1) as [st2 es]. simpl in *.
      apply Hn. by apply (wellFormed_perm st).
    + simpl. by apply (wellFormed_perm st).
  - (* clear *)
    destruct Hwf as (Hw & _ & _). split; [done|]. split; constructor.
  - (* undo *)
    destruct (pop_cases (displayList st)) as [[_ Hp]|(ds & d & Hds & _)].
    { unfold undo. by rewrite Hp. }
    rewrite (undo_snoc st ds d Hds). apply (wellFormed_perm st); [done..|].
    unfold strokeRefs. simpl. rewrite Hds, <- app_assoc.
    rewrite !fmap_app. f_equiv. apply Permutation_app_comm.
  - (* redo *)
    destruct (pop_cases (redoDisplayList st)) as [[_ Hp]|(rs & d & Hrs & _)].
    { unfold redo. by rewrite Hp. }
    rewrite (redo_snoc st rs d Hrs). apply (wellFormed_perm st); [done..|].
    unfold strokeRefs. simpl. rewrite Hrs, <- app_assoc.
    rewrite !fmap_app. f_equiv. apply Permutation_app_comm.
  - (* a structure button *)
    unfold structureButton.
    destruct (list_find _ _) as [[? [? [? ?]]]|]; [|done].
    by apply (wellFormed_perm st).
  - (* generate *)
    done.
  - (* the normalize toggle *)
    unfold normalizeToggle. destruct checked.
    + apply normalizeStrokes_wellFormed. by apply (wellFormed_perm st).
    + by apply (wellFormed_perm st).
Qed.

Lemma run_wellFormed (evs : list event) (st : state) :
  wellFormed st → wellFormed (run evs st).1.
Proof.
  revert st. induction evs as [|ev evs IH]; intros st Hwf; [done|].
  simpl. pose proof (handle_wellFormed ev st Hwf) as H1.
  destruct (handle ev st) as [st1 es1]. specialize (IH st1 H1).
  by destruct (run evs st1).
Qed.

End WellFormed.
End WellFormedFacts.

Import Sketchpad SketchpadSpec WellFormedFacts.

(** X27. Whatever the user does, from the moment the module is loaded: every
    stroke of the display list and of the redo list has a line object of
    its own (no two strokes share one), and the working line is one of the
    line objects. *)
Theorem strokes_never_share_a_line `{Cleanup} (checked : bool)
    (evs : list event) :
  wellFormed (run evs (loaded checked)).1.
Proof.
  apply run_wellFormed. unfold loaded, wellFormed, strokeRefs. simpl.
  split; [lia|]. split; constructor.
Qed.
